(** * Lark jobs: dispatch path, lazy queue proxy and worker loop

    A shallow embedding of [packages/lark-jobs/src/Job.ts] and of the
    package's [index.ts] (the queue access layer and the per-queue
    consumer).  The external collaborators (the Bull transport, the file
    system, [consola]) are black boxes: every call made on one of them is
    recorded as an [Event] in the state's [trace], and what they answer is
    read from a [World].

    Conventions of the embedding:
    - a JS object used as a dictionary ([queueMap], [Config.jobs]) is a
      [gmap] over its own string keys; reading a key that the object does
      not own falls back to the members of [Object.prototype]
      ([get_property]).  The one key that is never written is
      [__proto__]: no queue and no job class bears that name;
    - a JS [number] is an IEEE 754 binary64 value, the kernel's [float];
    - an [async] function is run to completion: [await] on a rejected
      promise is an abrupt completion carrying the rejection value;
    - Bull queue objects are built by this package only ([configureQueue]
      is exported for callers that need one). *)

From stdpp Require Import gmap strings list.
From Stdlib Require Import ZArith.
From Stdlib Require Import Floats.PrimFloat.
From Stdlib Require Floats.SpecFloat Floats.FloatOps Floats.FloatAxioms.

Local Open Scope string_scope.
Local Open Scope list_scope.
Local Open Scope Z_scope.

(** ** Values *)

(** JSON-serialisable payloads, plus [undefined]. *)
Unset Elimination Schemes.
Inductive Json : Type :=
| JUndefined
| JNull
| JBool (b : bool)
| JNum (x : float)
| JStr (s : string)
| JArr (items : list Json)
| JObj (fields : list (string * Json)).
Set Elimination Schemes.

(** A JS number. *)
Definition number : Type := float.

(** JS truthiness of a number: [+0], [-0] and [NaN] are falsy. *)
Definition truthy (n : number) : bool :=
  negb (PrimFloat.is_zero n || PrimFloat.is_nan n).

(** [n * 1000], in binary64 arithmetic *)
Definition times1000 (n : number) : number := (n * 1000)%float.

(** Values that can be thrown or carried by a rejected promise: the
    errors the engine and Node's [fs] raise, which are [Error] objects,
    [new Error(message)], and whatever value user code throws. *)
Inductive Error : Type :=
| TypeError (what : string)
| SystemError (code : string)
| PlainError (message : string)
| Thrown (value : Json).

(** [error == null]: the thrown value is [null] or [undefined]. *)
Definition nullish (error : Error) : bool :=
  match error with
  | Thrown JUndefined | Thrown JNull => true
  | _ => false
  end.

(** How a call ends: with a value, or abruptly with a thrown error. *)
Inductive Completion (A : Type) : Type :=
| Normal (a : A)
| Abrupt (e : Error).
Arguments Normal {A} a.
Arguments Abrupt {A} e.

(** [(error as Error).message] inside a [catch] block: reading a property
    of [null] or [undefined] is itself a [TypeError]; any other thrown
    value has a (possibly undefined) [message]. *)
Definition message_of (error : Error) : Completion Error :=
  if nullish error
  then Abrupt (TypeError "Cannot read properties of undefined (reading 'message')")
  else Normal error.

(** ** Property reads *)

(** The members every plain object inherits from [Object.prototype]: the
    [Object] constructor, the prototype object itself (through the
    [__proto__] accessor) and the built-in methods. *)
Inductive Builtin : Type :=
| ObjectConstructor
| ObjectPrototype
| ObjectMethod (name : string).

Definition Object_prototype_methods : list string :=
  ["__defineGetter__"; "__defineSetter__"; "hasOwnProperty";
   "__lookupGetter__"; "__lookupSetter__"; "isPrototypeOf";
   "propertyIsEnumerable"; "toString"; "valueOf"; "toLocaleString"].

Definition Object_prototype (prop : string) : option Builtin :=
  if String.eqb prop "constructor" then Some ObjectConstructor
  else if String.eqb prop "__proto__" then Some ObjectPrototype
  else if bool_decide (prop ∈ Object_prototype_methods)
       then Some (ObjectMethod prop)
       else None.

(** What [object[prop]] evaluates to. *)
Inductive Property (A : Type) : Type :=
| Own (a : A)
| Inherited (b : Builtin)
| Undefined.
Arguments Own {A} a.
Arguments Inherited {A} b.
Arguments Undefined {A}.

(** [object[prop]] for a plain object ([{}] with own keys added). *)
Definition get_property {A : Type} (object : gmap string A) (prop : string)
  : Property A :=
  match object !! prop with
  | Some a => Own a
  | None =>
      match Object_prototype prop with
      | Some b => Inherited b
      | None => Undefined
      end
  end.

(** ** Configuration ([Config.data]) *)

Record RedisConfig : Type := {
  host : string;
  port : Z;
  password : option string
}.

(** [Config.data.jobs.options]; an absent key is [None]. *)
Record JobsOptions : Type := {
  cfg_removeOnComplete : option bool;
  cfg_attempts : option number;
  cfg_debug : option bool
}.

(** [Config.data.jobs] *)
Record JobsConfig : Type := {
  dir : string;
  queues : option (list string);
  options : option JobsOptions
}.

Record ConfigData : Type := {
  data_jobs : option JobsConfig;
  data_redis : RedisConfig
}.

(** ** Transport data *)

(** A Bull queue object, identified by its allocation number. *)
Abbreviation Handle := nat (only parsing).

(** [defaultJobOptions] given to [new Queue] *)
Record DefaultJobOptions : Type := {
  d_removeOnComplete : option bool;
  d_attempts : number
}.

(** The second argument of [new Queue] *)
Record QueueOptions : Type := {
  qo_redis : RedisConfig;
  qo_defaultJobOptions : DefaultJobOptions
}.

(** Bull's per-job [JobOptions]; an absent key is [None]. *)
Record JobOptions : Type := {
  jo_delay : option number;
  jo_attempts : option number
}.

(** The data submitted with a job: [{ job, payload }]. *)
Record Envelope : Type := {
  job : string;
  payload : Json
}.

(** The message handed to a consumer: [jobObject.id], [jobObject.data]. *)
Record JobObject : Type := {
  job_id : Z;
  data : Envelope
}.

(** ** Job classes and instances *)

(** A concrete subclass of [Job]: its name ([constructor.name], which is
    also [job.name] in [Job.register]), the field initialisers it
    overrides, and its [handle] method. *)
Record JobClass : Type := {
  class_name : string;
  init_queueName : option string;
  init_delayInSeconds : option number;
  init_attempts : option number;
  handle : Json -> Completion bool
}.

(** An instance: the fields of [abstract class Job]. *)
Record Job : Type := {
  constructor : JobClass;
  queueName : string;
  queue : option Handle;
  delayInSeconds : number;
  attempts : number
}.

(** The field initialisers of the base class. *)
Definition Job_queueName_default : string := "default".
Definition Job_delayInSeconds_default : number := 0%float.
Definition Job_attempts_default : number := 5%float.

(** [new C()] *)
Definition new_Job (C : JobClass) : Job :=
  {| constructor := C;
     queueName := default Job_queueName_default (init_queueName C);
     queue := None;
     delayInSeconds := default Job_delayInSeconds_default (init_delayInSeconds C);
     attempts := default Job_attempts_default (init_attempts C) |}.

(** [this.queue = h] *)
Definition set_queue (this : Job) (h : Handle) : Job :=
  {| constructor := constructor this;
     queueName := queueName this;
     queue := Some h;
     delayInSeconds := delayInSeconds this;
     attempts := attempts this |}.

(** [delay(seconds)] *)
Definition delay (seconds : number) (this : Job) : Job :=
  {| constructor := constructor this;
     queueName := queueName this;
     queue := queue this;
     delayInSeconds := seconds;
     attempts := attempts this |}.

(** [getOptions()] *)
Definition getOptions (this : Job) : JobOptions :=
  {| jo_delay :=
       if truthy (delayInSeconds this)
       then Some (times1000 (delayInSeconds this))
       else None;
     jo_attempts :=
       if truthy (attempts this) then Some (attempts this) else None |}.

(** ** Observable calls on the collaborators *)

Inductive Level : Type := Info | Warn | Err | Debug | Success.

(** The log lines of the two files, by content. *)
Inductive Message : Type :=
| MsgJobAdded (cls : string)
| MsgDispatchingSync (cls : string)
| MsgLoadingJobs
| MsgJobs (names : gset string)
| MsgErrorLoadingJobs (e : Error)
| MsgInitializing
| MsgNoQueuesConfigured
| MsgQueues (names : list string)
| MsgConfigJobs (names : gset string)
| MsgReady
| MsgProcessing (id : Z) (job : string)
| MsgPayload (payload : Json)
| MsgNoHandler (job : string)
| MsgCompleted (job : string) (status : bool)
| MsgErrorProcessing (job : string) (e : Error).

Inductive Event : Type :=
| EvLog (lvl : Level) (m : Message) (badge : bool)
| EvReadDir (path : string)
| EvRequire (path : string)
| EvNewQueue (h : Handle) (qname : string) (o : QueueOptions)
| EvProcess (h : Handle) (concurrency : nat)
| EvAdd (h : Handle) (e : Envelope) (o : JobOptions)
| EvClose (h : Handle)
| EvInstantiate (cls : string)
| EvHandle (cls : string) (payload : Json)
| EvDone (err : option Error).

(** ** Process state *)

Record State : Type := {
  isInitialized : bool;
  queueMap : gmap string Handle;
  Config_jobs : gmap string JobClass;
  require_cache : gset string;
  next_handle : Handle;
  trace : list Event
}.

Definition initial : State :=
  {| isInitialized := false;
     queueMap := ∅;
     Config_jobs := ∅;
     require_cache := ∅;
     next_handle := 0%nat;
     trace := [] |}.

Definition emit (e : Event) (s : State) : State :=
  {| isInitialized := isInitialized s;
     queueMap := queueMap s;
     Config_jobs := Config_jobs s;
     require_cache := require_cache s;
     next_handle := next_handle s;
     trace := trace s ++ [e] |}.

Definition set_isInitialized (b : bool) (s : State) : State :=
  {| isInitialized := b;
     queueMap := queueMap s;
     Config_jobs := Config_jobs s;
     require_cache := require_cache s;
     next_handle := next_handle s;
     trace := trace s |}.

Definition set_queueMap (m : gmap string Handle) (s : State) : State :=
  {| isInitialized := isInitialized s;
     queueMap := m;
     Config_jobs := Config_jobs s;
     require_cache := require_cache s;
     next_handle := next_handle s;
     trace := trace s |}.

Definition set_Config_jobs (m : gmap string JobClass) (s : State) : State :=
  {| isInitialized := isInitialized s;
     queueMap := queueMap s;
     Config_jobs := m;
     require_cache := require_cache s;
     next_handle := next_handle s;
     trace := trace s |}.

Definition set_require_cache (c : gset string) (s : State) : State :=
  {| isInitialized := isInitialized s;
     queueMap := queueMap s;
     Config_jobs := Config_jobs s;
     require_cache := c;
     next_handle := next_handle s;
     trace := trace s |}.

Definition set_next_handle (n : Handle) (s : State) : State :=
  {| isInitialized := isInitialized s;
     queueMap := queueMap s;
     Config_jobs := Config_jobs s;
     require_cache := require_cache s;
     next_handle := n;
     trace := trace s |}.

(** [Job.register(job)]: [Config.jobs[job.name] = job] *)
Definition register (C : JobClass) (s : State) : State :=
  set_Config_jobs (<[class_name C := C]> (Config_jobs s)) s.

(** ** The world outside *)

(** What [readdirSync(path)] gives: the file names, or the [code] of the
    system error it throws ([ENOENT], [EACCES], ...). *)
Inductive Listing : Type :=
| Files (names : list string)
| Fails (code : string).

(** What the top level of a job file does each time it runs: it calls
    [Job.register] on some classes, in order, and then either completes or
    throws. *)
Record Module : Type := {
  registers : list JobClass;
  throws : option Error
}.

Record World : Type := {
  config : ConfigData;
  (** [process.cwd()] *)
  process_cwd : string;
  (** [resolve(from, to)] and [join(dir, file)] of Node's [path] *)
  path_resolve : string -> string -> string;
  join : string -> string -> string;
  readdirSync : string -> Listing;
  (** the top level of the file at a path *)
  module_top_level : string -> Module;
  (** what the transport answers to [queue.add]: [None] when it accepts
      the job, [Some e] when the returned promise rejects with [e] *)
  queue_add : Handle -> Envelope -> JobOptions -> option Error
}.

(** ** Reading a trace *)

(** The events of [s'] that were not yet in [s]. *)
Definition emitted (s s' : State) : list Event :=
  drop (length (trace s)) (trace s').

(** Runs of file discovery ([readdirSync] calls). *)
Definition discoveries (t : list Event) : list string :=
  omap (fun e => match e with EvReadDir p => Some p | _ => None end) t.

(** Queue objects built, with the name they were built for. *)
Definition constructions (t : list Event) : list (Handle * string) :=
  omap (fun e => match e with EvNewQueue h n _ => Some (h, n) | _ => None end) t.

(** Consumers attached, by handle. *)
Definition attachments (t : list Event) : list Handle :=
  omap (fun e => match e with EvProcess h _ => Some h | _ => None end) t.

(** [add] calls: handle, envelope, options. *)
Definition adds (t : list Event) : list (Handle * Envelope * JobOptions) :=
  omap (fun e => match e with EvAdd h v o => Some (h, v, o) | _ => None end) t.

(** [close] calls. *)
Definition closes (t : list Event) : list Handle :=
  omap (fun e => match e with EvClose h => Some h | _ => None end) t.

(** Classes instantiated by the worker loop. *)
Definition instantiations (t : list Event) : list string :=
  omap (fun e => match e with EvInstantiate c => Some c | _ => None end) t.

(** [handle] calls: class and payload. *)
Definition handle_calls (t : list Event) : list (string * Json) :=
  omap (fun e => match e with EvHandle c p => Some (c, p) | _ => None end) t.

(** Calls of the transport's [done] callback, with their argument. *)
Definition dones (t : list Event) : list (option Error) :=
  omap (fun e => match e with EvDone r => Some r | _ => None end) t.

(** Log lines of one level. *)
Definition logged (lvl : Level) (t : list Event) : list Message :=
  omap (fun e =>
          match e with
          | EvLog l m _ =>
              match lvl, l with
              | Info, Info | Warn, Warn | Err, Err
              | Debug, Debug | Success, Success => Some m
              | _, _ => None
              end
          | _ => None
          end) t.

(** ** The program *)

Section Program.

Context (W : World).

(** *** index.ts *)

(** Results of code that may re-enter the proxy: [None] when the given
    recursion depth did not suffice to reach a result. *)
Definition Run (A : Type) : Type := option (Completion A * State).

Definition bindR {A B : Type} (r : Run A) (k : A -> State -> Run B) : Run B :=
  match r with
  | None => None
  | Some (Abrupt e, s) => Some (Abrupt e, s)
  | Some (Normal a, s) => k a s
  end.

Notation "'call' x s <- r ;; k" := (bindR r (fun x s => k))
  (at level 100, x name, s name, r at next level, right associativity).

(** [file.endsWith('.ts') || file.endsWith('.js')] *)
Definition endsWith (suffix file : string) : bool :=
  (String.length suffix <=? String.length file)%nat &&
  String.eqb
    (String.substring (String.length file - String.length suffix)
       (String.length suffix) file)
    suffix.

Definition is_script (file : string) : bool :=
  endsWith ".ts" file || endsWith ".js" file.

(** [resolve(process.cwd(), Config.data.jobs.dir)] *)
Definition jobsPath (jobs : JobsConfig) : string :=
  path_resolve W (process_cwd W) (dir jobs).

(** [require(path)]: a file that is not in the module cache is run; its
    top level calls [Job.register] on the classes it defines.  A file
    whose top level throws is not kept in the cache, so the next
    [require] runs it again. *)
Definition require (path : string) (s : State) : Completion unit * State :=
  let s := emit (EvRequire path) s in
  if bool_decide (path ∈ require_cache s) then (Normal tt, s)
  else
    let s :=
      foldl (fun s C => register C s) s
        (registers (module_top_level W path)) in
    match throws (module_top_level W path) with
    | Some e => (Abrupt e, s)
    | None => (Normal tt, set_require_cache ({[path]} ∪ require_cache s) s)
    end.

(** [for (const file of commandFiles) require(join(jobsPath, file))] *)
Fixpoint require_all (jobsPath : string) (files : list string) (s : State)
  : Completion unit * State :=
  match files with
  | [] => (Normal tt, s)
  | file :: rest =>
      match require (join W jobsPath file) s with
      | (Abrupt e, s) => (Abrupt e, s)
      | (Normal _, s) => require_all jobsPath rest s
      end
  end.

(** The [try] block of [loadJobs]. *)
Definition load_listed (jobsPath : string) (s : State)
  : Completion unit * State :=
  let s := emit (EvReadDir jobsPath) s in
  match readdirSync W jobsPath with
  | Fails code => (Abrupt (SystemError code), s)
  | Files files =>
      match require_all jobsPath (List.filter is_script files) s with
      | (Abrupt error, s) => (Abrupt error, s)
      | (Normal _, s) =>
          (Normal tt, emit (EvLog Info (MsgJobs (dom (Config_jobs s))) false) s)
      end
  end.

(** [loadJobs()].  The [catch] block builds its log line from
    [(error as Error).message]: when the caught value is [null] or
    [undefined] that read throws, nothing is logged and the [TypeError]
    leaves [loadJobs]. *)
Definition loadJobs (s : State) : Completion unit * State :=
  match data_jobs (config W) with
  | None => (Normal tt, s)
  | Some jobs =>
      let s := emit (EvLog Info MsgLoadingJobs false) s in
      match load_listed (jobsPath jobs) s with
      | (Normal _, s) => (Normal tt, s)
      | (Abrupt error, s) =>
          match message_of error with
          | Abrupt e => (Abrupt e, s)
          | Normal message =>
              (Normal tt, emit (EvLog Err (MsgErrorLoadingJobs message) true) s)
          end
      end
  end.

(** [Config.data.jobs.options?.attempts || 2] *)
Definition attempts_or_2 (jobs : JobsConfig) : number :=
  match options jobs ≫= cfg_attempts with
  | Some n => if truthy n then n else 2%float
  | None => 2%float
  end.

(** The options object both [configureQueue] and [initQueues] build. *)
Definition queue_options (jobs : JobsConfig) : QueueOptions :=
  {| qo_redis := data_redis (config W);
     qo_defaultJobOptions :=
       {| d_removeOnComplete := options jobs ≫= cfg_removeOnComplete;
          d_attempts := attempts_or_2 jobs |} |}.

(** [new Queue(queueName, opts)]: a fresh queue object. *)
Definition new_Queue (queueName : string) (opts : QueueOptions) (s : State)
  : Handle * State :=
  (next_handle s,
   emit (EvNewQueue (next_handle s) queueName opts)
        (set_next_handle (S (next_handle s)) s)).

(** [configureQueue(queueName)].  [Config.data.jobs.options] is read
    without [?.] on [jobs]: with no jobs section this is a [TypeError]. *)
Definition configureQueue (queueName : string) (s : State)
  : Completion Handle * State :=
  match data_jobs (config W) with
  | None => (Abrupt (TypeError "Config.data.jobs is undefined"), s)
  | Some jobs =>
      let (h, s) := new_Queue queueName (queue_options jobs) s in
      (Normal h, s)
  end.

(** The [set] trap of [queues], for a value that is a Bull queue: the
    [instanceof] guard passes and the queue is stored. *)
Definition proxy_set (prop : string) (value : Handle) (s : State) : State :=
  set_queueMap (<[prop := value]> (queueMap s)) s.

(** [queues[prop] = value]: a value that is not a Bull queue ([None]) is
    refused by the guard of the [set] trap. *)
Definition assign (prop : string) (value : option Handle) (s : State)
  : Completion unit * State :=
  match value with
  | None => (Abrupt (PlainError "Can only assign Bull Queue instances"), s)
  | Some queue => (Normal tt, proxy_set prop queue s)
  end.

(** [Object.values(target)] *)
Definition Object_values (target : gmap string Handle) : list Handle :=
  (map_to_list target).*2.

(** What [initQueues] returns: a fresh empty object, or the proxy. *)
Inductive Target : Type := EmptyObject | QueuesProxy.

(** The [catch] block of the worker loop: [done(error)] is called after
    the log line, which reads [(error as Error).message] first. *)
Definition consumer_catch (job : string) (error : Error) (s : State)
  : Completion unit * State :=
  match message_of error with
  | Abrupt e => (Abrupt e, s)
  | Normal message =>
      let s := emit (EvLog Err (MsgErrorProcessing job message) true) s in
      (Normal tt, emit (EvDone (Some error)) s)
  end.

(** The function given to [process]: the worker loop for one message.
    [Config.jobs[job]] is a property read: for a name that is not
    registered but that [Object.prototype] has, it yields a built-in,
    which is truthy, and [new jobHandler().handle(payload)] then throws a
    [TypeError] inside the [try] block ([Object] can be instantiated but
    has no [handle]; the other built-ins are not constructors). *)
Definition consumer (jobObject : JobObject) (s : State)
  : Completion unit * State :=
  let job := job (data jobObject) in
  let payload := payload (data jobObject) in
  let s := emit (EvLog Info (MsgProcessing (job_id jobObject) job) false) s in
  let s := emit (EvLog Debug (MsgPayload payload) true) s in
  match get_property (Config_jobs s) job with
  | Undefined => (Normal tt, emit (EvLog Err (MsgNoHandler job) true) s)
  | Inherited ObjectConstructor =>
      let s := emit (EvInstantiate "Object") s in
      consumer_catch job (TypeError "handle is not a function") s
  | Inherited _ =>
      consumer_catch job (TypeError "jobHandler is not a constructor") s
  | Own jobHandler =>
      let s := emit (EvInstantiate (class_name jobHandler)) s in
      let s := emit (EvHandle (class_name jobHandler) payload) s in
      match handle jobHandler payload with
      | Normal status =>
          let s := emit (EvLog Info (MsgCompleted job status) false) s in
          (Normal tt, emit (EvDone None) s)
      | Abrupt error => consumer_catch job error s
      end
  end.

(** The body of the [for] loop of [initQueues]; [get] is the [get] trap
    of the proxy, through which [queues[queueName]] is read back. *)
Fixpoint init_loop (get : string -> State -> Run (Property Handle))
    (jobs : JobsConfig) (names : list string) (s : State) : Run unit :=
  match names with
  | [] => Some (Normal tt, s)
  | queueName :: rest =>
      let (h, s) := new_Queue queueName (queue_options jobs) s in
      let s := proxy_set queueName h s in
      call q s <- get queueName s ;;
      match q with
      | Own h' => init_loop get jobs rest (emit (EvProcess h' 1) s)
      | _ =>
          Some (Abrupt (TypeError "queues[queueName].process is not a function"),
                s)
      end
  end.

(** [!Config.data.jobs?.queues?.length] *)
Definition no_queues_configured : bool :=
  match data_jobs (config W) ≫= queues with
  | Some (_ :: _) => false
  | _ => true
  end.

(** [initQueues()] from the [consola.debug] line to the end. *)
Definition init_queues_tail (get : string -> State -> Run (Property Handle))
    (s : State) : Run Target :=
  let s := emit (EvLog Debug (MsgConfigJobs (dom (Config_jobs s))) true) s in
  call _ s <-
    match data_jobs (config W) with
    | Some jobs =>
        match queues jobs with
        | Some names => init_loop get jobs names s
        | None => Some (Normal tt, s)
        end
    | None => Some (Normal tt, s)
    end ;;
  let s := emit (EvLog Success MsgReady false) s in
  Some (Normal QueuesProxy, s).

(** [initQueues()] after its [loadJobs()] call. *)
Definition init_queues_loaded (get : string -> State -> Run (Property Handle))
    (s : State) : Run Target :=
  if negb (isInitialized s) then
    let s := emit (EvLog Info MsgInitializing false) s in
    if no_queues_configured then
      let s := emit (EvLog Warn MsgNoQueuesConfigured true) s in
      let s := set_isInitialized true s in
      Some (Normal EmptyObject, s)
    else
      let s :=
        emit (EvLog Info
                (MsgQueues (default [] (data_jobs (config W) ≫= queues)))
                false) s in
      let s := set_isInitialized true s in
      init_queues_tail get s
  else init_queues_tail get s.

(** [initQueues()], with the proxy's [get] trap as a parameter. *)
Definition initQueues_with (get : string -> State -> Run (Property Handle))
    (s : State) : Run Target :=
  call _ s <- Some (loadJobs s) ;;
  init_queues_loaded get s.

(** The [get] trap of [queues]: [depth] bounds how deep the trap and
    [initQueues] may call each other. *)
Fixpoint proxy_get (depth : nat) (prop : string) (s : State)
  : Run (Property Handle) :=
  match depth with
  | O => None
  | S depth =>
      if (length (Object_values (queueMap s)) =? 0)%nat then
        call target s <- initQueues_with (proxy_get depth) s ;;
        match target with
        | EmptyObject => Some (Normal (get_property ∅ prop), s)
        | QueuesProxy => proxy_get depth prop s
        end
      else Some (Normal (get_property (queueMap s) prop), s)
  end.

(** [initQueues()] called directly. *)
Definition initQueues (depth : nat) (s : State) : Run Target :=
  initQueues_with (proxy_get depth) s.

(** [queues[p1]; queues[p2]; ...]: one access after the other. *)
Fixpoint lookups (depth : nat) (props : list string) (s : State)
  : Run (list (Property Handle)) :=
  match props with
  | [] => Some (Normal [], s)
  | prop :: rest =>
      call q s <- proxy_get depth prop s ;;
      call qs s <- lookups depth rest s ;;
      Some (Normal (q :: qs), s)
  end.

(** *** Job.ts *)

(** [Config.data.jobs?.options?.debug === true] *)
Definition debug_enabled : bool :=
  match (data_jobs (config W) ≫= options) ≫= cfg_debug return bool with
  | Some true => true
  | _ => false
  end.

(** [this.info(message)] with the default [badge = false] *)
Definition info (m : Message) (s : State) : State :=
  emit (EvLog Info m false) s.

(** What a [dispatch] call leaves behind: the instance (its [queue] field
    is assigned), how the returned promise settles, and the state. *)
Record Dispatched : Type := {
  this_after : Job;
  settled : Completion bool;
  state_after : State
}.

(** [dispatch(payload)] *)
Definition dispatch (this : Job) (payload : Json) (s : State) : Dispatched :=
  match configureQueue (queueName this) s with
  | (Abrupt e, s) =>
      {| this_after := this; settled := Abrupt e; state_after := s |}
  | (Normal h, s) =>
      let this := set_queue this h in
      let s :=
        if debug_enabled
        then info (MsgJobAdded (class_name (constructor this))) s
        else s in
      let envelope :=
        {| job := class_name (constructor this); payload := payload |} in
      let s := emit (EvAdd h envelope (getOptions this)) s in
      match queue_add W h envelope (getOptions this) with
      | Some e =>
          {| this_after := this; settled := Abrupt e; state_after := s |}
      | None =>
          let s := emit (EvClose h) s in
          {| this_after := this; settled := Normal true; state_after := s |}
      end
  end.

(** [dispatchNow(payload)] *)
Definition dispatchNow (this : Job) (payload : Json) (s : State)
  : Completion bool * State :=
  let s :=
    if debug_enabled
    then info (MsgDispatchingSync (class_name (constructor this))) s
    else s in
  let s := emit (EvHandle (class_name (constructor this)) payload) s in
  (handle (constructor this) payload, s).

End Program.

(** ** What the operations are expected to emit *)

Section Expected.

Context (W : World).

(** The calls one [dispatch] makes when a jobs section is configured:
    a queue is built for the instance's queue name with handle [h], the
    envelope is submitted, and the queue is closed once [add] resolved. *)
Definition dispatch_events (jobs : JobsConfig) (this : Job) (payload : Json)
    (h : Handle) : list Event :=
  let envelope :=
    {| job := class_name (constructor this); payload := payload |} in
  let opts := getOptions (set_queue this h) in
  [EvNewQueue h (queueName this) (queue_options W jobs)] ++
  (if debug_enabled W
   then [EvLog Info (MsgJobAdded (class_name (constructor this))) false]
   else []) ++
  [EvAdd h envelope opts] ++
  match queue_add W h envelope opts with
  | None => [EvClose h]
  | Some _ => []
  end.

(** The calls of the [for] loop of [initQueues] over [names], the first
    queue getting handle [h]. *)
Fixpoint loop_events (jobs : JobsConfig) (h : Handle) (names : list string)
  : list Event :=
  match names with
  | [] => []
  | queueName :: rest =>
      EvNewQueue h queueName (queue_options W jobs) ::
      EvProcess h 1 :: loop_events jobs (S h) rest
  end.

(** The cache after that loop. *)
Fixpoint loop_map (h : Handle) (names : list string)
    (m : gmap string Handle) : gmap string Handle :=
  match names with
  | [] => m
  | queueName :: rest => loop_map (S h) rest (<[queueName := h]> m)
  end.

(** ** Reachable states *)

(** One call into the package: a registration, an access to [queues], a
    call of one of the exported functions, a method call on a job
    instance, or the transport delivering a message to a consumer. *)
Inductive operation : State -> State -> Prop :=
| op_register (C : JobClass) (s : State) :
    operation s (register C s)
| op_lookup (depth : nat) (prop : string) (s : State) r s' :
    proxy_get W depth prop s = Some (r, s') -> operation s s'
| op_initQueues (depth : nat) (s : State) r s' :
    initQueues W depth s = Some (r, s') -> operation s s'
| op_loadJobs (s : State) :
    operation s (loadJobs W s).2
| op_configureQueue (queueName : string) (s : State) :
    operation s (configureQueue W queueName s).2
| op_dispatch (this : Job) (payload : Json) (s : State) :
    operation s (state_after (dispatch W this payload s))
| op_dispatchNow (this : Job) (payload : Json) (s : State) :
    operation s (dispatchNow W this payload s).2
| op_deliver (jobObject : JobObject) (s : State) :
    operation s (consumer jobObject s).2.

(** One step of the process: an operation, or an assignment
    [queues[prop] = queue] made from outside the package, of a queue
    object that exists (one obtained from [configureQueue], from the
    [queue] field of a dispatched job, or from [queues] itself).  An
    assignment of anything else is refused and changes nothing. *)
Inductive step : State -> State -> Prop :=
| step_operation (s s' : State) :
    operation s s' -> step s s'
| step_assign (prop : string) (queue : Handle) (s : State) :
    (queue < next_handle s)%nat ->
    step s (assign prop (Some queue) s).2.

Definition reachable (s : State) : Prop := rtc step initial s.

(** States reached by operations alone, without any assignment to
    [queues] from outside. *)
Definition reachable_unassigned (s : State) : Prop := rtc operation initial s.

(** Every cached handle is a queue object that exists. *)
Definition cache_allocated (s : State) : Prop :=
  forall (qname : string) (h : Handle),
    queueMap s !! qname = Some h -> (h < next_handle s)%nat.

(** The queue objects that exist are the ones built so far. *)
Definition handles_allocated (s : State) : Prop :=
  forall h : Handle,
    (h < next_handle s)%nat <->
    exists qname o, EvNewQueue h qname o ∈ trace s.

(** Every queue built so far got the options computed from the
    configuration. *)
Definition built_with_config (s : State) : Prop :=
  forall (h : Handle) (qname : string) (o : QueueOptions),
    EvNewQueue h qname o ∈ trace s ->
    exists jobs, data_jobs (config W) = Some jobs /\ o = queue_options W jobs.

Definition Inv (s : State) : Prop :=
  cache_allocated s /\ handles_allocated s /\ built_with_config s.

(** A [get] trap that keeps the invariant. *)
Definition keeps_Inv (get : string -> State -> Run (Property Handle)) : Prop :=
  forall prop s r s', get prop s = Some (r, s') -> Inv s -> Inv s'.

(** [s'] differs from [s] by the events [evs] and, possibly, by what was
    registered or loaded: the queue cache, the initialisation flag and the
    allocation counter are those of [s]. *)
Definition frame (s s' : State) (evs : list Event) : Prop :=
  trace s' = trace s ++ evs /\
  queueMap s' = queueMap s /\
  isInitialized s' = isInitialized s /\
  next_handle s' = next_handle s.

(** Events that touch neither the transport nor the directory listing. *)
Definition housekeeping (e : Event) : bool :=
  match e with
  | EvLog _ _ _ | EvRequire _ => true
  | _ => false
  end.

(** Events that build a queue object. *)
Definition builds_queue (e : Event) : bool :=
  match e with
  | EvNewQueue _ _ _ => true
  | _ => false
  end.

(** What [loadJobs] emits before it lists the directory. *)
Definition load_prefix : list Event :=
  match data_jobs (config W) with
  | None => []
  | Some jobs => [EvLog Info MsgLoadingJobs false; EvReadDir (jobsPath W jobs)]
  end.

(** [Config.data.jobs.options?.attempts] is absent or falsy. *)
Definition attempts_unset (jobs : JobsConfig) : Prop :=
  match options jobs ≫= cfg_attempts with
  | None => True
  | Some n => truthy n = false
  end.

End Expected.

(** ** Example inputs *)

Definition redis_local : RedisConfig :=
  {| host := "localhost"; port := 6379; password := None |}.

(** A class with [queueName = 'emails'], [delayInSeconds = 5],
    [attempts = 3], whose handler succeeds. *)
Definition SendEmailJob : JobClass :=
  {| class_name := "SendEmailJob";
     init_queueName := Some "emails";
     init_delayInSeconds := Some 5%float;
     init_attempts := Some 3%float;
     handle := fun _ => Normal true |}.

(** A class that overrides nothing; its handler returns [false]. *)
Definition PlainJob : JobClass :=
  {| class_name := "PlainJob";
     init_queueName := None;
     init_delayInSeconds := None;
     init_attempts := None;
     handle := fun _ => Normal false |}.

(** The example job of the repository: [throw payload]. *)
Definition ExampleJob : JobClass :=
  {| class_name := "ExampleJob";
     init_queueName := None;
     init_delayInSeconds := None;
     init_attempts := None;
     handle := fun payload => Abrupt (Thrown payload) |}.

(** [{to: 'a@b.com'}] *)
Definition payload_to : Json := JObj [("to", JStr "a@b.com")].

(** [resolve] and [join] on the paths of the examples: a relative path
    [./x] under an absolute base. *)
Definition resolve_posix (from to : string) : string :=
  if String.prefix "/" to then to
  else if String.prefix "./" to
       then from +:+ "/" +:+ String.substring 2 (String.length to - 2) to
       else from +:+ "/" +:+ to.

Definition join_posix (dir file : string) : string := dir +:+ "/" +:+ file.

(** A job file that registers the given classes and completes. *)
Definition registering (classes : list JobClass) : Module :=
  {| registers := classes; throws := None |}.

Definition world_with (names : option (list string))
    (add : Handle -> Envelope -> JobOptions -> option Error) : World :=
  {| config :=
       {| data_jobs :=
            Some {| dir := "./jobs"; queues := names; options := None |};
          data_redis := redis_local |};
     process_cwd := "/app";
     path_resolve := resolve_posix;
     join := join_posix;
     readdirSync := fun _ => Files ["SendEmailJob.ts"; "README.md"];
     module_top_level := fun _ => registering [SendEmailJob];
     queue_add := add |}.

(** Queues [emails] and [default]; the transport accepts every job. *)
Definition world_emails : World :=
  world_with (Some ["emails"; "default"]) (fun _ _ _ => None).

(** [queues: []] *)
Definition world_no_queues : World :=
  world_with (Some []) (fun _ _ _ => None).

(** A transport that rejects every submission. *)
Definition world_rejecting : World :=
  world_with (Some ["emails"])
    (fun _ _ _ => Some (Thrown (JStr "ECONNREFUSED"))).

(** A configuration without a jobs section. *)
Definition world_no_jobs : World :=
  {| config := {| data_jobs := None; data_redis := redis_local |};
     process_cwd := "/app";
     path_resolve := resolve_posix;
     join := join_posix;
     readdirSync := fun _ => Files [];
     module_top_level := fun _ => registering [];
     queue_add := fun _ _ _ => None |}.

(** The state of a worker for [world_emails] after [queues.emails] was
    read once. *)
Definition after_first_lookup : State :=
  match proxy_get world_emails 2 "emails" initial with
  | Some (_, s) => s
  | None => initial
  end.

(** ** Further readings of a trace and of the initialisation loop *)

(** [require] calls, by path. *)
Definition requires (t : list Event) : list string :=
  omap (fun e => match e with EvRequire p => Some p | _ => None end) t.

(** What the [catch] block of the worker loop emits. *)
Definition catch_events (job : string) (error : Error) : list Event :=
  if nullish error then []
  else [EvLog Err (MsgErrorProcessing job error) true; EvDone (Some error)].

(** The [done] calls the worker loop makes for a handler that settled as
    [r]: [done()] when it resolved, [done(error)] when it threw, and none
    when what it threw is [null] or [undefined]. *)
Definition done_calls (r : Completion bool) : list (option Error) :=
  match r with
  | Normal _ => [None]
  | Abrupt error => if nullish error then [] else [Some error]
  end.


(** The state after the [for] loop of [initQueues] went over [names],
    every [queues[queueName]] being read back from the cache. *)
Fixpoint loop_state (W : World) (jobs : JobsConfig) (names : list string)
    (s : State) : State :=
  match names with
  | [] => s
  | queueName :: rest =>
      let (h, s) := new_Queue queueName (queue_options W jobs) s in
      let s := proxy_set queueName h s in
      loop_state W jobs rest (emit (EvProcess h 1) s)
  end.

(** Log lines other than errors. *)
Definition is_log (e : Event) : bool :=
  match e with
  | EvLog Err _ _ => false
  | EvLog _ _ _ => true
  | _ => false
  end.

(** [Config.data.jobs?.queues], an absent list read as empty. *)
Definition configured_names (W : World) : list string :=
  default [] (data_jobs (config W) ≫= queues).

(** What the loop of [initQueues] emits for the configured names, the
    first queue getting handle [h]. *)
Definition built_events (W : World) (h : Handle) : list Event :=
  match data_jobs (config W) with
  | Some jobs =>
      match queues jobs with
      | Some names => loop_events W jobs h names
      | None => []
      end
  | None => []
  end.

(** [loadJobs()] comes back without throwing. *)
Definition loads (W : World) (s : State) : Prop :=
  (loadJobs W s).1 = Normal tt.

(** [initQueues()] from the [consola.debug] line to the end, when every
    [queues[queueName]] of the loop is read back from the cache. *)
Definition init_queues_tail_result (W : World) (s : State) : Target * State :=
  let s := emit (EvLog Debug (MsgConfigJobs (dom (Config_jobs s))) true) s in
  let s :=
    match data_jobs (config W) with
    | Some jobs =>
        match queues jobs with
        | Some names => loop_state W jobs names s
        | None => s
        end
    | None => s
    end in
  (QueuesProxy, emit (EvLog Success MsgReady false) s).

(** [initQueues()] after its [loadJobs()] call, likewise. *)
Definition init_queues_loaded_result (W : World) (s : State)
  : Target * State :=
  if negb (isInitialized s) then
    let s := emit (EvLog Info MsgInitializing false) s in
    if no_queues_configured W then
      let s := emit (EvLog Warn MsgNoQueuesConfigured true) s in
      (EmptyObject, set_isInitialized true s)
    else
      let s :=
        emit (EvLog Info
                (MsgQueues (default [] (data_jobs (config W) ≫= queues)))
                false) s in
      init_queues_tail_result W (set_isInitialized true s)
  else init_queues_tail_result W s.

(** How a call of [initQueues()] completes and the state it leaves, the
    read-backs of its loop being served from the cache: the [TypeError] of
    [loadJobs], or what the rest of the function returns. *)
Definition initQueues_result (W : World) (s : State)
  : Completion Target * State :=
  match loadJobs W s with
  | (Abrupt e, s) => (Abrupt e, s)
  | (Normal _, s) =>
      (Normal (init_queues_loaded_result W s).1,
       (init_queues_loaded_result W s).2)
  end.

(** The one situation in which reading [queues] neither returns nor
    throws: nothing cached, nothing to build, the flag already set, and a
    [loadJobs] that comes back. *)
Definition access_stuck (W : World) (s : State) : Prop :=
  queueMap s = ∅ /\ no_queues_configured W = true /\
  isInitialized s = true /\ loads W s.

(** ** Further example inputs *)

Definition jobs_default_queue (dir : string) : ConfigData :=
  {| data_jobs :=
       Some {| dir := dir; queues := Some ["default"]; options := None |};
     data_redis := redis_local |}.

(** A jobs directory whose third script fails to load. *)
Definition world_broken_file : World :=
  {| config := jobs_default_queue "./jobs";
     process_cwd := "/app";
     path_resolve := resolve_posix;
     join := join_posix;
     readdirSync := fun _ =>
       Files ["SendEmailJob.ts"; "notes.txt"; "Plain.js"; "Broken.ts";
              "Example.ts"];
     module_top_level := fun path =>
       if String.eqb path "/app/jobs/Broken.ts"
       then {| registers := []; throws := Some (Thrown (JStr "SyntaxError")) |}
       else if String.eqb path "/app/jobs/Plain.js" then registering [PlainJob]
       else if String.eqb path "/app/jobs/Example.ts"
            then registering [ExampleJob]
            else registering [SendEmailJob];
     queue_add := fun _ _ _ => None |}.

(** A jobs directory that cannot be listed. *)
Definition world_unreadable : World :=
  {| config := jobs_default_queue "./missing";
     process_cwd := "/app";
     path_resolve := resolve_posix;
     join := join_posix;
     readdirSync := fun _ => Fails "ENOENT";
     module_top_level := fun _ => registering [];
     queue_add := fun _ _ _ => None |}.

(** A jobs directory with one file, whose top level ends in
    [throw null]. *)
Definition world_throwing_null : World :=
  {| config := jobs_default_queue "./jobs";
     process_cwd := "/app";
     path_resolve := resolve_posix;
     join := join_posix;
     readdirSync := fun _ => Files ["Broken.ts"];
     module_top_level := fun _ =>
       {| registers := []; throws := Some (Thrown JNull) |};
     queue_add := fun _ _ _ => None |}.

(** The same directory, the file throwing an [Error] object instead. *)
Definition world_throwing_error : World :=
  {| config := jobs_default_queue "./jobs";
     process_cwd := "/app";
     path_resolve := resolve_posix;
     join := join_posix;
     readdirSync := fun _ => Files ["Broken.ts"];
     module_top_level := fun _ =>
       {| registers := []; throws := Some (PlainError "boom") |};
     queue_add := fun _ _ _ => None |}.

(** A job file that registers its class and then throws. *)
Definition world_registers_then_throws : World :=
  {| config := jobs_default_queue "./jobs";
     process_cwd := "/app";
     path_resolve := resolve_posix;
     join := join_posix;
     readdirSync := fun _ => Files ["SendEmailJob.ts"];
     module_top_level := fun _ =>
       {| registers := [SendEmailJob]; throws := Some (PlainError "late") |};
     queue_add := fun _ _ _ => None |}.

(** A class registered by hand under the name of a discovered one. *)
Definition SendEmailJob_override : JobClass :=
  {| class_name := "SendEmailJob";
     init_queueName := Some "default";
     init_delayInSeconds := None;
     init_attempts := None;
     handle := fun _ => Normal false |}.

(** ** What a process never loses, and how it uses its handles *)

(** [s'] holds everything [s] held: the log is extended, no registered
    name, cached queue name or loaded module is forgotten, the flag is not
    reset and handles are not reused. *)
Definition grows (s s' : State) : Prop :=
  trace s `prefix_of` trace s' /\
  (next_handle s <= next_handle s')%nat /\
  (isInitialized s = true -> isInitialized s' = true) /\
  dom (queueMap s) ⊆ dom (queueMap s') /\
  dom (Config_jobs s) ⊆ dom (Config_jobs s') /\
  require_cache s ⊆ require_cache s'.

(** Consumers are attached to queue objects that exist, closed handles
    exist and never carry a consumer. *)
Definition handle_discipline (s : State) : Prop :=
  Forall (fun h => (h < next_handle s)%nat) (attachments (trace s)) /\
  Forall (fun h => (h < next_handle s)%nat) (closes (trace s)) /\
  (forall h, h ∈ closes (trace s) -> h ∉ attachments (trace s)).

(** Every cached handle carries a consumer. *)
Definition cache_consumed (s : State) : Prop :=
  forall n h, queueMap s !! n = Some h -> h ∈ attachments (trace s).

(** What one step adds: the events [evs], with consumers and closes on
    handles allocated by this very step, never both on one handle. *)
Definition step_delta (s s' : State) (evs : list Event) : Prop :=
  trace s' = trace s ++ evs /\
  (next_handle s <= next_handle s')%nat /\
  Forall (fun h => (next_handle s <= h < next_handle s')%nat)
    (attachments evs) /\
  Forall (fun h => (next_handle s <= h < next_handle s')%nat) (closes evs) /\
  (forall h, h ∈ closes evs -> h ∉ attachments evs).

(** What one operation does to the cache: its entries are either old or
    freshly consumed from. *)
Definition cache_delta (s s' : State) (evs : list Event) : Prop :=
  forall n h, queueMap s' !! n = Some h ->
    queueMap s !! n = Some h \/ h ∈ attachments evs.

(** ** commands/AddJobCommand.ts *)

(** Strings of this file are JS strings whose code units are below 256,
    one [ascii] per code unit. *)

Definition code (c : Ascii.ascii) : nat := Ascii.nat_of_ascii c.

Definition in_range (lo hi : nat) (c : Ascii.ascii) : bool :=
  (lo <=? code c)%nat && (code c <=? hi)%nat.

(** [\s]: tab, line feed, vertical tab, form feed, carriage return, space
    and no-break space are the white space below 256. *)
Definition is_space (c : Ascii.ascii) : bool :=
  in_range 9 13 c || (code c =? 32)%nat || (code c =? 160)%nat.

(** [A-Z] *)
Definition is_upper (c : Ascii.ascii) : bool := in_range 65 90 c.

(** [\w]: [A-Za-z0-9_] *)
Definition is_word (c : Ascii.ascii) : bool :=
  in_range 97 122 c || is_upper c || in_range 48 57 c || (code c =? 95)%nat.

(** [\-] *)
Definition is_hyphen (c : Ascii.ascii) : bool := (code c =? 45)%nat.

Definition hyphen : Ascii.ascii := Ascii.ascii_of_nat 45.

(** [toLowerCase] on one code unit below 256: [A-Z] and the capital
    letters U+00C0..U+00DE (but the sign U+00D7) move up by 32. *)
Definition lower (c : Ascii.ascii) : Ascii.ascii :=
  if is_upper c || in_range 192 214 c || in_range 216 222 c
  then Ascii.ascii_of_nat (code c + 32)
  else c.

(** [str.toLowerCase()] *)
Fixpoint toLowerCase (str : string) : string :=
  match str with
  | EmptyString => EmptyString
  | String c rest => String (lower c) (toLowerCase rest)
  end.

(** [str.replace(/p+/g, '-')] for a character class [p]: every maximal
    run of characters of the class becomes one hyphen; [in_run] tells that
    the character before was of the class. *)
Fixpoint replace_runs (p : Ascii.ascii -> bool) (in_run : bool) (str : string)
  : string :=
  match str with
  | EmptyString => EmptyString
  | String c rest =>
      if p c then
        if in_run then replace_runs p true rest
        else String hyphen (replace_runs p true rest)
      else String c (replace_runs p false rest)
  end.

(** [str.replace(/[^p]+/g, '')]: the characters of the class [p] stay. *)
Fixpoint keep (p : Ascii.ascii -> bool) (str : string) : string :=
  match str with
  | EmptyString => EmptyString
  | String c rest => if p c then String c (keep p rest) else keep p rest
  end.

(** [str.replace(/^-+/, '')] *)
Fixpoint strip_leading (str : string) : string :=
  match str with
  | EmptyString => EmptyString
  | String c rest => if is_hyphen c then strip_leading rest else str
  end.

(** [str.replace(/-+$/, '')] *)
Fixpoint strip_trailing (str : string) : string :=
  match str with
  | EmptyString => EmptyString
  | String c rest =>
      match strip_trailing rest with
      | EmptyString => if is_hyphen c then EmptyString else String c EmptyString
      | kept => String c kept
      end
  end.

(** [slugify(str)].  The fourth step is [replace(/\-\-+/g, '-')]: runs of
    two hyphens or more become one hyphen and a single hyphen stays, which
    is [replace_runs] on the hyphen class. *)
Definition slugify (str : string) : string :=
  strip_trailing
    (strip_leading
       (replace_runs is_hyphen false
          (keep (fun c => is_word c || is_hyphen c)
             (replace_runs is_space false (toLowerCase str))))).

(** What a slug looks like: lower-case letters, digits, underscores and
    hyphens, no two hyphens in a row, no hyphen first or last. *)
Definition slug_char (c : Ascii.ascii) : bool :=
  in_range 97 122 c || in_range 48 57 c || (code c =? 95)%nat || is_hyphen c.

Fixpoint all_chars (p : Ascii.ascii -> bool) (str : string) : bool :=
  match str with
  | EmptyString => true
  | String c rest => p c && all_chars p rest
  end.

Definition starts_with_hyphen (str : string) : bool :=
  match str with
  | EmptyString => false
  | String c _ => is_hyphen c
  end.

Fixpoint ends_with_hyphen (str : string) : bool :=
  match str with
  | EmptyString => false
  | String c EmptyString => is_hyphen c
  | String _ rest => ends_with_hyphen rest
  end.

Fixpoint no_double_hyphen (str : string) : bool :=
  match str with
  | EmptyString => true
  | String c rest =>
      negb (is_hyphen c && starts_with_hyphen rest) && no_double_hyphen rest
  end.

Definition is_slug (str : string) : bool :=
  all_chars slug_char str && no_double_hyphen str &&
  negb (starts_with_hyphen str) && negb (ends_with_hyphen str).

(** *** [AddJobCommand.handle] *)

(** What the command finds around it: the configuration, the working
    directory and path resolution, what the user answers to the two
    prompts ([None]: no answer), the file system, and [toUpperCase]. *)
Record CliWorld : Type := {
  cli_config : ConfigData;
  cwd : string;
  resolve : string -> string -> string;
  answer_jobName : option string;
  answer_commandKey : string -> option string;
  existsSync : string -> bool;
  (** [None] when the file was written, [Some message] when
      [writeFileSync] throws an error with that message *)
  writeFileSync : string -> string -> option string;
  toUpperCase : string -> string
}.

(** The calls the command makes.  [this.error] and [this.success] belong
    to the [Command] base class, which is not among the sources: a call is
    recorded with its arguments. *)
Inductive CliEvent : Type :=
| CliPrompt (name : string) (initial : option string)
| CliError (message : string) (badge : bool)
| CliSuccess (message : string) (badge : bool)
| CliExists (path : string)
| CliWrite (path content : string).

(** JS truthiness of a string that may be [undefined]. *)
Definition given (str : option string) : option string :=
  match str with
  | Some EmptyString => None
  | other => other
  end.

(** [str.charAt(0)] and [str.slice(1)] *)
Definition charAt0 (str : string) : string :=
  match str with
  | EmptyString => EmptyString
  | String c _ => String c EmptyString
  end.

Definition slice1 (str : string) : string :=
  match str with
  | EmptyString => EmptyString
  | String _ rest => rest
  end.

Definition newline : string := String (Ascii.ascii_of_nat 10) EmptyString.

Section AddJobCommand.

Context (C : CliWorld).

(** [jobName.charAt(0).toUpperCase() + jobName.slice(1)] *)
Definition capitalized (jobName : string) : string :=
  toUpperCase C (charAt0 jobName) +:+ slice1 jobName.

(** The template literal written to the new file. *)
Definition commandContent (jobName : string) : string :=
  "import { Job } from '@s18i/lark-jobs'" +:+ newline +:+
  newline +:+
  "class " +:+ capitalized jobName +:+ "Job extends Job {" +:+ newline +:+
  newline +:+
  "  async handle() {" +:+ newline +:+
  "    // Job logic here" +:+ newline +:+
  newline +:+
  "    return true" +:+ newline +:+
  "  }" +:+ newline +:+
  "}" +:+ newline +:+
  newline +:+
  "Job.register(" +:+ capitalized jobName +:+ "Command)" +:+ newline +:+
  newline +:+
  "export { " +:+ capitalized jobName +:+ "Command }" +:+ newline.

(** [handle([jobName])]: the result and the calls made, in order. *)
Definition AddJobCommand_handle (args : list string)
  : Completion bool * list CliEvent :=
  let jobName := given (head args) in
  let '(jobName, t) :=
    match jobName with
    | None => (given (answer_jobName C), [CliPrompt "jobName" None])
    | Some _ => (jobName, [])
    end in
  match jobName with
  | None => (Normal false, t ++ [CliError "Command name is required" true])
  | Some jobName =>
      let defaultKey := slugify jobName in
      let t := t ++ [CliPrompt "commandKey" (Some defaultKey)] in
      let commandKey :=
        default defaultKey (given (answer_commandKey C defaultKey)) in
      match data_jobs (cli_config C) with
      | None => (Abrupt (TypeError "Config.data.jobs is undefined"), t)
      | Some jobs =>
          let commandsPath := resolve C (cwd C) (dir jobs) in
          let fileName := capitalized jobName +:+ "Job.ts" in
          let filePath := resolve C commandsPath fileName in
          let t := t ++ [CliExists filePath] in
          if existsSync C filePath then
            (Normal false,
             t ++ [CliError ("Job file " +:+ fileName +:+ " already exists")
                     true])
          else
            let t := t ++ [CliWrite filePath (commandContent jobName)] in
            match writeFileSync C filePath (commandContent jobName) with
            | None =>
                (Normal true,
                 t ++ [CliSuccess
                         ("Job " +:+ fileName +:+ " created successfully")
                         true])
            | Some message =>
                (Normal false,
                 t ++ [CliError
                         ("Failed to create job " +:+ fileName +:+ ": "
                          +:+ message) true])
            end
      end
  end.

End AddJobCommand.

(** [writeFileSync] calls, by path. *)
Definition writes (t : list CliEvent) : list (string * string) :=
  omap (fun e => match e with CliWrite p c => Some (p, c) | _ => None end) t.

(** Error and success lines. *)
Definition cli_errors (t : list CliEvent) : list string :=
  omap (fun e => match e with CliError m _ => Some m | _ => None end) t.

Definition cli_successes (t : list CliEvent) : list string :=
  omap (fun e => match e with CliSuccess m _ => Some m | _ => None end) t.

(** The same surroundings, with other answers to the key prompt. *)
Definition with_answer_commandKey (answer : string -> option string)
    (C : CliWorld) : CliWorld :=
  {| cli_config := cli_config C;
     cwd := cwd C;
     resolve := resolve C;
     answer_jobName := answer_jobName C;
     answer_commandKey := answer;
     existsSync := existsSync C;
     writeFileSync := writeFileSync C;
     toUpperCase := toUpperCase C |}.

(** [toUpperCase] on the letters [a-z]. *)
Definition upper_ascii (str : string) : string :=
  match str with
  | String c EmptyString =>
      if in_range 97 122 c
      then String (Ascii.ascii_of_nat (code c - 32)) EmptyString
      else str
  | other => other
  end.

(** A project with a jobs directory in which [ReportJob.ts] exists. *)
Definition cli_example : CliWorld :=
  {| cli_config :=
       {| data_jobs :=
            Some {| dir := "./jobs"; queues := Some ["default"];
                    options := None |};
          data_redis := redis_local |};
     cwd := "/app";
     resolve := fun base path => base +:+ "/" +:+ path;
     answer_jobName := Some "cleanup";
     answer_commandKey := fun initial => Some initial;
     existsSync := fun path => String.eqb path "/app/./jobs/ReportJob.ts";
     writeFileSync := fun _ _ => None;
     toUpperCase := upper_ascii |}.

(** Case analysis on the 256 code units. *)
Ltac each_char c :=
  destruct c as [[] [] [] [] [] [] [] []]; vm_compute; try reflexivity;
  try discriminate; auto.

(** ** Sanity checks of the embedding *)

Example getOptions_5_3 :
  getOptions (new_Job SendEmailJob) =
  {| jo_delay := Some 5000%float; jo_attempts := Some 3%float |}.
Proof. reflexivity. Qed.

Example getOptions_defaults :
  getOptions (new_Job PlainJob) =
  {| jo_delay := None; jo_attempts := Some 5%float |}.
Proof. reflexivity. Qed.

(** The product is the binary64 one: above 2^53 / 1000 it is rounded, and
    fractions of a second are kept. *)
Example times1000_rounds :
  times1000 9007199254740991%float = 9007199254740990976%float /\
  times1000 0.5%float = 500%float /\
  times1000 infinity = infinity.
Proof. repeat split. Qed.

Example truthy_examples :
  List.map truthy [0%float; (-0)%float; nan; 5%float; 0.5%float; infinity] =
  [false; false; false; true; true; true].
Proof. reflexivity. Qed.

Example get_property_examples :
  let registry : gmap string JobClass := {[ "PlainJob" := PlainJob ]} in
  get_property registry "PlainJob" = Own PlainJob /\
  get_property registry "Nonexistent" = Undefined /\
  get_property registry "constructor" = Inherited ObjectConstructor /\
  get_property registry "toString" = Inherited (ObjectMethod "toString").
Proof. repeat split. Qed.

Example is_script_examples :
  List.map is_script ["A.ts"; "b.js"; "README.md"; "ts"; ".ts"] =
  [true; true; false; false; true].
Proof. reflexivity. Qed.

Example dispatch_without_jobs_section :
  let run := dispatch world_no_jobs (new_Job PlainJob) payload_to initial in
  settled run = Abrupt (TypeError "Config.data.jobs is undefined") /\
  trace (state_after run) = [].
Proof. split; reflexivity. Qed.

Example dispatch_default_job :
  trace (state_after
           (dispatch world_emails (new_Job PlainJob) payload_to initial)) =
  [EvNewQueue 0%nat "default"
     {| qo_redis := redis_local;
        qo_defaultJobOptions :=
          {| d_removeOnComplete := None; d_attempts := 2%float |} |};
   EvAdd 0%nat {| job := "PlainJob"; payload := payload_to |}
     {| jo_delay := None; jo_attempts := Some 5%float |};
   EvClose 0%nat].
Proof. reflexivity. Qed.

Example consumer_example_job :
  dones (trace (consumer
                  {| job_id := 3;
                     data := {| job := "ExampleJob"; payload := JStr "x" |} |}
                  (register ExampleJob initial)).2) =
  [Some (Thrown (JStr "x"))].
Proof. reflexivity. Qed.

(** A job named like a member of [Object.prototype]: [Config.jobs[job]]
    is the built-in, [new Object().handle] is not a function, and the
    [TypeError] goes to [done]. *)
Example consumer_inherited_name :
  let run :=
    consumer {| job_id := 5;
                data := {| job := "constructor"; payload := JNull |} |}
      (register PlainJob initial) in
  run.1 = Normal tt /\
  instantiations (trace run.2) = ["Object"] /\
  handle_calls (trace run.2) = [] /\
  dones (trace run.2) = [Some (TypeError "handle is not a function")].
Proof. repeat split. Qed.

Example second_lookup_out_of_depth :
  option_map (fun r => proxy_get world_no_queues 50 "emails" r.2)
    (proxy_get world_no_queues 1 "emails" initial) = Some None.
Proof. vm_compute. reflexivity. Qed.

Example first_lookup_constructs :
  option_map (fun r => (r.1, constructions (trace r.2), attachments (trace r.2)))
    (proxy_get world_emails 2 "emails" initial) =
  Some (Normal (Own 0%nat),
        [(0%nat, "emails"); (1%nat, "default")], [0%nat; 1%nat]).
Proof. vm_compute. reflexivity. Qed.

(** ** Reading what an operation emitted *)

Lemma emitted_app (s s' : State) (evs : list Event) :
  trace s' = trace s ++ evs -> emitted s s' = evs.
Proof.
  intros E. unfold emitted. rewrite E. apply drop_app_length.
Qed.

Lemma emitted_emit (e : Event) (s : State) : emitted s (emit e s) = [e].
Proof. apply emitted_app. reflexivity. Qed.

Lemma trace_emit (e : Event) (s : State) : trace (emit e s) = trace s ++ [e].
Proof. reflexivity. Qed.

(** ** Job.ts *)

Section JobFacts.

Context (W : World).

Lemma configureQueue_configured (jobs : JobsConfig) (queueName : string)
    (s : State) :
  data_jobs (config W) = Some jobs ->
  configureQueue W queueName s =
  (Normal (next_handle s),
   emit (EvNewQueue (next_handle s) queueName (queue_options W jobs))
        (set_next_handle (S (next_handle s)) s)).
Proof. intros E. unfold configureQueue. rewrite E. reflexivity. Qed.

(** With a jobs section, [dispatch] emits exactly [dispatch_events]. *)
Lemma dispatch_trace (jobs : JobsConfig) (this : Job) (payload : Json)
    (s : State) :
  data_jobs (config W) = Some jobs ->
  trace (state_after (dispatch W this payload s)) =
  trace s ++ dispatch_events W jobs this payload (next_handle s).
Proof.
  intros E. unfold dispatch, dispatch_events.
  rewrite (configureQueue_configured jobs _ _ E).
  cbn [constructor set_queue].
  destruct (debug_enabled W);
    destruct (queue_add W _ _ _);
    cbn; rewrite <- ?app_assoc; reflexivity.
Qed.

Lemma dispatch_emitted (jobs : JobsConfig) (this : Job) (payload : Json)
    (s : State) :
  data_jobs (config W) = Some jobs ->
  emitted s (state_after (dispatch W this payload s)) =
  dispatch_events W jobs this payload (next_handle s).
Proof. intros E. apply emitted_app, dispatch_trace, E. Qed.

Lemma dispatch_events_adds (jobs : JobsConfig) (this : Job) (payload : Json)
    (h : Handle) :
  adds (dispatch_events W jobs this payload h) =
  [(h, {| job := class_name (constructor this); payload := payload |},
    getOptions this)].
Proof.
  unfold dispatch_events.
  destruct (debug_enabled W); destruct (queue_add W _ _ _); reflexivity.
Qed.

Lemma dispatch_events_constructions (jobs : JobsConfig) (this : Job)
    (payload : Json) (h : Handle) :
  constructions (dispatch_events W jobs this payload h) =
  [(h, queueName this)].
Proof.
  unfold dispatch_events.
  destruct (debug_enabled W); destruct (queue_add W _ _ _); reflexivity.
Qed.

Lemma dispatch_events_closes (jobs : JobsConfig) (this : Job)
    (payload : Json) (h : Handle) :
  closes (dispatch_events W jobs this payload h) =
  match queue_add W h
          {| job := class_name (constructor this); payload := payload |}
          (getOptions this) with
  | None => [h]
  | Some _ => []
  end.
Proof.
  unfold dispatch_events.
  destruct (debug_enabled W); cbn;
    destruct (queue_add W _ _ _); reflexivity.
Qed.

Lemma dispatch_settled (jobs : JobsConfig) (this : Job) (payload : Json)
    (s : State) :
  data_jobs (config W) = Some jobs ->
  settled (dispatch W this payload s) =
  match queue_add W (next_handle s)
          {| job := class_name (constructor this); payload := payload |}
          (getOptions this) with
  | None => Normal true
  | Some e => Abrupt e
  end.
Proof.
  intros E. unfold dispatch.
  rewrite (configureQueue_configured jobs _ _ E).
  cbn [constructor set_queue].
  change (getOptions _) with (getOptions this).
  destruct (queue_add W _ _ _); reflexivity.
Qed.

Lemma dispatch_this_after (jobs : JobsConfig) (this : Job) (payload : Json)
    (s : State) :
  data_jobs (config W) = Some jobs ->
  this_after (dispatch W this payload s) = set_queue this (next_handle s).
Proof.
  intros E. unfold dispatch.
  rewrite (configureQueue_configured jobs _ _ E).
  destruct (queue_add W _ _ _); reflexivity.
Qed.

Lemma register_lookup (C : JobClass) (s : State) :
  Config_jobs (register C s) !! class_name C = Some C.
Proof. unfold register. cbn. apply lookup_insert_eq. Qed.

End JobFacts.

(** X26: when the configuration has a jobs section, dispatching
    [{to: 'a@b.com'}] on a job instance whose [queueName] is ["emails"]
    performs exactly one [add], on the handle built for ["emails"], with
    the envelope made of the instance's class name and the payload; that
    class name is the key under which [Job.register] stores the class. *)
Theorem dispatch_builds_envelope (W : World) (jobs : JobsConfig)
    (this : Job) (s s0 : State) :
  data_jobs (config W) = Some jobs ->
  queueName this = "emails" ->
  let run := dispatch W this payload_to s in
  let envelope :=
    {| job := class_name (constructor this); payload := payload_to |} in
  exists h : Handle,
    constructions (emitted s (state_after run)) = [(h, "emails")] /\
    adds (emitted s (state_after run)) = [(h, envelope, getOptions this)] /\
    Config_jobs (register (constructor this) s0) !! job envelope =
    Some (constructor this).
Proof.
  intros Hjobs Hname run envelope. exists (next_handle s).
  subst run. rewrite (dispatch_emitted W jobs) by exact Hjobs.
  rewrite dispatch_events_adds, dispatch_events_constructions, Hname.
  repeat split. apply register_lookup.
Qed.

Lemma dispatch_builds_envelope_witness :
  let run := dispatch world_emails (new_Job SendEmailJob) payload_to initial in
  exists h : Handle,
    constructions (emitted initial (state_after run)) = [(h, "emails")] /\
    adds (emitted initial (state_after run)) =
    [(h, {| job := "SendEmailJob"; payload := payload_to |},
      getOptions (new_Job SendEmailJob))] /\
    Config_jobs (register SendEmailJob initial) !! "SendEmailJob" =
    Some SendEmailJob.
Proof.
  exact (dispatch_builds_envelope world_emails
           {| dir := "./jobs"; queues := Some ["emails"; "default"];
              options := None |}
           (new_Job SendEmailJob) initial initial eq_refl eq_refl).
Defined.

(** X27: when the configuration has a jobs section, the options
    [dispatch] submits come from the instance's fields: with
    [delayInSeconds = 5] and [attempts = 3] they are
    [{delay: 5000, attempts: 3}]; with [delayInSeconds = 0] they have no
    [delay] key at all. *)
Theorem dispatch_options_mapping (W : World) (jobs : JobsConfig)
    (this : Job) (payload : Json) (s : State) :
  data_jobs (config W) = Some jobs ->
  let submitted :=
    (adds (emitted s (state_after (dispatch W this payload s)))).*2 in
  (delayInSeconds this = 5%float -> attempts this = 3%float ->
   submitted = [{| jo_delay := Some 5000%float; jo_attempts := Some 3%float |}])
  /\
  (delayInSeconds this = 0%float ->
   exists o, submitted = [o] /\ jo_delay o = None).
Proof.
  intros Hjobs submitted. subst submitted.
  rewrite (dispatch_emitted W jobs) by exact Hjobs.
  rewrite dispatch_events_adds. cbn [fmap list_fmap snd].
  split.
  - intros Hd Ha. unfold getOptions. rewrite Hd, Ha. reflexivity.
  - intros Hd. eexists. split; [reflexivity|].
    unfold getOptions. rewrite Hd. reflexivity.
Qed.

Lemma dispatch_options_mapping_witness :
  (adds (emitted initial
           (state_after
              (dispatch world_emails (new_Job SendEmailJob) payload_to
                 initial)))).*2 =
  [{| jo_delay := Some 5000%float; jo_attempts := Some 3%float |}]
  /\
  exists o,
    (adds (emitted initial
             (state_after
                (dispatch world_emails (new_Job PlainJob) payload_to
                   initial)))).*2 = [o] /\
    jo_delay o = None.
Proof.
  split.
  - exact (proj1 (dispatch_options_mapping world_emails
             {| dir := "./jobs"; queues := Some ["emails"; "default"];
                options := None |}
             (new_Job SendEmailJob) payload_to initial eq_refl)
             eq_refl eq_refl).
  - exact (proj2 (dispatch_options_mapping world_emails
             {| dir := "./jobs"; queues := Some ["emails"; "default"];
                options := None |}
             (new_Job PlainJob) payload_to initial eq_refl)
             eq_refl).
Defined.

(** C1: dispatching [{to: 'a@b.com'}] on a job instance whose [queueName]
    is ["emails"] while the configuration has no jobs section performs no
    [add] at all: [configureQueue] reads [Config.data.jobs.options], the
    [TypeError] rejects [dispatch] before a queue is built.  The same call
    under a configuration with a jobs section performs the one [add] with
    the envelope [{job: 'SendEmailJob', payload}]. *)
Theorem dispatch_unconfigured_performs_no_add :
  let this := new_Job SendEmailJob in
  let unconfigured := dispatch world_no_jobs this payload_to initial in
  let configured := dispatch world_emails this payload_to initial in
  queueName this = "emails" /\
  data_jobs (config world_no_jobs) = None /\
  settled unconfigured = Abrupt (TypeError "Config.data.jobs is undefined") /\
  constructions (trace (state_after unconfigured)) = [] /\
  adds (trace (state_after unconfigured)) = [] /\
  adds (trace (state_after configured)) =
    [(0%nat, {| job := "SendEmailJob"; payload := payload_to |},
      getOptions this)].
Proof. repeat split. Qed.

(** C2: a job instance with [delayInSeconds = 5] and [attempts = 3],
    dispatched while the configuration has no jobs section, submits no
    options at all, since [dispatch] is rejected by the [TypeError] of
    [configureQueue] before [add] is reached.  Under a configuration with
    a jobs section the same call submits [{delay: 5000, attempts: 3}], and
    an instance with [delayInSeconds = 0] submits options without a
    [delay] key. *)
Theorem dispatch_unconfigured_submits_no_options :
  let this := new_Job SendEmailJob in
  let submitted (W : World) (this : Job) :=
    (adds (trace (state_after (dispatch W this payload_to initial)))).*2 in
  delayInSeconds this = 5%float /\ attempts this = 3%float /\
  data_jobs (config world_no_jobs) = None /\
  submitted world_no_jobs this = [] /\
  settled (dispatch world_no_jobs this payload_to initial) =
    Abrupt (TypeError "Config.data.jobs is undefined") /\
  submitted world_emails this =
    [{| jo_delay := Some 5000%float; jo_attempts := Some 3%float |}] /\
  delayInSeconds (new_Job PlainJob) = 0%float /\
  submitted world_emails (new_Job PlainJob) =
    [{| jo_delay := None; jo_attempts := Some 5%float |}].
Proof. repeat split. Qed.

(** The handle built for a dispatch, and what follows the submission:
    when the transport accepts it the handle is closed and dispatch
    resolves to [true]; when the transport rejects it, dispatch rejects
    with the transport's error and no close is performed. *)
Lemma dispatch_close_follows_add (W : World)
    (jobs : JobsConfig) (this : Job) (payload : Json) (s : State) :
  data_jobs (config W) = Some jobs ->
  let run := dispatch W this payload s in
  let h := next_handle s in
  let envelope :=
    {| job := class_name (constructor this); payload := payload |} in
  queue (this_after run) = Some h /\
  constructions (emitted s (state_after run)) = [(h, queueName this)] /\
  match queue_add W h envelope (getOptions this) with
  | None =>
      settled run = Normal true /\
      closes (emitted s (state_after run)) = [h]
  | Some e =>
      settled run = Abrupt e /\
      closes (emitted s (state_after run)) = []
  end.
Proof.
  intros Hjobs run h envelope. subst run h envelope.
  rewrite (dispatch_emitted W jobs) by exact Hjobs.
  rewrite (dispatch_this_after W jobs) by exact Hjobs.
  rewrite (dispatch_settled W jobs) by exact Hjobs.
  rewrite dispatch_events_constructions, dispatch_events_closes.
  split; [reflexivity|]. split; [reflexivity|].
  destruct (queue_add W _ _ _); split; reflexivity.
Qed.

Example dispatch_accepted_closes_handle :
  let run := dispatch world_emails (new_Job SendEmailJob) payload_to initial in
  settled run = Normal true /\
  closes (trace (state_after run)) = [0%nat].
Proof. split; reflexivity. Qed.

(** C8: dispatch resolves to [true] and closes its handle when the
    transport accepts the submission; but when the transport rejects it,
    the handle that was built for this call (handle [0], for ["emails"])
    is never closed: the rejection leaves [dispatch] before the [close]
    call is reached. *)
Theorem dispatch_rejected_leaves_handle_open :
  let accepted :=
    dispatch world_emails (new_Job SendEmailJob) payload_to initial in
  let rejected :=
    dispatch world_rejecting (new_Job SendEmailJob) payload_to initial in
  (settled accepted = Normal true /\
   closes (trace (state_after accepted)) = [0%nat]) /\
  queue (this_after rejected) = Some 0%nat /\
  constructions (trace (state_after rejected)) = [(0%nat, "emails")] /\
  (adds (trace (state_after rejected))).*1.*1 = [0%nat] /\
  settled rejected = Abrupt (Thrown (JStr "ECONNREFUSED")) /\
  closes (trace (state_after rejected)) = [].
Proof. vm_compute. repeat split. Qed.

(** C9: [dispatchNow(payload)] calls [handle(payload)] once, submits
    nothing and builds no queue, and settles exactly as [handle] does,
    whether [handle] gives [true], [false] or throws. *)
Theorem dispatchNow_returns_handle_result (W : World) (this : Job)
    (payload : Json) (s : State) :
  let run := dispatchNow W this payload s in
  run.1 = handle (constructor this) payload /\
  handle_calls (emitted s run.2) =
    [(class_name (constructor this), payload)] /\
  adds (emitted s run.2) = [] /\
  constructions (emitted s run.2) = [].
Proof.
  intros run. subst run. unfold dispatchNow, info.
  destruct (debug_enabled W); cbn [fst snd].
  - rewrite (emitted_app s _
      [EvLog Info (MsgDispatchingSync (class_name (constructor this))) false;
       EvHandle (class_name (constructor this)) payload]).
    + repeat split.
    + cbn. rewrite <- app_assoc. reflexivity.
  - rewrite emitted_emit. repeat split.
Qed.

(** ** The worker loop *)


Lemma get_property_undefined {A : Type} (object : gmap string A)
    (prop : string) :
  object !! prop = None -> Object_prototype prop = None ->
  get_property object prop = Undefined.
Proof. intros E1 E2. unfold get_property. rewrite E1, E2. reflexivity. Qed.

Lemma message_of_nullish (error : Error) :
  nullish error = true -> exists what, message_of error = Abrupt (TypeError what).
Proof. intros E. unfold message_of. rewrite E. eauto. Qed.

Lemma message_of_defined (error : Error) :
  nullish error = false -> message_of error = Normal error.
Proof. intros E. unfold message_of. rewrite E. reflexivity. Qed.

Lemma consumer_catch_trace (job : string) (error : Error) (s : State) :
  trace (consumer_catch job error s).2 = trace s ++ catch_events job error.
Proof.
  unfold consumer_catch, catch_events, message_of.
  destruct (nullish error); cbn.
  - rewrite app_nil_r. reflexivity.
  - rewrite <- app_assoc. reflexivity.
Qed.


Lemma consumer_trace_not_found (jobObject : JobObject) (s : State) :
  Config_jobs s !! job (data jobObject) = None ->
  Object_prototype (job (data jobObject)) = None ->
  consumer jobObject s =
  (Normal tt,
   emit (EvLog Err (MsgNoHandler (job (data jobObject))) true)
     (emit (EvLog Debug (MsgPayload (payload (data jobObject))) true)
        (emit (EvLog Info
                 (MsgProcessing (job_id jobObject) (job (data jobObject)))
                 false) s))).
Proof.
  intros Hnone Hplain. unfold consumer. cbn [Config_jobs emit].
  rewrite (get_property_undefined _ _ Hnone Hplain). reflexivity.
Qed.



(** C6: the example job of the repository throws its payload.  Delivered
    with the payload ["boom"], the worker loop logs the error and calls
    [done(error)] with it, and a handler that resolves (to [false], here)
    gets [done()].  Delivered without a payload, the handler throws
    [undefined]: the [catch] block fails on [error.message] before it logs
    or calls [done], so the failure is never signalled to the transport
    and the consumer itself rejects with a [TypeError]. *)
Theorem consumer_undefined_error_never_calls_done :
  let message (job : string) (payload : Json) :=
    {| job_id := 2; data := {| job := job; payload := payload |} |} in
  let s := register PlainJob (register ExampleJob initial) in
  let resolved := consumer (message "PlainJob" JNull) s in
  let thrown := consumer (message "ExampleJob" (JStr "boom")) s in
  let lost := consumer (message "ExampleJob" JUndefined) s in
  (handle PlainJob JNull = Normal false /\
   dones (emitted s resolved.2) = [None]) /\
  (handle ExampleJob (JStr "boom") = Abrupt (Thrown (JStr "boom")) /\
   dones (emitted s thrown.2) = [Some (Thrown (JStr "boom"))]) /\
  handle ExampleJob JUndefined = Abrupt (Thrown JUndefined) /\
  handle_calls (emitted s lost.2) = [("ExampleJob", JUndefined)] /\
  logged Err (emitted s lost.2) = [] /\
  dones (emitted s lost.2) = [] /\
  lost.1 =
    Abrupt (TypeError "Cannot read properties of undefined (reading 'message')").
Proof. vm_compute. repeat split. Qed.

(** An envelope naming a class that is neither registered nor a member
    of [Object.prototype]: the error is logged, no class is instantiated,
    no handler runs, and [done] is not called. *)
Lemma consumer_unknown_job (jobObject : JobObject) (s : State) :
  Config_jobs s !! job (data jobObject) = None ->
  Object_prototype (job (data jobObject)) = None ->
  let evs := emitted s (consumer jobObject s).2 in
  (consumer jobObject s).1 = Normal tt /\
  logged Err evs = [MsgNoHandler (job (data jobObject))] /\
  instantiations evs = [] /\
  handle_calls evs = [] /\
  dones evs = [].
Proof.
  intros Hnone Hplain evs. subst evs.
  rewrite (consumer_trace_not_found jobObject s Hnone Hplain). cbn [fst snd].
  erewrite emitted_app; [|cbn; rewrite <- !app_assoc; reflexivity].
  repeat split.
Qed.

(** C7: delivering [{job: 'Nonexistent', payload: {}}] while the class is
    not registered logs the error naming it, instantiates nothing and
    calls no handler; but the consumer returns without ever calling the
    transport's [done] callback, so no completion is signalled. *)
Theorem consumer_unknown_job_never_calls_done :
  let message :=
    {| job_id := 7;
       data := {| job := "Nonexistent"; payload := JObj [] |} |} in
  let s := register SendEmailJob initial in
  let evs := emitted s (consumer message s).2 in
  Config_jobs s !! "Nonexistent" = None /\
  (consumer message s).1 = Normal tt /\
  logged Err evs = [MsgNoHandler "Nonexistent"] /\
  instantiations evs = [] /\
  handle_calls evs = [] /\
  dones evs = [].
Proof.
  intros message s evs. split.
  - reflexivity.
  - exact (consumer_unknown_job message s eq_refl eq_refl).
Qed.

(** ** index.ts: discovery *)

Section IndexFacts.

Context (W : World).

Lemma frame_refl (s : State) : frame s s [].
Proof. unfold frame. rewrite app_nil_r. auto. Qed.

Lemma frame_emit (e : Event) (s : State) : frame s (emit e s) [e].
Proof. unfold frame. auto. Qed.

Lemma frame_trans (s1 s2 s3 : State) (evs1 evs2 : list Event) :
  frame s1 s2 evs1 -> frame s2 s3 evs2 -> frame s1 s3 (evs1 ++ evs2).
Proof.
  intros (T1 & Q1 & I1 & N1) (T2 & Q2 & I2 & N2). unfold frame.
  rewrite T2, T1, Q2, Q1, I2, I1, N2, N1, app_assoc. auto.
Qed.

Lemma frame_register (C : JobClass) (s : State) : frame s (register C s) [].
Proof. unfold frame, register. cbn. rewrite app_nil_r. auto. Qed.

Lemma frame_registers (classes : list JobClass) (s : State) :
  frame s (foldl (fun s C => register C s) s classes) [].
Proof.
  revert s. induction classes as [|C classes IH]; intros s; cbn.
  - apply frame_refl.
  - change (@nil Event) with (@nil Event ++ []).
    eapply frame_trans; [apply frame_register | apply IH].
Qed.

Lemma housekeeping_projections (evs : list Event) :
  forallb housekeeping evs = true ->
  discoveries evs = [] /\ constructions evs = [] /\ attachments evs = [].
Proof.
  induction evs as [|e evs IH]; cbn; [auto|].
  intros [He Hevs]%andb_prop. destruct (IH Hevs) as (D & C & A).
  destruct e; try discriminate; cbn; auto.
Qed.

Lemma require_frame (path : string) (s : State) :
  frame s (require W path s).2 [EvRequire path].
Proof.
  unfold require. case_bool_decide; cbn [snd].
  - apply frame_emit.
  - assert (F : frame s
                  (foldl (fun s C => register C s) (emit (EvRequire path) s)
                     (registers (module_top_level W path)))
                  [EvRequire path]).
    { change [EvRequire path] with ([EvRequire path] ++ []).
      eapply frame_trans; [apply frame_emit | apply frame_registers]. }
    destruct (throws (module_top_level W path)); cbn [snd]; [exact F|].
    destruct F as (Ht & Hq & Hi & Hn). unfold frame. cbn. auto.
Qed.

Lemma require_all_frame (jobsPath : string) (files : list string) (s : State) :
  exists evs,
    frame s (require_all W jobsPath files s).2 evs /\
    forallb housekeeping evs = true.
Proof.
  revert s. induction files as [|file files IH]; intros s; cbn [require_all].
  - exists []. split; [apply frame_refl | reflexivity].
  - pose proof (require_frame (join W jobsPath file) s) as F.
    destruct (require W (join W jobsPath file) s) as [[[]|e] s1];
      cbn [snd] in *.
    + destruct (IH s1) as (evs & F' & H).
      exists ([EvRequire (join W jobsPath file)] ++ evs). split.
      * eapply frame_trans; eassumption.
      * exact H.
    + exists [EvRequire (join W jobsPath file)]. split; [exact F | reflexivity].
Qed.

(** The [try] block lists the directory once and builds nothing. *)
Lemma load_listed_frame (path : string) (s : State) :
  exists evs,
    frame s (load_listed W path s).2 ([EvReadDir path] ++ evs) /\
    forallb housekeeping evs = true.
Proof.
  unfold load_listed.
  destruct (readdirSync W path) as [files|code]; cbn [snd].
  - destruct (require_all_frame path (List.filter is_script files)
                (emit (EvReadDir path) s)) as (evs & F & H).
    destruct (require_all W path (List.filter is_script files) _)
      as [[[]|error] s2]; cbn [snd] in *.
    + exists (evs ++ [EvLog Info (MsgJobs (dom (Config_jobs s2))) false]).
      split.
      * eapply frame_trans; [apply frame_emit|].
        eapply frame_trans; [exact F | apply frame_emit].
      * rewrite forallb_app, H. reflexivity.
    + exists evs. split; [|exact H].
      eapply frame_trans; [apply frame_emit | exact F].
  - exists []. split; [|reflexivity]. apply frame_emit.
Qed.

(** [loadJobs] lists the directory once when a jobs section exists, and
    leaves the queue cache, the flag and the counter alone. *)
Lemma loadJobs_frame (s : State) :
  exists evs,
    frame s (loadJobs W s).2 (load_prefix W ++ evs) /\
    forallb housekeeping evs = true.
Proof.
  unfold loadJobs, load_prefix.
  destruct (data_jobs (config W)) as [jobs|]; cbn [snd].
  - destruct (load_listed_frame (jobsPath W jobs)
                (emit (EvLog Info MsgLoadingJobs false) s)) as (evs & F & H).
    assert (F1 : frame s (load_listed W (jobsPath W jobs)
                            (emit (EvLog Info MsgLoadingJobs false) s)).2
                   ([EvLog Info MsgLoadingJobs false;
                     EvReadDir (jobsPath W jobs)] ++ evs)).
    { change ([EvLog Info MsgLoadingJobs false; EvReadDir (jobsPath W jobs)]
              ++ evs)
        with ([EvLog Info MsgLoadingJobs false] ++
              [EvReadDir (jobsPath W jobs)] ++ evs).
      eapply frame_trans; [apply frame_emit | exact F]. }
    destruct (load_listed W (jobsPath W jobs) _) as [[[]|error] s2];
      cbn [snd] in *.
    + exists evs. split; [exact F1 | exact H].
    + unfold message_of. destruct (nullish error); cbn [snd].
      * exists evs. split; [exact F1 | exact H].
      * exists (evs ++ [EvLog Err (MsgErrorLoadingJobs error) true]). split.
        -- rewrite app_assoc. eapply frame_trans; [exact F1 | apply frame_emit].
        -- rewrite forallb_app, H. reflexivity.
  - exists []. split; [apply frame_refl | reflexivity].
Qed.

(** *** Running discovery again *)

Lemma registers_require_cache (classes : list JobClass) (s : State) :
  require_cache (foldl (fun s C => register C s) s classes) = require_cache s.
Proof.
  revert s. induction classes as [|C classes IH]; intros s; cbn.
  - reflexivity.
  - rewrite IH. reflexivity.
Qed.

Lemma require_cache_grows (path : string) (s : State) :
  require_cache s ⊆ require_cache (require W path s).2.
Proof.
  unfold require. case_bool_decide; cbn [snd]; [reflexivity|].
  destruct (throws (module_top_level W path)); cbn [snd require_cache
    set_require_cache]; rewrite registers_require_cache; cbn.
  - reflexivity.
  - apply union_subseteq_r.
Qed.

Lemma require_all_cache_grows (jobsPath : string) (files : list string)
    (s : State) :
  require_cache s ⊆ require_cache (require_all W jobsPath files s).2.
Proof.
  revert s. induction files as [|file files IH]; intros s; cbn [require_all].
  - reflexivity.
  - pose proof (require_cache_grows (join W jobsPath file) s) as G.
    destruct (require W (join W jobsPath file) s) as [[[]|e] s1];
      cbn [snd] in *.
    + etrans; [exact G | apply IH].
    + exact G.
Qed.

(** Run over the same list again, from a state whose module cache is the
    one the first run left, [require_all] completes the way it did: the
    files that loaded are skipped, and the file that threw, if any, is run
    again and throws again. *)
Lemma require_all_again (jobsPath : string) (files : list string)
    (s s2 : State) :
  require_cache s2 = require_cache (require_all W jobsPath files s).2 ->
  (require_all W jobsPath files s2).1 = (require_all W jobsPath files s).1 /\
  require_cache (require_all W jobsPath files s2).2 = require_cache s2.
Proof.
  revert s s2. induction files as [|f files IH]; intros s s2 Hcache.
  - cbn. auto.
  - cbn [require_all] in *.
    set (p := join W jobsPath f) in *.
    unfold require in Hcache |- *.
    cbn [require_cache emit] in Hcache |- *.
    destruct (bool_decide (p ∈ require_cache s)) eqn:Hc.
    + (* cached before the first run *)
      apply bool_decide_eq_true_1 in Hc.
      assert (Hin2 : p ∈ require_cache s2).
      { rewrite Hcache.
        apply (require_all_cache_grows jobsPath files (emit (EvRequire p) s)).
        exact Hc. }
      rewrite (bool_decide_eq_true_2 _ Hin2).
      apply (IH (emit (EvRequire p) s) (emit (EvRequire p) s2)). exact Hcache.
    + apply bool_decide_eq_false_1 in Hc.
      destruct (throws (module_top_level W p)) as [e|] eqn:Hm.
      * (* threw in the first run: not cached, it runs and throws again *)
        cbn [snd require_cache] in Hcache.
        rewrite registers_require_cache in Hcache. cbn in Hcache.
        assert (Hout : p ∉ require_cache s2) by (rewrite Hcache; exact Hc).
        rewrite (bool_decide_eq_false_2 _ Hout). cbn [fst snd].
        rewrite registers_require_cache. auto.
      * (* loaded by the first run *)
        match type of Hcache with
        | _ = require_cache (require_all W jobsPath files ?t).2 =>
            pose proof (require_all_cache_grows jobsPath files t) as Hsub;
            assert (Hin2 : p ∈ require_cache s2);
            [rewrite Hcache; apply Hsub; cbn;
             apply elem_of_union; left; apply elem_of_singleton; reflexivity|];
            rewrite (bool_decide_eq_true_2 _ Hin2);
            apply (IH t (emit (EvRequire p) s2)); exact Hcache
        end.
Qed.

Lemma load_listed_cache (path : string) (s : State) :
  require_cache (load_listed W path s).2 =
  match readdirSync W path with
  | Files files =>
      require_cache
        (require_all W path (List.filter is_script files)
           (emit (EvReadDir path) s)).2
  | Fails _ => require_cache s
  end.
Proof.
  unfold load_listed. destruct (readdirSync W path) as [files|code];
    [|reflexivity].
  destruct (require_all W path (List.filter is_script files) _)
    as [[[]|error] s2]; reflexivity.
Qed.

Lemma load_listed_again (path : string) (s s2 : State) :
  require_cache s2 = require_cache (load_listed W path s).2 ->
  (load_listed W path s2).1 = (load_listed W path s).1 /\
  require_cache (load_listed W path s2).2 = require_cache s2.
Proof.
  rewrite (load_listed_cache path s), (load_listed_cache path s2).
  unfold load_listed.
  destruct (readdirSync W path) as [files|code]; [|auto].
  intros Hcache.
  destruct (require_all_again path (List.filter is_script files)
              (emit (EvReadDir path) s) (emit (EvReadDir path) s2) Hcache)
    as [H1 H2].
  split; [|exact H2].
  destruct (require_all W path (List.filter is_script files)
              (emit (EvReadDir path) s2)) as [[[]|e2] t2];
    destruct (require_all W path (List.filter is_script files)
                (emit (EvReadDir path) s)) as [[[]|e1] t1];
    cbn [fst] in *; congruence.
Qed.

Lemma loadJobs_cache (s : State) :
  require_cache (loadJobs W s).2 =
  match data_jobs (config W) with
  | Some jobs =>
      require_cache
        (load_listed W (jobsPath W jobs)
           (emit (EvLog Info MsgLoadingJobs false) s)).2
  | None => require_cache s
  end.
Proof.
  unfold loadJobs. destruct (data_jobs (config W)) as [jobs|]; [|reflexivity].
  destruct (load_listed W (jobsPath W jobs) _) as [[[]|error] s2];
    [reflexivity|].
  destruct (message_of error); reflexivity.
Qed.

(** [loadJobs] run again, from a state whose module cache is the one a
    first run left, comes back or throws the way the first run did and
    leaves the module cache as it is. *)
Lemma loadJobs_again (s s2 : State) :
  require_cache s2 = require_cache (loadJobs W s).2 ->
  (loadJobs W s2).1 = (loadJobs W s).1 /\
  require_cache (loadJobs W s2).2 = require_cache s2.
Proof.
  rewrite (loadJobs_cache s), (loadJobs_cache s2).
  unfold loadJobs.
  destruct (data_jobs (config W)) as [jobs|]; [|auto].
  intros Hcache.
  destruct (load_listed_again (jobsPath W jobs)
              (emit (EvLog Info MsgLoadingJobs false) s)
              (emit (EvLog Info MsgLoadingJobs false) s2) Hcache) as [H1 H2].
  split; [|exact H2].
  destruct (load_listed W (jobsPath W jobs)
              (emit (EvLog Info MsgLoadingJobs false) s2)) as [[[]|e2] t2];
    destruct (load_listed W (jobsPath W jobs)
                (emit (EvLog Info MsgLoadingJobs false) s)) as [[[]|e1] t1];
    cbn [fst] in *; try discriminate; [reflexivity|].
  injection H1 as ->. destruct (message_of e1); reflexivity.
Qed.

(** An error that leaves [require_all] was thrown by the top level of a
    job file. *)
Lemma require_all_throws (jobsPath : string) (files : list string)
    (s : State) (e : Error) :
  (require_all W jobsPath files s).1 = Abrupt e ->
  exists path, throws (module_top_level W path) = Some e.
Proof.
  revert s. induction files as [|f files IH]; intros s; cbn [require_all].
  - discriminate.
  - destruct (require W (join W jobsPath f) s) as [[[]|e'] s1] eqn:Hreq;
      cbn [fst].
    + apply IH.
    + intros [= ->]. unfold require in Hreq. cbn [require_cache emit] in Hreq.
      case_bool_decide; [discriminate Hreq|].
      destruct (throws (module_top_level W (join W jobsPath f))) eqn:Hm;
        [|discriminate Hreq].
      injection Hreq as -> _. eauto.
Qed.

(** [loadJobs] comes back in every state when no job file throws [null]
    or [undefined]. *)
Lemma loads_unless_nullish (s : State) :
  (forall path e, throws (module_top_level W path) = Some e ->
                  nullish e = false) ->
  loads W s.
Proof.
  intros Hsafe. unfold loads, loadJobs.
  destruct (data_jobs (config W)) as [jobs|]; [|reflexivity].
  unfold load_listed.
  destruct (readdirSync W (jobsPath W jobs)) as [files|code]; [|reflexivity].
  match goal with
  | |- context [require_all W ?d ?l ?s0] =>
      pose proof (require_all_throws d l s0) as Hthrown;
      destruct (require_all W d l s0) as [[[]|error] s2]
  end; cbn [fst] in *; [reflexivity|].
  destruct (Hthrown error eq_refl) as (path & Hpath).
  unfold message_of. rewrite (Hsafe path error Hpath). reflexivity.
Qed.

Lemma loads_again (s s2 : State) :
  loads W s ->
  require_cache s2 = require_cache (loadJobs W s).2 ->
  loads W s2.
Proof.
  unfold loads. intros Hl Hcache.
  destruct (loadJobs_again s s2 Hcache) as [H _]. congruence.
Qed.

(** ** index.ts: the proxy and initialisation *)

Lemma Object_values_empty (m : gmap string Handle) :
  (length (Object_values m) =? 0)%nat = true <-> m = ∅.
Proof.
  unfold Object_values. rewrite length_fmap, Nat.eqb_eq.
  rewrite length_zero_iff_nil. apply map_to_list_empty_iff.
Qed.

Lemma Object_values_nonempty (m : gmap string Handle) :
  m <> ∅ -> (length (Object_values m) =? 0)%nat = false.
Proof.
  intros Hne. apply not_true_is_false. rewrite Object_values_empty. exact Hne.
Qed.

Lemma proxy_get_S (depth : nat) (prop : string) (s : State) :
  proxy_get W (S depth) prop s =
  if (length (Object_values (queueMap s)) =? 0)%nat then
    bindR (initQueues_with W (proxy_get W depth) s)
      (fun target s =>
         match target with
         | EmptyObject => Some (Normal (get_property ∅ prop), s)
         | QueuesProxy => proxy_get W depth prop s
         end)
  else Some (Normal (get_property (queueMap s) prop), s).
Proof. reflexivity. Qed.

(** Once the cache holds a handle, an access is a plain read. *)
Lemma proxy_get_cached (depth : nat) (prop : string) (s : State) :
  queueMap s <> ∅ ->
  proxy_get W (S depth) prop s =
  Some (Normal (get_property (queueMap s) prop), s).
Proof.
  intros Hne. rewrite proxy_get_S, Object_values_nonempty by exact Hne.
  reflexivity.
Qed.

(** [initQueues()] when its [loadJobs()] call comes back, and when it
    throws. *)
Lemma initQueues_with_loaded
    (get : string -> State -> Run (Property Handle)) (s : State) :
  loads W s ->
  initQueues_with W get s = init_queues_loaded W get (loadJobs W s).2.
Proof.
  unfold loads, initQueues_with.
  destruct (loadJobs W s) as [[[]|e] s1]; cbn; [reflexivity | discriminate].
Qed.

Lemma initQueues_with_throws
    (get : string -> State -> Run (Property Handle)) (s : State) (e : Error) :
  (loadJobs W s).1 = Abrupt e ->
  initQueues_with W get s = Some (Abrupt e, (loadJobs W s).2).
Proof.
  unfold initQueues_with.
  destruct (loadJobs W s) as [[[]|e'] s1]; cbn; [discriminate|].
  intros [= ->]. reflexivity.
Qed.

Lemma loads_or_throws (s : State) :
  loads W s \/ exists e, (loadJobs W s).1 = Abrupt e.
Proof.
  unfold loads. destruct (loadJobs W s).1 as [[]|e]; eauto.
Qed.

Lemma loop_map_nonempty (h : Handle) (names : list string)
    (m : gmap string Handle) :
  m <> ∅ -> loop_map h names m <> ∅.
Proof.
  revert h m. induction names as [|n names IH]; intros h m Hne; cbn.
  - exact Hne.
  - apply IH, insert_non_empty.
Qed.

Lemma loop_map_cons_nonempty (h : Handle) (n : string) (names : list string)
    (m : gmap string Handle) :
  loop_map h (n :: names) m <> ∅.
Proof. cbn. apply loop_map_nonempty, insert_non_empty. Qed.

(** The loop of [initQueues], run with a trap that may still recurse
    once: it never has to, because each queue is read back right after it
    was stored. *)
Lemma init_loop_runs (depth : nat) (jobs : JobsConfig) (names : list string)
    (s : State) :
  exists s',
    init_loop W (proxy_get W (S depth)) jobs names s = Some (Normal tt, s') /\
    trace s' = trace s ++ loop_events W jobs (next_handle s) names /\
    queueMap s' = loop_map (next_handle s) names (queueMap s) /\
    isInitialized s' = isInitialized s /\
    next_handle s' = (next_handle s + length names)%nat.
Proof.
  revert s. induction names as [|n names IH]; intros s.
  - exists s. cbn. rewrite app_nil_r, Nat.add_0_r. auto.
  - cbn [init_loop new_Queue].
    set (s2 := proxy_set n (next_handle s) _).
    assert (Hget : proxy_get W (S depth) n s2 =
                   Some (Normal (Own (next_handle s)), s2)).
    { rewrite proxy_get_cached.
      - subst s2. cbn. unfold get_property. rewrite lookup_insert_eq.
        reflexivity.
      - subst s2. cbn. apply insert_non_empty. }
    rewrite Hget. cbn [bindR].
    destruct (IH (emit (EvProcess (next_handle s) 1) s2))
      as (s' & Hrun & Ht & Hq & Hi & Hn).
    exists s'. split; [exact Hrun|].
    rewrite Ht, Hq, Hi, Hn. subst s2. cbn.
    rewrite <- !app_assoc. cbn. repeat split. lia.
Qed.

Lemma loop_events_projections (jobs : JobsConfig) (h : Handle)
    (names : list string) :
  discoveries (loop_events W jobs h names) = [] /\
  (constructions (loop_events W jobs h names)).*2 = names /\
  (constructions (loop_events W jobs h names)).*1 = seq h (length names) /\
  attachments (loop_events W jobs h names) = seq h (length names).
Proof.
  revert h. induction names as [|n names IH]; intros h.
  - cbn. auto.
  - destruct (IH (S h)) as (D & C2 & C1 & A).
    unfold discoveries, constructions, attachments in *. cbn.
    rewrite D, C2, C1, A. auto.
Qed.

(** [initQueues()] with a non-empty queue list and a [loadJobs] that comes
    back: one discovery run, then one queue and one consumer per
    configured name. *)
Lemma initQueues_with_populates (depth : nat) (jobs : JobsConfig)
    (names : list string) (s : State) :
  data_jobs (config W) = Some jobs ->
  queues jobs = Some names ->
  names <> [] ->
  loads W s ->
  exists s' pre post,
    initQueues_with W (proxy_get W (S depth)) s =
      Some (Normal QueuesProxy, s') /\
    trace s' =
      trace s ++ pre ++ loop_events W jobs (next_handle s) names ++ post /\
    discoveries pre = [jobsPath W jobs] /\ constructions pre = [] /\
    attachments pre = [] /\
    forallb housekeeping post = true /\
    queueMap s' = loop_map (next_handle s) names (queueMap s) /\
    isInitialized s' = true /\
    next_handle s' = (next_handle s + length names)%nat.
Proof.
  intros Hjobs Hqueues Hne Hloads.
  destruct (loadJobs_frame s) as (evs & (Ht & Hq & Hi & Hn) & Hk).
  destruct (housekeeping_projections evs Hk) as (D & C & A).
  assert (Hnq : no_queues_configured W = false).
  { unfold no_queues_configured. rewrite Hjobs. cbn. rewrite Hqueues.
    destruct names; [contradiction | reflexivity]. }
  assert (Hpre : load_prefix W =
                 [EvLog Info MsgLoadingJobs false; EvReadDir (jobsPath W jobs)]).
  { unfold load_prefix. rewrite Hjobs. reflexivity. }
  rewrite (initQueues_with_loaded _ s Hloads).
  unfold init_queues_loaded, init_queues_tail.
  rewrite Hnq, Hjobs, Hqueues.
  destruct (isInitialized (loadJobs W s).2) eqn:Hinit; cbn [negb].
  - match goal with
    | |- context [init_loop W _ jobs names ?s0] =>
        destruct (init_loop_runs depth jobs names s0)
          as (s' & Hrun & Ht' & Hq' & Hi' & Hn')
    end.
    rewrite Hrun. cbn [bindR].
    eexists _, (load_prefix W ++ evs ++ [_]), [_].
    split; [reflexivity|].
    cbn in Ht', Hq', Hi', Hn' |- *.
    rewrite Ht', Hq', Hi', Hn', Ht, Hq, Hn, Hinit, Hpre.
    unfold discoveries, constructions, attachments in *.
    rewrite !omap_app, ?D, ?C, ?A. cbn.
    rewrite <- !app_assoc. cbn. repeat split.
  - match goal with
    | |- context [init_loop W _ jobs names ?s0] =>
        destruct (init_loop_runs depth jobs names s0)
          as (s' & Hrun & Ht' & Hq' & Hi' & Hn')
    end.
    rewrite Hrun. cbn [bindR].
    eexists _, (load_prefix W ++ evs ++ [_; _; _]), [_].
    split; [reflexivity|].
    cbn in Ht', Hq', Hi', Hn' |- *.
    rewrite Ht', Hq', Hi', Hn', Ht, Hq, Hn, Hpre.
    unfold discoveries, constructions, attachments in *.
    rewrite !omap_app, ?D, ?C, ?A. cbn.
    rewrite <- !app_assoc. cbn. repeat split.
Qed.

Lemma lookups_cached (depth : nat) (props : list string) (s : State) :
  queueMap s <> ∅ ->
  lookups W (S depth) props s =
  Some (Normal (get_property (queueMap s) <$> props), s).
Proof.
  intros Hne. induction props as [|p props IH].
  - reflexivity.
  - cbn [lookups]. rewrite proxy_get_cached by exact Hne. cbn [bindR].
    rewrite IH. reflexivity.
Qed.

(** What [initQueues] leaves of the state after its [loadJobs] call when
    no queue is configured. *)
Lemma init_queues_loaded_no_queues
    (get : string -> State -> Run (Property Handle)) (s : State) :
  no_queues_configured W = true ->
  exists s',
    init_queues_loaded W get s =
      Some (Normal (if isInitialized s then QueuesProxy else EmptyObject),
            s') /\
    queueMap s' = queueMap s /\
    isInitialized s' = true /\
    next_handle s' = next_handle s /\
    require_cache s' = require_cache s /\
    (isInitialized s = false ->
     trace s' = trace s ++ [EvLog Info MsgInitializing false;
                            EvLog Warn MsgNoQueuesConfigured true]).
Proof.
  intros Hnq. unfold init_queues_loaded, init_queues_tail. rewrite Hnq.
  destruct (isInitialized s) eqn:Hinit; cbn [negb].
  - unfold no_queues_configured in Hnq.
    destruct (data_jobs (config W)) as [jobs|]; cbn in Hnq.
    + destruct (queues jobs) as [[|n names]|]; try discriminate Hnq;
        cbn [init_loop bindR]; eexists; (split; [reflexivity|]);
        cbn; rewrite Hinit; repeat split; discriminate.
    + cbn [bindR]. eexists. split; [reflexivity|]. cbn. rewrite Hinit.
      repeat split; discriminate.
  - eexists. split; [reflexivity|]. cbn. rewrite <- !app_assoc.
    repeat split.
Qed.

(** With no queue configured, the first [initQueues] warns, sets the flag
    and returns a fresh empty object. *)
Lemma initQueues_with_no_queues_first
    (get : string -> State -> Run (Property Handle)) (s : State) :
  no_queues_configured W = true ->
  isInitialized s = false ->
  loads W s ->
  exists s',
    initQueues_with W get s = Some (Normal EmptyObject, s') /\
    queueMap s' = queueMap s /\
    isInitialized s' = true /\
    next_handle s' = next_handle s /\
    require_cache s' = require_cache (loadJobs W s).2 /\
    trace s' =
      trace (loadJobs W s).2 ++
      [EvLog Info MsgInitializing false;
       EvLog Warn MsgNoQueuesConfigured true].
Proof.
  intros Hnq Hinit Hloads.
  destruct (loadJobs_frame s) as (evs & (Ht & Hq & Hi & Hn) & Hk).
  rewrite (initQueues_with_loaded _ s Hloads).
  destruct (init_queues_loaded_no_queues get (loadJobs W s).2 Hnq)
    as (s' & Hrun & Hq' & Hi' & Hn' & Hc' & Ht').
  rewrite Hi, Hinit in Hrun, Ht'.
  exists s'. rewrite Hrun, Hq', Hn', Hc', Hq, Hn, (Ht' eq_refl).
  repeat split; auto.
Qed.

(** With no queue configured and the flag set, [initQueues] builds
    nothing and returns the proxy itself. *)
Lemma initQueues_with_no_queues_again
    (get : string -> State -> Run (Property Handle)) (s : State) :
  no_queues_configured W = true ->
  isInitialized s = true ->
  loads W s ->
  exists s',
    initQueues_with W get s = Some (Normal QueuesProxy, s') /\
    queueMap s' = queueMap s /\
    isInitialized s' = true /\
    require_cache s' = require_cache (loadJobs W s).2.
Proof.
  intros Hnq Hinit Hloads.
  destruct (loadJobs_frame s) as (evs & (Ht & Hq & Hi & Hn) & Hk).
  rewrite (initQueues_with_loaded _ s Hloads).
  destruct (init_queues_loaded_no_queues get (loadJobs W s).2 Hnq)
    as (s' & Hrun & Hq' & Hi' & Hn' & Hc' & Ht').
  rewrite Hi, Hinit in Hrun.
  exists s'. rewrite Hrun, Hq', Hc', Hq. repeat split; auto.
Qed.

(** In that situation an access to [queues] re-enters [initQueues] at
    every depth: no recursion depth suffices for it to return. *)
Lemma proxy_get_never_returns (depth : nat) (prop : string) (s : State) :
  no_queues_configured W = true ->
  isInitialized s = true ->
  queueMap s = ∅ ->
  loads W s ->
  proxy_get W depth prop s = None.
Proof.
  intros Hnq. revert s.
  induction depth as [|depth IH]; intros s Hinit Hempty Hloads.
  - reflexivity.
  - rewrite proxy_get_S.
    rewrite (proj2 (Object_values_empty (queueMap s)) Hempty).
    destruct (initQueues_with_no_queues_again (proxy_get W depth) s
                Hnq Hinit Hloads) as (s' & Hrun & Hq & Hi & Hc).
    rewrite Hrun. cbn [bindR]. apply IH; [exact Hi | |].
    + rewrite Hq. exact Hempty.
    + exact (loads_again s s' Hloads Hc).
Qed.

(** The first access in that situation returns [undefined]. *)
Lemma proxy_get_no_queues_first (depth : nat) (prop : string) (s : State) :
  no_queues_configured W = true ->
  isInitialized s = false ->
  queueMap s = ∅ ->
  loads W s ->
  exists s',
    proxy_get W (S depth) prop s = Some (Normal (get_property ∅ prop), s') /\
    queueMap s' = ∅ /\
    isInitialized s' = true /\
    loads W s' /\
    trace s' =
      trace (loadJobs W s).2 ++
      [EvLog Info MsgInitializing false;
       EvLog Warn MsgNoQueuesConfigured true].
Proof.
  intros Hnq Hinit Hempty Hloads. rewrite proxy_get_S.
  rewrite (proj2 (Object_values_empty (queueMap s)) Hempty).
  destruct (initQueues_with_no_queues_first (proxy_get W depth) s
              Hnq Hinit Hloads) as (s' & Hrun & Hq & Hi & Hn & Hc & Ht).
  rewrite Hrun. cbn [bindR]. exists s'. rewrite Hq.
  repeat split; try assumption. exact (loads_again s s' Hloads Hc).
Qed.

(** An access that finds the cache empty while [loadJobs] throws: the
    [TypeError] leaves the trap, the flag and the cache are as before,
    and nothing was built. *)
Lemma proxy_get_throws (depth : nat) (prop : string) (s : State) (e : Error) :
  queueMap s = ∅ ->
  (loadJobs W s).1 = Abrupt e ->
  proxy_get W (S depth) prop s = Some (Abrupt e, (loadJobs W s).2).
Proof.
  intros Hempty Hthrows. rewrite proxy_get_S.
  rewrite (proj2 (Object_values_empty (queueMap s)) Hempty).
  rewrite (initQueues_with_throws _ s e Hthrows). reflexivity.
Qed.

End IndexFacts.

(** X28: with a non-empty list of configured queues, an empty cache and a
    job discovery that does not throw, any number [N >= 1] of accesses to
    [queues] runs one initialisation pass, during the first access: the
    jobs directory is listed once, and one queue is built and given a
    consumer for each configured name, in order.  The accesses after the
    first return what the cache holds and leave the state as the first
    access left it. *)
Theorem lazy_initialization_runs_once (W : World) (jobs : JobsConfig)
    (names : list string) (prop : string) (props : list string)
    (depth : nat) (s : State) :
  data_jobs (config W) = Some jobs ->
  queues jobs = Some names ->
  names <> [] ->
  queueMap s = ∅ ->
  loads W s ->
  exists s1 : State,
    proxy_get W (S (S depth)) prop s =
      Some (Normal (get_property (queueMap s1) prop), s1) /\
    lookups W (S (S depth)) (prop :: props) s =
      Some (Normal (get_property (queueMap s1) <$> prop :: props), s1) /\
    discoveries (emitted s s1) = [jobsPath W jobs] /\
    (constructions (emitted s s1)).*2 = names /\
    (constructions (emitted s s1)).*1 =
      seq (next_handle s) (length names) /\
    attachments (emitted s s1) = (constructions (emitted s s1)).*1.
Proof.
  intros Hjobs Hqueues Hne Hempty Hloads.
  destruct (initQueues_with_populates W depth jobs names s Hjobs Hqueues Hne
              Hloads)
    as (s1 & pre & post & Hrun & Ht & D & C & A & Hk & Hq & Hi & Hn).
  assert (Hfull : queueMap s1 <> ∅).
  { rewrite Hq. destruct names as [|n names]; [contradiction|].
    apply loop_map_cons_nonempty. }
  assert (Hfirst : proxy_get W (S (S depth)) prop s =
                   Some (Normal (get_property (queueMap s1) prop), s1)).
  { rewrite proxy_get_S.
    rewrite (proj2 (Object_values_empty (queueMap s)) Hempty).
    rewrite Hrun. cbn [bindR].
    apply proxy_get_cached, Hfull. }
  exists s1. split; [exact Hfirst|]. split.
  { cbn [lookups]. rewrite Hfirst. cbn [bindR].
    rewrite (lookups_cached W (S depth) props s1 Hfull). reflexivity. }
  rewrite (emitted_app _ _ _ Ht).
  destruct (housekeeping_projections post Hk) as (D' & C' & A').
  destruct (loop_events_projections W jobs (next_handle s) names)
    as (DL & CL2 & CL1 & AL).
  unfold discoveries, constructions, attachments in *.
  rewrite !omap_app, !fmap_app, D, C, A, D', C', A', DL, CL2, CL1, AL.
  rewrite !app_nil_r. cbn. auto.
Qed.

Lemma lazy_initialization_runs_once_witness :
  exists s1 : State,
    proxy_get world_emails 2 "emails" initial =
      Some (Normal (get_property (queueMap s1) "emails"), s1) /\
    lookups world_emails 2 ["emails"; "reports"; "default"] initial =
      Some (Normal (get_property (queueMap s1) <$>
                      ["emails"; "reports"; "default"]), s1) /\
    discoveries (emitted initial s1) = ["/app/jobs"] /\
    (constructions (emitted initial s1)).*2 = ["emails"; "default"] /\
    (constructions (emitted initial s1)).*1 = seq 0 2 /\
    attachments (emitted initial s1) = (constructions (emitted initial s1)).*1.
Proof.
  apply (lazy_initialization_runs_once world_emails
           {| dir := "./jobs"; queues := Some ["emails"; "default"];
              options := None |}
           ["emails"; "default"] "emails" ["reports"; "default"] 0 initial).
  - reflexivity.
  - reflexivity.
  - discriminate.
  - reflexivity.
  - reflexivity.
Defined.

(** C3: one queue, [default], is configured and the jobs directory holds
    one file whose top level throws [null].  Every access to [queues]
    then lists the directory and runs the file again, and throws a
    [TypeError] from the [catch] block of [loadJobs] (nothing is logged)
    before the flag is set or any queue is built: two accesses make two
    discovery runs and no queue.  When the file throws an [Error] object
    instead, two accesses make one discovery run, log the error once and
    build the queue with its consumer once. *)
Theorem lookup_repeats_discovery_when_job_file_throws_null :
  let failure :=
    TypeError "Cannot read properties of undefined (reading 'message')" in
  configured_names world_throwing_null = ["default"] /\
  (exists s1 s2 : State,
     (forall depth prop,
        proxy_get world_throwing_null (S depth) prop initial =
          Some (Abrupt failure, s1)) /\
     (forall depth prop,
        proxy_get world_throwing_null (S depth) prop s1 =
          Some (Abrupt failure, s2)) /\
     queueMap s2 = ∅ /\ isInitialized s2 = false /\
     discoveries (trace s2) = ["/app/jobs"; "/app/jobs"] /\
     requires (trace s2) = ["/app/jobs/Broken.ts"; "/app/jobs/Broken.ts"] /\
     logged Err (trace s2) = [] /\
     constructions (trace s2) = [] /\
     attachments (trace s2) = []) /\
  (exists s2 : State,
     lookups world_throwing_error 2 ["default"; "default"] initial =
       Some (Normal [Own 0%nat; Own 0%nat], s2) /\
     discoveries (trace s2) = ["/app/jobs"] /\
     logged Err (trace s2) = [MsgErrorLoadingJobs (PlainError "boom")] /\
     constructions (trace s2) = [(0%nat, "default")] /\
     attachments (trace s2) = [0%nat]).
Proof.
  intros failure. split; [reflexivity|]. split.
  - exists (loadJobs world_throwing_null initial).2,
           (loadJobs world_throwing_null
              (loadJobs world_throwing_null initial).2).2.
    split; [|split].
    + intros depth prop.
      apply (proxy_get_throws world_throwing_null depth prop initial failure);
        reflexivity.
    + intros depth prop.
      apply (proxy_get_throws world_throwing_null depth prop _ failure);
        reflexivity.
    + vm_compute. repeat split.
  - eexists. split; [vm_compute; reflexivity|]. vm_compute. repeat split.
Qed.

(** Job discovery never throws in a world whose job files all load. *)
Lemma world_with_loads (names : option (list string))
    (add : Handle -> Envelope -> JobOptions -> option Error) (s : State) :
  loads (world_with names add) s.
Proof.
  unfold loads, loadJobs, load_listed. cbn.
  unfold require. cbn. case_bool_decide; reflexivity.
Qed.

(** C5: with [queues: []] the first access to [queues] completes its
    initialisation with the warning and an empty cache and returns
    [undefined]; but every later access re-enters [initQueues] without
    end: at no recursion depth does it return anything. *)
Theorem lookup_after_empty_initialization_never_returns :
  exists s1 : State,
    proxy_get world_no_queues 1 "emails" initial =
      Some (Normal Undefined, s1) /\
    logged Warn (trace s1) = [MsgNoQueuesConfigured] /\
    constructions (trace s1) = [] /\
    queueMap s1 = ∅ /\
    isInitialized s1 = true /\
    forall (depth : nat) (prop : string),
      proxy_get world_no_queues depth prop s1 = None.
Proof.
  destruct (proxy_get_no_queues_first world_no_queues 0 "emails" initial
              eq_refl eq_refl eq_refl (world_with_loads _ _ _))
    as (s1 & Hrun & Hq & Hi & Hl & Ht).
  exists s1. split; [exact Hrun|].
  rewrite Ht. repeat split; try assumption.
  intros depth prop.
  apply proxy_get_never_returns; [reflexivity | exact Hi | exact Hq | exact Hl].
Qed.

(** ** Invariants of the reachable states *)

Section Invariants.

Context (W : World).

Lemma Inv_initial : Inv W initial.
Proof.
  split; [|split].
  - intros qname h Hl. cbn in Hl. rewrite lookup_empty in Hl. discriminate.
  - intros h. cbn. split; [lia|].
    intros (qname & o & Hin). apply elem_of_nil in Hin. contradiction.
  - intros h qname o Hin. cbn in Hin. apply elem_of_nil in Hin. contradiction.
Qed.

Lemma not_builds_queue_elem (evs : list Event) (h : Handle) (qname : string)
    (o : QueueOptions) :
  forallb (fun e => negb (builds_queue e)) evs = true ->
  EvNewQueue h qname o ∉ evs.
Proof.
  induction evs as [|e evs IH]; cbn.
  - intros _ Hin. apply elem_of_nil in Hin. contradiction.
  - intros [He Hevs]%andb_prop [<-|Hin]%elem_of_cons.
    + discriminate He.
    + exact (IH Hevs Hin).
Qed.

Lemma housekeeping_not_builds_queue (evs : list Event) :
  forallb housekeeping evs = true ->
  forallb (fun e => negb (builds_queue e)) evs = true.
Proof.
  induction evs as [|e evs IH]; cbn; [auto|].
  intros [He Hevs]%andb_prop. rewrite (IH Hevs).
  destruct e; try discriminate He; reflexivity.
Qed.

(** The invariant survives any change that builds no queue and leaves the
    cache and the counter alone. *)
Lemma Inv_frame (s s' : State) (evs : list Event) :
  frame s s' evs ->
  forallb (fun e => negb (builds_queue e)) evs = true ->
  Inv W s -> Inv W s'.
Proof.
  intros (Ht & Hq & Hi & Hn) Hevs (Hc & Hh & Hb). split; [|split].
  - intros qname h Hl. rewrite Hq in Hl. rewrite Hn. exact (Hc qname h Hl).
  - intros h. rewrite Hn, Ht, (Hh h). split.
    + intros (qname & o & Hin). exists qname, o.
      apply elem_of_app. left. exact Hin.
    + intros (qname & o & Hin). exists qname, o.
      apply elem_of_app in Hin as [Hin|Hin]; [exact Hin|].
      exfalso. exact (not_builds_queue_elem evs h qname o Hevs Hin).
  - intros h qname o Hin. rewrite Ht in Hin.
    apply elem_of_app in Hin as [Hin|Hin]; [exact (Hb h qname o Hin)|].
    exfalso. exact (not_builds_queue_elem evs h qname o Hevs Hin).
Qed.

Lemma Inv_emit (e : Event) (s : State) :
  builds_queue e = false -> Inv W s -> Inv W (emit e s).
Proof.
  intros He. apply (Inv_frame s (emit e s) [e] (frame_emit e s)).
  cbn. rewrite He. reflexivity.
Qed.

Lemma Inv_register (C : JobClass) (s : State) :
  Inv W s -> Inv W (register C s).
Proof. apply (Inv_frame s _ [] (frame_register C s)). reflexivity. Qed.

Lemma Inv_set_isInitialized (b : bool) (s : State) :
  Inv W s -> Inv W (set_isInitialized b s).
Proof. intros H. exact H. Qed.

Lemma Inv_loadJobs (s : State) : Inv W s -> Inv W (loadJobs W s).2.
Proof.
  destruct (loadJobs_frame W s) as (evs & F & Hk).
  apply (Inv_frame _ _ _ F).
  rewrite forallb_app, (housekeeping_not_builds_queue evs Hk).
  unfold load_prefix. destruct (data_jobs (config W)); reflexivity.
Qed.

(** [new Queue] with the configured options. *)
Lemma Inv_new_Queue (jobs : JobsConfig) (qname : string) (s : State) :
  data_jobs (config W) = Some jobs ->
  Inv W s -> Inv W (new_Queue qname (queue_options W jobs) s).2.
Proof.
  intros Hjobs (Hc & Hh & Hb). split; [|split].
  - intros n h Hl. cbn in Hl |- *. specialize (Hc n h Hl). lia.
  - intros h. cbn. split.
    + intros Hlt. destruct (decide (h = next_handle s)) as [->|Hne].
      * exists qname, (queue_options W jobs).
        apply elem_of_app. right. apply list_elem_of_singleton. reflexivity.
      * destruct (proj1 (Hh h)) as (n & o & Hin); [lia|].
        exists n, o. apply elem_of_app. left. exact Hin.
    + intros (n & o & Hin). apply elem_of_app in Hin as [Hin|Hin].
      * assert (h < next_handle s)%nat by (apply Hh; eauto). lia.
      * apply list_elem_of_singleton in Hin. injection Hin as -> _ _. lia.
  - intros h n o Hin. cbn in Hin.
    apply elem_of_app in Hin as [Hin|Hin].
    + exact (Hb h n o Hin).
    + apply list_elem_of_singleton in Hin. injection Hin as _ _ ->.
      exists jobs. auto.
Qed.

(** [queues[prop] = queue] for a queue object that exists. *)
Lemma Inv_proxy_set (prop : string) (queue : Handle) (s : State) :
  (queue < next_handle s)%nat ->
  Inv W s -> Inv W (proxy_set prop queue s).
Proof.
  intros Hlt (Hc & Hh & Hb). split; [|split]; [|exact Hh|exact Hb].
  intros n h Hl. cbn in Hl |- *.
  destruct (decide (prop = n)) as [->|Hne].
  - rewrite lookup_insert_eq in Hl. injection Hl as <-. exact Hlt.
  - rewrite lookup_insert_ne in Hl by exact Hne. exact (Hc n h Hl).
Qed.

(** [queues[queueName] = new Queue(...)] *)
Lemma Inv_store_new_Queue (jobs : JobsConfig) (qname : string) (s : State) :
  data_jobs (config W) = Some jobs ->
  Inv W s ->
  Inv W (proxy_set qname (next_handle s)
           (new_Queue qname (queue_options W jobs) s).2).
Proof.
  intros Hjobs HI. apply Inv_proxy_set.
  - cbn. lia.
  - exact (Inv_new_Queue jobs qname s Hjobs HI).
Qed.

Lemma Inv_consumer_catch (job : string) (error : Error) (s : State) :
  Inv W s -> Inv W (consumer_catch job error s).2.
Proof.
  intros HI. unfold consumer_catch. destruct (message_of error); cbn [snd].
  - repeat (apply Inv_emit; [reflexivity|]). exact HI.
  - exact HI.
Qed.

Lemma Inv_consumer (jobObject : JobObject) (s : State) :
  Inv W s -> Inv W (consumer jobObject s).2.
Proof.
  intros HI. unfold consumer. cbn [Config_jobs emit].
  destruct (get_property (Config_jobs s) (job (data jobObject)))
    as [C|[]|].
  - destruct (handle C (payload (data jobObject))); cbn [snd].
    + repeat (apply Inv_emit; [reflexivity|]). exact HI.
    + apply Inv_consumer_catch.
      repeat (apply Inv_emit; [reflexivity|]). exact HI.
  - apply Inv_consumer_catch.
    repeat (apply Inv_emit; [reflexivity|]). exact HI.
  - apply Inv_consumer_catch.
    repeat (apply Inv_emit; [reflexivity|]). exact HI.
  - apply Inv_consumer_catch.
    repeat (apply Inv_emit; [reflexivity|]). exact HI.
  - cbn [snd]. repeat (apply Inv_emit; [reflexivity|]). exact HI.
Qed.

Lemma Inv_configureQueue (qname : string) (s : State) :
  Inv W s -> Inv W (configureQueue W qname s).2.
Proof.
  intros HI. unfold configureQueue.
  destruct (data_jobs (config W)) as [jobs|] eqn:Hjobs; [|exact HI].
  exact (Inv_new_Queue jobs qname s Hjobs HI).
Qed.

Lemma Inv_dispatch (this : Job) (payload : Json) (s : State) :
  Inv W s -> Inv W (state_after (dispatch W this payload s)).
Proof.
  intros HI. unfold dispatch, configureQueue, info.
  destruct (data_jobs (config W)) as [jobs|] eqn:Hjobs; [|exact HI].
  pose proof (Inv_new_Queue jobs (queueName this) s Hjobs HI) as HI'.
  cbn [new_Queue snd] in HI' |- *.
  destruct (debug_enabled W); destruct (queue_add W _ _ _); cbn [state_after];
    repeat (apply Inv_emit; [reflexivity|]); exact HI'.
Qed.

Lemma Inv_dispatchNow (this : Job) (payload : Json) (s : State) :
  Inv W s -> Inv W (dispatchNow W this payload s).2.
Proof.
  intros HI. unfold dispatchNow, info. cbn [snd].
  destruct (debug_enabled W);
    repeat (apply Inv_emit; [reflexivity|]); exact HI.
Qed.

Lemma bindR_Some {A B : Type} (r : Run A) (k : A -> State -> Run B)
    (x : Completion B) (s' : State) :
  bindR r k = Some (x, s') ->
  (exists e, r = Some (Abrupt e, s') /\ x = Abrupt e) \/
  (exists a s1, r = Some (Normal a, s1) /\ k a s1 = Some (x, s')).
Proof.
  destruct r as [[[a|e] s1]|]; cbn; intros H.
  - right. eauto.
  - left. injection H as <- <-. eauto.
  - discriminate.
Qed.

Lemma Inv_init_loop (get : string -> State -> Run (Property Handle))
    (jobs : JobsConfig) (names : list string) (s : State) r s' :
  keeps_Inv W get ->
  data_jobs (config W) = Some jobs ->
  init_loop W get jobs names s = Some (r, s') ->
  Inv W s -> Inv W s'.
Proof.
  intros Hget Hjobs. revert s. induction names as [|n names IH]; intros s.
  - cbn. intros [= <- <-] HI. exact HI.
  - cbn [init_loop new_Queue]. intros Hrun HI.
    pose proof (Inv_store_new_Queue jobs n s Hjobs HI) as HI2.
    cbn [new_Queue snd] in HI2.
    apply bindR_Some in Hrun as [(e & Hg & _)|(q & s1 & Hg & Hk)].
    + exact (Hget _ _ _ _ Hg HI2).
    + pose proof (Hget _ _ _ _ Hg HI2) as HI3.
      destruct q as [h'|b|].
      * apply (IH _ Hk). apply Inv_emit; [reflexivity | exact HI3].
      * injection Hk as _ <-. exact HI3.
      * injection Hk as _ <-. exact HI3.
Qed.

Lemma Inv_init_queues_tail (get : string -> State -> Run (Property Handle))
    (s : State) r s' :
  keeps_Inv W get ->
  init_queues_tail W get s = Some (r, s') ->
  Inv W s -> Inv W s'.
Proof.
  intros Hget Hrun HI. unfold init_queues_tail in Hrun.
  assert (HI1 : Inv W (emit (EvLog Debug (MsgConfigJobs (dom (Config_jobs s))) true) s))
    by (apply Inv_emit; [reflexivity | exact HI]).
  apply bindR_Some in Hrun as [(e & Hl & _)|([] & s1 & Hl & Hk)].
  - destruct (data_jobs (config W)) as [jobs|] eqn:Hjobs.
    + destruct (queues jobs) as [names|].
      * exact (Inv_init_loop get jobs names _ _ _ Hget Hjobs Hl HI1).
      * discriminate Hl.
    + discriminate Hl.
  - injection Hk as _ <-. apply Inv_emit; [reflexivity|].
    destruct (data_jobs (config W)) as [jobs|] eqn:Hjobs.
    + destruct (queues jobs) as [names|].
      * exact (Inv_init_loop get jobs names _ _ _ Hget Hjobs Hl HI1).
      * injection Hl as <-. exact HI1.
    + injection Hl as <-. exact HI1.
Qed.

Lemma Inv_initQueues_with (get : string -> State -> Run (Property Handle))
    (s : State) r s' :
  keeps_Inv W get ->
  initQueues_with W get s = Some (r, s') ->
  Inv W s -> Inv W s'.
Proof.
  intros Hget Hrun HI. unfold initQueues_with in Hrun.
  pose proof (Inv_loadJobs s HI) as HI1.
  destruct (loadJobs W s) as [[[]|e] s1]; cbn [bindR snd] in *.
  - unfold init_queues_loaded in Hrun.
    destruct (isInitialized s1); cbn [negb] in Hrun.
    + exact (Inv_init_queues_tail get _ _ _ Hget Hrun HI1).
    + destruct (no_queues_configured W).
      * injection Hrun as _ <-. apply Inv_set_isInitialized.
        repeat (apply Inv_emit; [reflexivity|]). exact HI1.
      * apply (Inv_init_queues_tail get _ _ _ Hget Hrun).
        apply Inv_set_isInitialized.
        repeat (apply Inv_emit; [reflexivity|]). exact HI1.
  - injection Hrun as _ <-. exact HI1.
Qed.

Lemma Inv_proxy_get (depth : nat) : keeps_Inv W (proxy_get W depth).
Proof.
  induction depth as [|depth IH]; intros prop s r s' Hrun HI.
  - discriminate Hrun.
  - rewrite proxy_get_S in Hrun.
    destruct (length (Object_values (queueMap s)) =? 0)%nat.
    + apply bindR_Some in Hrun as [(e & Hi & _)|(t & s1 & Hi & Hk)].
      * exact (Inv_initQueues_with _ _ _ _ IH Hi HI).
      * pose proof (Inv_initQueues_with _ _ _ _ IH Hi HI) as HI1.
        destruct t.
        -- injection Hk as _ <-. exact HI1.
        -- exact (IH _ _ _ _ Hk HI1).
    + injection Hrun as _ <-. exact HI.
Qed.

Lemma Inv_operation (s s' : State) : operation W s s' -> Inv W s -> Inv W s'.
Proof.
  intros Hop HI. destruct Hop.
  - apply Inv_register, HI.
  - eapply Inv_proxy_get; eassumption.
  - eapply Inv_initQueues_with; [apply Inv_proxy_get | eassumption | exact HI].
  - apply Inv_loadJobs, HI.
  - apply Inv_configureQueue, HI.
  - apply Inv_dispatch, HI.
  - apply Inv_dispatchNow, HI.
  - apply Inv_consumer, HI.
Qed.

Lemma Inv_step (s s' : State) : step W s s' -> Inv W s -> Inv W s'.
Proof.
  intros Hstep HI. destruct Hstep as [s s' Hop|prop queue s Hlt].
  - exact (Inv_operation s s' Hop HI).
  - apply Inv_proxy_set; assumption.
Qed.

Lemma reachable_Inv (s : State) : reachable W s -> Inv W s.
Proof.
  unfold reachable. intros Hr.
  apply (rtc_ind_r (R := step W) (fun s => Inv W s) initial);
    [apply Inv_initial | | exact Hr].
  intros y z _ Hstep HI. exact (Inv_step y z Hstep HI).
Qed.


End Invariants.

(** The first access to [queues] of a worker for [world_emails]. *)
Lemma after_first_lookup_reachable : reachable world_emails after_first_lookup.
Proof.
  apply rtc_once, step_operation.
  apply (op_lookup world_emails 2 "emails" initial (Normal (Own 0%nat))).
  vm_compute. reflexivity.
Qed.




Lemma two_is_not_five : 2%float <> 5%float.
Proof.
  intros E. discriminate (f_equal (fun x => PrimFloat.eqb x 2%float) E).
Qed.

(** C10: every queue object built in a reachable state, by [initQueues]
    for a configured queue or by [configureQueue] for a dispatch, has the
    default [attempts] value [2] whenever [jobs.options.attempts] is
    absent, [0] or [NaN]; the [attempts] field of a job instance defaults
    to [5], which is a different number. *)
Theorem queue_default_attempts_fall_back_to_2 (W : World)
    (jobs : JobsConfig) (s : State) (h : Handle) (qname : string)
    (o : QueueOptions) :
  reachable W s ->
  EvNewQueue h qname o ∈ trace s ->
  data_jobs (config W) = Some jobs ->
  attempts_unset jobs ->
  d_attempts (qo_defaultJobOptions o) = 2%float /\
  Job_attempts_default = 5%float /\
  d_attempts (qo_defaultJobOptions o) <> Job_attempts_default.
Proof.
  intros Hreach Hin Hjobs Hunset.
  destruct (reachable_Inv W s Hreach) as (_ & _ & Hb).
  destruct (Hb h qname o Hin) as (jobs' & Hjobs' & ->).
  rewrite Hjobs in Hjobs'. injection Hjobs' as <-.
  assert (E : d_attempts (qo_defaultJobOptions (queue_options W jobs)) =
              2%float).
  { cbn. unfold attempts_unset in Hunset. unfold attempts_or_2.
    destruct (options jobs ≫= cfg_attempts) as [n|]; [|reflexivity].
    rewrite Hunset. reflexivity. }
  rewrite E. repeat split. exact two_is_not_five.
Qed.

Lemma queue_default_attempts_fall_back_to_2_witness :
  let o :=
    queue_options world_emails
      {| dir := "./jobs"; queues := Some ["emails"; "default"];
         options := None |} in
  d_attempts (qo_defaultJobOptions o) = 2%float /\
  Job_attempts_default = 5%float /\
  d_attempts (qo_defaultJobOptions o) <> Job_attempts_default.
Proof.
  apply (queue_default_attempts_fall_back_to_2 world_emails
           {| dir := "./jobs"; queues := Some ["emails"; "default"];
              options := None |}
           (state_after
              (dispatch world_emails (new_Job PlainJob) payload_to initial))
           0%nat "default").
  - apply rtc_once, step_operation, op_dispatch.
  - vm_compute. apply list_elem_of_here.
  - reflexivity.
  - exact I.
Defined.

(** ** Further properties of Job.ts *)

Section JobExtras.

Context (W : World).

(** X1: [Job.register] overwrites silently: registering a second class under
    a name already taken leaves the state exactly as if the first class
    had never been registered. *)
Theorem register_last_wins (C1 C2 : JobClass) (s : State) :
  class_name C1 = class_name C2 ->
  Config_jobs (register C2 (register C1 s)) !! class_name C1 = Some C2 /\
  register C2 (register C1 s) = register C2 s.
Proof.
  intros Hname. split.
  - rewrite Hname. apply register_lookup.
  - unfold register, set_Config_jobs. cbn. rewrite Hname.
    rewrite insert_insert_eq. reflexivity.
Qed.

Lemma register_other (C : JobClass) (n : string) (s : State) :
  n <> class_name C ->
  Config_jobs (register C s) !! n = Config_jobs s !! n.
Proof. intros Hne. unfold register. cbn. apply lookup_insert_ne. auto. Qed.



(** The falsy numbers are [+0], [-0] and [NaN]. *)
Lemma is_zero_iff (x : float) :
  PrimFloat.is_zero x = true <-> x = 0%float \/ x = (-0)%float.
Proof.
  split.
  - unfold PrimFloat.is_zero. rewrite FloatAxioms.eqb_spec.
    intros H. rewrite <- (FloatAxioms.SF2Prim_Prim2SF x).
    destruct (FloatOps.Prim2SF x) as [[]|[]| |[] m e];
      try discriminate H; cbn; auto.
  - intros [->| ->]; reflexivity.
Qed.

Lemma is_nan_iff (x : float) : PrimFloat.is_nan x = true <-> x = nan.
Proof.
  split.
  - unfold PrimFloat.is_nan. rewrite FloatAxioms.eqb_spec.
    intros H. rewrite <- (FloatAxioms.SF2Prim_Prim2SF x).
    destruct (FloatOps.Prim2SF x) as [[]|[]| |[] m e];
      try reflexivity; exfalso; cbn in H; try discriminate H;
      unfold SpecFloat.SFeqb, SpecFloat.SFcompare in H;
      rewrite ?Z.compare_refl, ?Pos.compare_cont_refl, ?Pos.compare_refl in H;
      cbn in H; discriminate H.
  - intros ->. reflexivity.
Qed.

Lemma truthy_false_iff (n : number) :
  truthy n = false <-> n = 0%float \/ n = (-0)%float \/ n = nan.
Proof.
  unfold truthy. rewrite negb_false_iff, orb_true_iff, is_zero_iff, is_nan_iff.
  tauto.
Qed.

(** X3: [getOptions] leaves out exactly the falsy fields: the [delay] key
    is absent when [delayInSeconds] is [+0], [-0] or [NaN] and is the
    binary64 product of the field with 1000 otherwise; the [attempts] key
    is absent when [attempts] is [+0], [-0] or [NaN] and is the field
    itself otherwise. *)
Theorem getOptions_omits_falsy_fields (this : Job) :
  let falsy (n : number) := n = 0%float \/ n = (-0)%float \/ n = nan in
  match jo_delay (getOptions this) with
  | Some d => d = times1000 (delayInSeconds this) /\ ~ falsy (delayInSeconds this)
  | None => falsy (delayInSeconds this)
  end /\
  match jo_attempts (getOptions this) with
  | Some a => a = attempts this /\ ~ falsy a
  | None => falsy (attempts this)
  end.
Proof.
  intros falsy. unfold getOptions. cbn. split.
  - destruct (truthy (delayInSeconds this)) eqn:E.
    + split; [reflexivity|]. intros F%truthy_false_iff. congruence.
    + apply truthy_false_iff, E.
  - destruct (truthy (attempts this)) eqn:E.
    + split; [reflexivity|]. intros F%truthy_false_iff. congruence.
    + apply truthy_false_iff, E.
Qed.

(** X4: [new C().delay(seconds).dispatch(payload)] under a configuration
    with a jobs section: the one submission carries the binary64 product
    [seconds * 1000] as its [delay] when [seconds] is truthy and no
    [delay] key when it is [+0], [-0] or [NaN]; the envelope and the
    [attempts] option are those of the instance without the [delay]
    call. *)
Theorem delay_then_dispatch (jobs : JobsConfig) (this : Job)
    (seconds : number) (payload : Json) (s : State) :
  data_jobs (config W) = Some jobs ->
  adds (emitted s (state_after (dispatch W (delay seconds this) payload s))) =
  [(next_handle s,
    {| job := class_name (constructor this); payload := payload |},
    {| jo_delay :=
         if truthy seconds then Some (seconds * 1000)%float else None;
       jo_attempts := jo_attempts (getOptions this) |})].
Proof.
  intros Hjobs. rewrite (dispatch_emitted W jobs) by exact Hjobs.
  rewrite dispatch_events_adds. reflexivity.
Qed.

(** X5: With no jobs section in the configuration, [dispatch] rejects with the
    [TypeError] of [configureQueue] before anything happened: no queue is
    built, nothing is logged or submitted, [this.queue] is not assigned
    and the state is untouched. *)
Theorem dispatch_without_jobs_section_rejects (this : Job) (payload : Json)
    (s : State) :
  data_jobs (config W) = None ->
  exists what : string,
    settled (dispatch W this payload s) = Abrupt (TypeError what) /\
    state_after (dispatch W this payload s) = s /\
    this_after (dispatch W this payload s) = this.
Proof.
  intros Hnone. unfold dispatch, configureQueue. rewrite Hnone.
  eexists. repeat split.
Qed.

Lemma dispatch_leaves_alone (this : Job) (payload : Json) (s : State) :
  let s' := state_after (dispatch W this payload s) in
  (Config_jobs s' = Config_jobs s /\ isInitialized s' = isInitialized s /\
   queueMap s' = queueMap s /\ require_cache s' = require_cache s) /\
  (discoveries (emitted s s') = [] /\ attachments (emitted s s') = [] /\
   handle_calls (emitted s s') = [] /\ dones (emitted s s') = []) /\
  next_handle s' =
    match data_jobs (config W) with
    | Some _ => S (next_handle s)
    | None => next_handle s
    end /\
  logged Info (emitted s s') =
    match data_jobs (config W) with
    | Some _ =>
        if debug_enabled W
        then [MsgJobAdded (class_name (constructor this))]
        else []
    | None => []
    end.
Proof.
  intros s'. subst s'.
  destruct (data_jobs (config W)) as [jobs|] eqn:Hjobs.
  - rewrite (dispatch_emitted W jobs) by exact Hjobs.
    unfold dispatch, dispatch_events, info.
    rewrite (configureQueue_configured W jobs _ _ Hjobs).
    cbn [constructor set_queue].
    destruct (debug_enabled W); destruct (queue_add W _ _ _); cbn;
      repeat split.
  - unfold dispatch, configureQueue. rewrite Hjobs. cbn [state_after].
    rewrite (emitted_app s s []) by (rewrite app_nil_r; reflexivity).
    repeat split.
Qed.

(** X6: What [dispatch] leaves alone: the registry, the initialisation flag,
    the queue cache and the module cache are unchanged; it runs no
    discovery, attaches no consumer, instantiates no class through the
    worker loop and calls no handler; it allocates at most one queue; and
    it logs one line when [jobs.options.debug === true] and a queue could
    be built, nothing otherwise. *)
Theorem dispatch_frame (this : Job) (payload : Json) (s : State) :
  let s' := state_after (dispatch W this payload s) in
  (Config_jobs s' = Config_jobs s /\ isInitialized s' = isInitialized s /\
   queueMap s' = queueMap s /\ require_cache s' = require_cache s) /\
  (discoveries (emitted s s') = [] /\ attachments (emitted s s') = [] /\
   handle_calls (emitted s s') = [] /\ dones (emitted s s') = []) /\
  next_handle s' =
    match data_jobs (config W) with
    | Some _ => S (next_handle s)
    | None => next_handle s
    end /\
  logged Info (emitted s s') =
    match data_jobs (config W) with
    | Some _ =>
        if debug_enabled W
        then [MsgJobAdded (class_name (constructor this))]
        else []
    | None => []
    end.
Proof. exact (dispatch_leaves_alone this payload s). Qed.


End JobExtras.

Lemma delay_then_dispatch_witness :
  adds (emitted initial
          (state_after (dispatch world_emails (delay 1.5%float (new_Job PlainJob))
                          payload_to initial))) =
  [(0%nat, {| job := "PlainJob"; payload := payload_to |},
    {| jo_delay := Some 1500%float; jo_attempts := Some 5%float |})].
Proof.
  exact (delay_then_dispatch world_emails
           {| dir := "./jobs"; queues := Some ["emails"; "default"];
              options := None |}
           (new_Job PlainJob) 1.5%float payload_to initial eq_refl).
Defined.

Lemma register_last_wins_witness :
  Config_jobs
    (register
       {| class_name := "PlainJob"; init_queueName := Some "emails";
          init_delayInSeconds := None; init_attempts := None;
          handle := fun _ => Normal true |}
       (register PlainJob initial)) !! "PlainJob" =
  Some {| class_name := "PlainJob"; init_queueName := Some "emails";
          init_delayInSeconds := None; init_attempts := None;
          handle := fun _ => Normal true |} /\
  register
    {| class_name := "PlainJob"; init_queueName := Some "emails";
       init_delayInSeconds := None; init_attempts := None;
       handle := fun _ => Normal true |}
    (register PlainJob initial) =
  register
    {| class_name := "PlainJob"; init_queueName := Some "emails";
       init_delayInSeconds := None; init_attempts := None;
       handle := fun _ => Normal true |}
    initial.
Proof.
  exact (register_last_wins PlainJob
           {| class_name := "PlainJob"; init_queueName := Some "emails";
              init_delayInSeconds := None; init_attempts := None;
              handle := fun _ => Normal true |}
           initial eq_refl).
Defined.


Lemma dispatch_without_jobs_section_rejects_witness :
  exists what : string,
    settled (dispatch world_no_jobs (new_Job PlainJob) payload_to initial) =
      Abrupt (TypeError what) /\
    state_after (dispatch world_no_jobs (new_Job PlainJob) payload_to initial) =
      initial /\
    this_after (dispatch world_no_jobs (new_Job PlainJob) payload_to initial) =
      new_Job PlainJob.
Proof.
  exact (dispatch_without_jobs_section_rejects world_no_jobs
           (new_Job PlainJob) payload_to initial eq_refl).
Defined.


(** ** Further properties of index.ts *)

Section IndexExtras.

Context (W : World).

(** *** Initialisation without the recursion depth *)

Lemma init_loop_cached (depth : nat) (jobs : JobsConfig)
    (names : list string) (s : State) :
  init_loop W (proxy_get W (S depth)) jobs names s =
  Some (Normal tt, loop_state W jobs names s).
Proof.
  revert s. induction names as [|n names IH]; intros s.
  - reflexivity.
  - cbn [init_loop loop_state new_Queue].
    set (s2 := proxy_set n (next_handle s) _).
    rewrite proxy_get_cached by (subst s2; cbn; apply insert_non_empty).
    subst s2. cbn [bindR queueMap proxy_set set_queueMap].
    unfold get_property. rewrite lookup_insert_eq. apply IH.
Qed.

(** Whatever depth the trap is given, a loop that returns has gone
    through the cache. *)
Lemma init_loop_returns (depth : nat) (jobs : JobsConfig)
    (names : list string) (s : State) r s' :
  init_loop W (proxy_get W depth) jobs names s = Some (r, s') ->
  r = Normal tt /\ s' = loop_state W jobs names s.
Proof.
  destruct depth as [|depth].
  - destruct names as [|n names]; cbn.
    + intros [= <- <-]. auto.
    + discriminate.
  - rewrite init_loop_cached. intros [= <- <-]. auto.
Qed.

Lemma loop_state_facts (jobs : JobsConfig) (names : list string) (s : State) :
  trace (loop_state W jobs names s) =
    trace s ++ loop_events W jobs (next_handle s) names /\
  queueMap (loop_state W jobs names s) =
    loop_map (next_handle s) names (queueMap s) /\
  isInitialized (loop_state W jobs names s) = isInitialized s /\
  next_handle (loop_state W jobs names s) =
    (next_handle s + length names)%nat /\
  Config_jobs (loop_state W jobs names s) = Config_jobs s /\
  require_cache (loop_state W jobs names s) = require_cache s.
Proof.
  revert s. induction names as [|n names IH]; intros s.
  - cbn. rewrite app_nil_r, Nat.add_0_r. repeat split.
  - cbn [loop_state new_Queue].
    match goal with
    | |- context [loop_state W jobs names ?s0] =>
        destruct (IH s0) as (Ht & Hq & Hi & Hn & Hc & Hr)
    end.
    rewrite Ht, Hq, Hi, Hn, Hc, Hr. cbn.
    rewrite <- !app_assoc. cbn. repeat split. lia.
Qed.

Lemma init_queues_tail_eq (depth : nat) (s : State) :
  init_queues_tail W (proxy_get W (S depth)) s =
  Some (Normal (init_queues_tail_result W s).1,
        (init_queues_tail_result W s).2).
Proof.
  unfold init_queues_tail, init_queues_tail_result.
  destruct (data_jobs (config W)) as [jobs|]; [|reflexivity].
  destruct (queues jobs) as [names|]; [|reflexivity].
  rewrite init_loop_cached. reflexivity.
Qed.

Lemma init_queues_tail_returns (depth : nat) (s : State) r s' :
  init_queues_tail W (proxy_get W depth) s = Some (r, s') ->
  r = Normal (init_queues_tail_result W s).1 /\
  s' = (init_queues_tail_result W s).2.
Proof.
  unfold init_queues_tail, init_queues_tail_result.
  destruct (data_jobs (config W)) as [jobs|].
  - destruct (queues jobs) as [names|].
    + intros Hrun.
      apply bindR_Some in Hrun as [(e & Hl & _)|([] & s1 & Hl & Hk)].
      * apply init_loop_returns in Hl as [? _]. discriminate.
      * apply init_loop_returns in Hl as [_ ->].
        injection Hk as <- <-. auto.
    + cbn. intros [= <- <-]. auto.
  - cbn. intros [= <- <-]. auto.
Qed.

Lemma init_queues_loaded_eq (depth : nat) (s : State) :
  init_queues_loaded W (proxy_get W (S depth)) s =
  Some (Normal (init_queues_loaded_result W s).1,
        (init_queues_loaded_result W s).2).
Proof.
  unfold init_queues_loaded, init_queues_loaded_result.
  destruct (negb (isInitialized s)).
  - destruct (no_queues_configured W); [reflexivity|].
    apply init_queues_tail_eq.
  - apply init_queues_tail_eq.
Qed.

Lemma init_queues_loaded_returns (depth : nat) (s : State) r s' :
  init_queues_loaded W (proxy_get W depth) s = Some (r, s') ->
  r = Normal (init_queues_loaded_result W s).1 /\
  s' = (init_queues_loaded_result W s).2.
Proof.
  unfold init_queues_loaded, init_queues_loaded_result.
  destruct (negb (isInitialized s)).
  - destruct (no_queues_configured W).
    + intros [= <- <-]. auto.
    + apply init_queues_tail_returns.
  - apply init_queues_tail_returns.
Qed.

(** A direct call of [initQueues()] completes as soon as the trap may be
    entered once. *)
Lemma initQueues_eq (depth : nat) (s : State) :
  initQueues W (S depth) s = Some (initQueues_result W s).
Proof.
  unfold initQueues, initQueues_with, initQueues_result.
  destruct (loadJobs W s) as [[[]|e] s1]; cbn [bindR]; [|reflexivity].
  apply init_queues_loaded_eq.
Qed.

Lemma initQueues_with_returns (depth : nat) (s : State) r s' :
  initQueues_with W (proxy_get W depth) s = Some (r, s') ->
  (r, s') = initQueues_result W s.
Proof.
  unfold initQueues_with, initQueues_result.
  destruct (loadJobs W s) as [[[]|e] s1]; cbn [bindR].
  - intros [-> ->]%init_queues_loaded_returns. reflexivity.
  - intros [= <- <-]. reflexivity.
Qed.

Lemma initQueues_result_loaded (s : State) :
  loads W s ->
  initQueues_result W s =
  (Normal (init_queues_loaded_result W (loadJobs W s).2).1,
   (init_queues_loaded_result W (loadJobs W s).2).2).
Proof.
  unfold loads, initQueues_result.
  destruct (loadJobs W s) as [[[]|e] s1]; cbn; [reflexivity | discriminate].
Qed.

Lemma initQueues_result_throws (s : State) (e : Error) :
  (loadJobs W s).1 = Abrupt e ->
  initQueues_result W s = (Abrupt e, (loadJobs W s).2).
Proof.
  unfold initQueues_result.
  destruct (loadJobs W s) as [[[]|e'] s1]; cbn; [discriminate|].
  intros [= ->]. reflexivity.
Qed.

Lemma is_log_projections (evs : list Event) :
  forallb is_log evs = true ->
  discoveries evs = [] /\ requires evs = [] /\ constructions evs = [] /\
  attachments evs = [] /\ adds evs = [] /\ closes evs = [] /\
  logged Err evs = [].
Proof.
  induction evs as [|e evs IH]; cbn; [repeat split|].
  intros [He Hevs]%andb_prop.
  destruct (IH Hevs) as (D & R & C & A & Ad & Cl & L).
  destruct e as [[] ? ?| | | | | | | | |]; try discriminate; cbn;
    repeat split; assumption.
Qed.

Lemma no_queues_configured_names :
  no_queues_configured W = true <-> configured_names W = [].
Proof.
  unfold no_queues_configured, configured_names.
  destruct (data_jobs (config W)) as [jobs|]; cbn; [|tauto].
  destruct (queues jobs) as [[|n names]|]; cbn; split; auto; discriminate.
Qed.

Lemma init_queues_tail_result_facts (s : State) :
  exists logs1 logs2,
    trace (init_queues_tail_result W s).2 =
      trace s ++ logs1 ++ built_events W (next_handle s) ++ logs2 /\
    forallb is_log logs1 = true /\ forallb is_log logs2 = true /\
    (init_queues_tail_result W s).1 = QueuesProxy /\
    queueMap (init_queues_tail_result W s).2 =
      loop_map (next_handle s) (configured_names W) (queueMap s) /\
    isInitialized (init_queues_tail_result W s).2 = isInitialized s /\
    next_handle (init_queues_tail_result W s).2 =
      (next_handle s + length (configured_names W))%nat /\
    Config_jobs (init_queues_tail_result W s).2 = Config_jobs s /\
    require_cache (init_queues_tail_result W s).2 = require_cache s.
Proof.
  exists [EvLog Debug (MsgConfigJobs (dom (Config_jobs s))) true],
         [EvLog Success MsgReady false].
  unfold init_queues_tail_result, built_events, configured_names.
  destruct (data_jobs (config W)) as [jobs|]; cbn [mbind option_bind default].
  - destruct (queues jobs) as [names|]; cbn [default].
    + match goal with
      | |- context [loop_state W jobs names ?s0] =>
          destruct (loop_state_facts jobs names s0)
            as (Ht & Hq & Hi & Hn & Hc & Hr)
      end.
      cbn [snd fst emit trace queueMap isInitialized next_handle Config_jobs
           require_cache] in *.
      rewrite Ht, Hq, Hi, Hn, Hc, Hr, <- !app_assoc. repeat split.
    + cbn. rewrite <- !app_assoc, Nat.add_0_r. repeat split.
  - cbn. rewrite <- !app_assoc, Nat.add_0_r. repeat split.
Qed.

(** The state [initQueues()] leaves after its [loadJobs] call, in one
    description. *)
Lemma init_queues_loaded_result_facts (s : State) :
  exists logs1 logs2,
    trace (init_queues_loaded_result W s).2 =
      trace s ++ logs1 ++ built_events W (next_handle s) ++ logs2 /\
    forallb is_log logs1 = true /\ forallb is_log logs2 = true /\
    (init_queues_loaded_result W s).1 =
      (if negb (isInitialized s) && no_queues_configured W
       then EmptyObject else QueuesProxy) /\
    queueMap (init_queues_loaded_result W s).2 =
      loop_map (next_handle s) (configured_names W) (queueMap s) /\
    isInitialized (init_queues_loaded_result W s).2 = true /\
    next_handle (init_queues_loaded_result W s).2 =
      (next_handle s + length (configured_names W))%nat /\
    Config_jobs (init_queues_loaded_result W s).2 = Config_jobs s /\
    require_cache (init_queues_loaded_result W s).2 = require_cache s.
Proof.
  unfold init_queues_loaded_result.
  destruct (isInitialized s) eqn:Hinit; cbn [negb andb].
  - destruct (init_queues_tail_result_facts s)
      as (l1 & l2 & Ht' & H1 & H2 & Hr & Hq' & Hi' & Hn' & Hc & Hrc).
    exists l1, l2. rewrite Ht', Hr, Hq', Hi', Hn', Hc, Hrc, Hinit.
    repeat split; assumption.
  - destruct (no_queues_configured W) eqn:Hnq.
    + exists [EvLog Info MsgInitializing false;
              EvLog Warn MsgNoQueuesConfigured true], [].
      pose proof (proj1 no_queues_configured_names Hnq) as Hnames.
      unfold built_events. unfold no_queues_configured in Hnq.
      rewrite Hnames. cbn.
      rewrite Nat.add_0_r, <- !app_assoc.
      destruct (data_jobs (config W)) as [jobs|]; cbn in *.
      * destruct (queues jobs) as [[|n names]|]; try discriminate Hnq;
          cbn; repeat split.
      * repeat split.
    + match goal with
      | |- context [init_queues_tail_result W ?s0] =>
          destruct (init_queues_tail_result_facts s0)
            as (l1 & l2 & Ht' & H1 & H2 & Hr & Hq' & Hi' & Hn' & Hc & Hrc)
      end.
      cbn [snd fst emit set_isInitialized trace queueMap isInitialized
           next_handle Config_jobs require_cache] in *.
      eexists (_ :: _ :: l1), l2.
      rewrite Ht', Hr, Hq', Hi', Hn', Hc, Hrc, <- !app_assoc.
      cbn. repeat split; assumption.
Qed.

(** The same for the whole call, when [loadJobs] comes back. *)
Lemma initQueues_result_facts (s : State) :
  loads W s ->
  exists logs1 logs2,
    trace (initQueues_result W s).2 =
      trace (loadJobs W s).2 ++ logs1 ++
      built_events W (next_handle s) ++ logs2 /\
    forallb is_log logs1 = true /\ forallb is_log logs2 = true /\
    (initQueues_result W s).1 =
      Normal (if negb (isInitialized s) && no_queues_configured W
              then EmptyObject else QueuesProxy) /\
    queueMap (initQueues_result W s).2 =
      loop_map (next_handle s) (configured_names W) (queueMap s) /\
    isInitialized (initQueues_result W s).2 = true /\
    next_handle (initQueues_result W s).2 =
      (next_handle s + length (configured_names W))%nat /\
    Config_jobs (initQueues_result W s).2 = Config_jobs (loadJobs W s).2 /\
    require_cache (initQueues_result W s).2 = require_cache (loadJobs W s).2.
Proof.
  intros Hloads.
  destruct (loadJobs_frame W s) as (evs & (Ht & Hq & Hi & Hn) & Hk).
  rewrite (initQueues_result_loaded s Hloads). cbn [fst snd].
  destruct (init_queues_loaded_result_facts (loadJobs W s).2)
    as (l1 & l2 & Ht' & H1 & H2 & Hr & Hq' & Hi' & Hn' & Hc & Hrc).
  exists l1, l2. rewrite Ht', Hr, Hq', Hi', Hn', Hc, Hrc, Hq, Hi, Hn.
  repeat split; assumption.
Qed.

Lemma loop_map_lookup_notin (h : Handle) (names : list string)
    (m : gmap string Handle) (n : string) :
  n ∉ names -> loop_map h names m !! n = m !! n.
Proof.
  revert h m. induction names as [|a names IH]; intros h m Hn; cbn.
  - reflexivity.
  - apply not_elem_of_cons in Hn as [Hne Hn].
    rewrite IH by exact Hn. apply lookup_insert_ne. auto.
Qed.

Lemma loop_map_lookup_in (h : Handle) (names : list string)
    (m : gmap string Handle) (n : string) :
  n ∈ names ->
  exists h', loop_map h names m !! n = Some h' /\
             (h <= h' < h + length names)%nat.
Proof.
  revert h m. induction names as [|a names IH]; intros h m Hn.
  - apply elem_of_nil in Hn. contradiction.
  - cbn [loop_map length].
    destruct (decide (n ∈ names)) as [Hin|Hnotin].
    + destruct (IH (S h) (<[a:=h]> m) Hin) as (h' & Hl & Hb).
      exists h'. split; [exact Hl | lia].
    + apply elem_of_cons in Hn as [->|Hn]; [|contradiction].
      exists h. rewrite loop_map_lookup_notin by exact Hnotin.
      rewrite lookup_insert_eq. split; [reflexivity | lia].
Qed.

Lemma loop_events_quiet (jobs : JobsConfig) (h : Handle)
    (names : list string) :
  requires (loop_events W jobs h names) = [] /\
  adds (loop_events W jobs h names) = [] /\
  closes (loop_events W jobs h names) = [] /\
  logged Err (loop_events W jobs h names) = [].
Proof.
  revert h. induction names as [|n names IH]; intros h; [repeat split|].
  destruct (IH (S h)) as (R & A & C & L). cbn. auto.
Qed.

Lemma built_events_projections (h : Handle) :
  discoveries (built_events W h) = [] /\
  (constructions (built_events W h)).*2 = configured_names W /\
  (constructions (built_events W h)).*1 =
    seq h (length (configured_names W)) /\
  attachments (built_events W h) = seq h (length (configured_names W)) /\
  requires (built_events W h) = [] /\
  adds (built_events W h) = [] /\
  closes (built_events W h) = [] /\
  logged Err (built_events W h) = [].
Proof.
  unfold built_events, configured_names.
  destruct (data_jobs (config W)) as [jobs|]; cbn; [|repeat split].
  destruct (queues jobs) as [names|]; cbn; [|repeat split].
  destruct (loop_events_projections W jobs h names) as (D & C2 & C1 & A).
  destruct (loop_events_quiet jobs h names) as (R & Ad & Cl & L).
  repeat split; assumption.
Qed.

Lemma loadJobs_discoveries (s : State) :
  discoveries (emitted s (loadJobs W s).2) =
  match data_jobs (config W) with
  | Some jobs => [jobsPath W jobs]
  | None => []
  end /\
  constructions (emitted s (loadJobs W s).2) = [] /\
  attachments (emitted s (loadJobs W s).2) = [].
Proof.
  destruct (loadJobs_frame W s) as (evs & (Ht & _) & Hk).
  rewrite (emitted_app _ _ _ Ht).
  destruct (housekeeping_projections evs Hk) as (D & C & A).
  unfold discoveries, constructions, attachments in *.
  rewrite !omap_app, D, C, A. unfold load_prefix.
  destruct (data_jobs (config W)); repeat split.
Qed.

(** The trace of [initQueues()], cut into what [loadJobs] emitted and
    the rest. *)
Lemma initQueues_result_emitted (s : State) :
  loads W s ->
  exists logs1 logs2,
    emitted s (initQueues_result W s).2 =
      emitted s (loadJobs W s).2 ++ logs1 ++
      built_events W (next_handle s) ++ logs2 /\
    forallb is_log logs1 = true /\ forallb is_log logs2 = true.
Proof.
  intros Hloads.
  destruct (initQueues_result_facts s Hloads) as (l1 & l2 & Ht & H1 & H2 & _).
  destruct (loadJobs_frame W s) as (evs & (Hl & _) & _).
  exists l1, l2. split; [|auto].
  rewrite (emitted_app _ _ _ Hl).
  apply emitted_app. rewrite Ht, Hl, <- !app_assoc. reflexivity.
Qed.

Lemma initQueues_rebuilds (depth : nat) (s : State) :
  loads W s ->
  exists (t : Target) (s' : State),
    initQueues W (S depth) s = Some (Normal t, s') /\
    isInitialized s' = true /\
    discoveries (emitted s s') =
      match data_jobs (config W) with
      | Some jobs => [jobsPath W jobs]
      | None => []
      end /\
    (constructions (emitted s s')).*2 = configured_names W /\
    (constructions (emitted s s')).*1 =
      seq (next_handle s) (length (configured_names W)) /\
    attachments (emitted s s') =
      seq (next_handle s) (length (configured_names W)) /\
    (forall n, n ∈ configured_names W ->
       exists h, queueMap s' !! n = Some h /\ (next_handle s <= h)%nat) /\
    (forall n, n ∉ configured_names W -> queueMap s' !! n = queueMap s !! n).
Proof.
  intros Hloads.
  destruct (initQueues_result_facts s Hloads)
    as (l1 & l2 & _ & _ & _ & Hr & Hq & Hi & _).
  exists (if negb (isInitialized s) && no_queues_configured W
          then EmptyObject else QueuesProxy), (initQueues_result W s).2.
  split.
  { rewrite initQueues_eq. rewrite <- Hr.
    destruct (initQueues_result W s); reflexivity. }
  destruct (initQueues_result_emitted s Hloads) as (k1 & k2 & He & H1 & H2).
  destruct (is_log_projections k1 H1) as (D1 & _ & C1 & A1 & _).
  destruct (is_log_projections k2 H2) as (D2 & _ & C2 & A2 & _).
  destruct (built_events_projections (next_handle s))
    as (DB & CB2 & CB1 & AB & _).
  destruct (loadJobs_discoveries s) as (DL & CL & AL).
  split; [exact Hi|]. rewrite He, Hq.
  unfold discoveries, constructions, attachments in *.
  rewrite !omap_app, !fmap_app, DL, CL, AL, D1, C1, A1, D2, C2, A2,
    DB, CB2, CB1, AB.
  cbn. rewrite !app_nil_r.
  repeat split.
  - intros n Hn.
    destruct (loop_map_lookup_in (next_handle s) _ (queueMap s) n Hn)
      as (h & Hl & Hb).
    exists h. split; [exact Hl | lia].
  - intros n Hn. apply loop_map_lookup_notin, Hn.
Qed.

(** When [loadJobs] throws, [initQueues()] throws the same error and has
    done nothing but that discovery run. *)
Lemma initQueues_fails (depth : nat) (s : State) (e : Error) :
  (loadJobs W s).1 = Abrupt e ->
  exists s' : State,
    initQueues W (S depth) s = Some (Abrupt e, s') /\
    isInitialized s' = isInitialized s /\
    queueMap s' = queueMap s /\
    next_handle s' = next_handle s /\
    constructions (emitted s s') = [] /\
    attachments (emitted s s') = [].
Proof.
  intros Hthrows. exists (loadJobs W s).2.
  rewrite initQueues_eq, (initQueues_result_throws s e Hthrows).
  destruct (loadJobs_frame W s) as (evs & (Ht & Hq & Hi & Hn) & Hk).
  destruct (loadJobs_discoveries s) as (_ & C & A).
  repeat split; assumption.
Qed.

(** X8: A direct call of [initQueues()] throws exactly when its
    [loadJobs] call throws, and has then built nothing and left the flag
    and the cache alone.  Otherwise it returns, and it is not idempotent:
    whatever the flag and the cache say, every call lists the jobs
    directory again (when a jobs section exists), builds a new queue and
    attaches a new consumer for each configured name, and overwrites the
    cached handles of those names with the new ones.  The flag is set
    afterwards; names that are not configured keep their cache entry. *)
Theorem initQueues_always_rebuilds (depth : nat) (s : State) :
  (forall e : Error,
     (loadJobs W s).1 = Abrupt e ->
     exists s' : State,
       initQueues W (S depth) s = Some (Abrupt e, s') /\
       isInitialized s' = isInitialized s /\
       queueMap s' = queueMap s /\
       next_handle s' = next_handle s /\
       constructions (emitted s s') = [] /\
       attachments (emitted s s') = []) /\
  (loads W s ->
   exists (t : Target) (s' : State),
     initQueues W (S depth) s = Some (Normal t, s') /\
     isInitialized s' = true /\
     discoveries (emitted s s') =
       match data_jobs (config W) with
       | Some jobs => [jobsPath W jobs]
       | None => []
       end /\
     (constructions (emitted s s')).*2 = configured_names W /\
     (constructions (emitted s s')).*1 =
       seq (next_handle s) (length (configured_names W)) /\
     attachments (emitted s s') =
       seq (next_handle s) (length (configured_names W)) /\
     (forall n, n ∈ configured_names W ->
        exists h, queueMap s' !! n = Some h /\ (next_handle s <= h)%nat) /\
     (forall n, n ∉ configured_names W -> queueMap s' !! n = queueMap s !! n)).
Proof.
  split.
  - exact (initQueues_fails depth s).
  - exact (initQueues_rebuilds depth s).
Qed.

Lemma init_queues_loaded_result_cache_empty (s : State) :
  queueMap (init_queues_loaded_result W s).2 = ∅ ->
  no_queues_configured W = true /\ queueMap s = ∅.
Proof.
  destruct (init_queues_loaded_result_facts s)
    as (l1 & l2 & _ & _ & _ & _ & Hq & _).
  rewrite Hq. intros Hempty.
  destruct (configured_names W) as [|n names] eqn:Hnames.
  - split; [apply no_queues_configured_names, Hnames | exact Hempty].
  - exfalso. exact (loop_map_cons_nonempty _ n names _ Hempty).
Qed.

(** What an access to [queues] that completes has done. *)
Lemma proxy_get_returns (depth : nat) (prop : string) (s : State) r s' :
  proxy_get W depth prop s = Some (r, s') ->
  if (length (Object_values (queueMap s)) =? 0)%nat
  then s' = (initQueues_result W s).2 /\
       r = match (initQueues_result W s).1 with
           | Normal _ => Normal (get_property (queueMap s') prop)
           | Abrupt e => Abrupt e
           end
  else s' = s /\ r = Normal (get_property (queueMap s) prop).
Proof.
  destruct depth as [|depth]; [discriminate|].
  rewrite proxy_get_S.
  destruct (length (Object_values (queueMap s)) =? 0)%nat eqn:Hempty.
  - intros Hrun.
    apply bindR_Some in Hrun as [(e & Hi & ->)|(t & s1 & Hi & Hk)].
    + apply initQueues_with_returns in Hi. rewrite <- Hi. auto.
    + apply initQueues_with_returns in Hi.
      destruct (loads_or_throws W s) as [Hloads|(e & Hthrows)].
      2:{ rewrite (initQueues_result_throws s e Hthrows) in Hi.
          discriminate Hi. }
      rewrite <- Hi. cbn [fst snd].
      rewrite (initQueues_result_loaded s Hloads) in Hi.
      injection Hi as -> ->.
      destruct (init_queues_loaded_result_facts (loadJobs W s).2)
        as (l1 & l2 & _ & _ & _ & Ht & Hq & Hinit & _ & _ & Hcache).
      destruct (init_queues_loaded_result W (loadJobs W s).2).1 eqn:Htarget.
      * injection Hk as <- <-. split; [reflexivity|].
        destruct (negb (isInitialized (loadJobs W s).2) &&
                  no_queues_configured W) eqn:Hc; [|discriminate Ht].
        apply andb_prop in Hc as [_ Hnq].
        rewrite Hq, (proj1 no_queues_configured_names Hnq). cbn.
        destruct (loadJobs_frame W s) as (evs & (_ & Hq0 & _) & _).
        rewrite Hq0, (proj1 (Object_values_empty _) Hempty). reflexivity.
      * destruct (decide (queueMap (init_queues_loaded_result W
                                      (loadJobs W s).2).2 = ∅))
          as [Hstill|Hfull].
        -- destruct (init_queues_loaded_result_cache_empty _ Hstill)
             as [Hnq _].
           rewrite (proxy_get_never_returns W depth prop _ Hnq Hinit Hstill)
             in Hk; [discriminate Hk|].
           apply (loads_again W s _ Hloads). exact Hcache.
        -- destruct depth as [|depth]; [discriminate Hk|].
           rewrite proxy_get_cached in Hk by exact Hfull.
           injection Hk as <- <-. auto.
  - intros [= <- <-]. auto.
Qed.

(** X9: An access to [queues] that completes either returns what the
    object then has under the name (the cached handle, or the member of
    [Object.prototype] of that name), or throws the error that [loadJobs]
    threw, which happens only on an empty cache.  It has run at most one
    initialisation pass: none when the cache held a handle (the state is
    then unchanged), and otherwise exactly what one direct call of
    [initQueues()] does. *)
Theorem access_initialises_at_most_once (depth : nat) (prop : string)
    (s : State) (r : Completion (Property Handle)) (s' : State) :
  proxy_get W depth prop s = Some (r, s') ->
  (r = Normal (get_property (queueMap s') prop) \/
   exists e, r = Abrupt e /\ (loadJobs W s).1 = Abrupt e /\ queueMap s = ∅) /\
  (queueMap s <> ∅ -> s' = s) /\
  (queueMap s = ∅ -> exists t, initQueues W 1 s = Some (t, s')) /\
  (length (discoveries (emitted s s')) <= 1)%nat /\
  (length (constructions (emitted s s')) <= length (configured_names W))%nat.
Proof.
  intros Hrun. apply proxy_get_returns in Hrun.
  destruct (length (Object_values (queueMap s)) =? 0)%nat eqn:Hempty.
  - apply Object_values_empty in Hempty. destruct Hrun as [-> ->].
    split; [|split; [intros Hne; contradiction|split]].
    + destruct (loads_or_throws W s) as [Hloads|(e & Hthrows)].
      * left. rewrite (initQueues_result_loaded s Hloads). reflexivity.
      * right. exists e. rewrite (initQueues_result_throws s e Hthrows).
        auto.
    + intros _. exists (initQueues_result W s).1. rewrite initQueues_eq.
      destruct (initQueues_result W s); reflexivity.
    + destruct (loads_or_throws W s) as [Hloads|(e & Hthrows)].
      * destruct (initQueues_rebuilds 0 s Hloads)
          as (t & s1 & Hi & _ & D & C2 & _).
        rewrite initQueues_eq in Hi.
        assert (Hs : (initQueues_result W s).2 = s1)
          by (injection Hi as Hi; rewrite Hi; reflexivity).
        rewrite Hs, D. split.
        -- destruct (data_jobs (config W)); cbn; lia.
        -- rewrite <- C2, length_fmap. lia.
      * rewrite (initQueues_result_throws s e Hthrows). cbn [snd].
        destruct (loadJobs_discoveries s) as (D & C & _).
        rewrite D, C. split; [destruct (data_jobs (config W)); cbn; lia|].
        cbn. lia.
  - destruct Hrun as [-> ->]. split; [left; reflexivity|].
    split; [reflexivity|].
    split.
    + intros Hq. apply Object_values_empty in Hq. congruence.
    + rewrite (emitted_app s s []) by (rewrite app_nil_r; reflexivity).
      cbn. split; lia.
Qed.

(** X10: Reading [queues] completes (from depth 2 on: it returns, or throws
    the error of [loadJobs]) in every situation but one: an empty cache
    with no queue configured, the flag already set, and a [loadJobs] that
    comes back.  In that situation it completes at no depth. *)
Theorem access_returns_iff (depth : nat) (prop : string) (s : State) :
  ((exists r s', proxy_get W (S (S depth)) prop s = Some (r, s')) <->
   ~ access_stuck W s) /\
  (access_stuck W s -> forall d, proxy_get W d prop s = None).
Proof.
  assert (Hstuck : access_stuck W s -> forall d, proxy_get W d prop s = None).
  { intros (Hq & Hnq & Hinit & Hloads) d.
    exact (proxy_get_never_returns W d prop s Hnq Hinit Hq Hloads). }
  split; [|exact Hstuck]. split.
  - intros (r & s' & Hrun) Hs. rewrite (Hstuck Hs) in Hrun. discriminate.
  - intros Hfree.
    destruct (decide (queueMap s = ∅)) as [Hq|Hq].
    + destruct (loads_or_throws W s) as [Hloads|(e & Hthrows)].
      * rewrite proxy_get_S, (proj2 (Object_values_empty _) Hq).
        change (initQueues_with W (proxy_get W (S depth)) s)
          with (initQueues W (S depth) s).
        rewrite initQueues_eq, (initQueues_result_loaded s Hloads).
        cbn [bindR].
        destruct (init_queues_loaded_result_facts (loadJobs W s).2)
          as (l1 & l2 & _ & _ & _ & Ht & Hc & _).
        destruct (init_queues_loaded_result W (loadJobs W s).2).1; [eauto|].
        rewrite proxy_get_cached; [eauto|].
        intros Hstill.
        destruct (init_queues_loaded_result_cache_empty _ Hstill)
          as [Hnq _].
        rewrite Hnq, andb_true_r in Ht.
        destruct (loadJobs_frame W s) as (evs & (_ & _ & Hi & _) & _).
        rewrite Hi in Ht.
        destruct (isInitialized s) eqn:Hinit; [|discriminate Ht].
        apply Hfree. repeat split; assumption.
      * rewrite (proxy_get_throws W (S depth) prop s e Hq Hthrows). eauto.
    + rewrite proxy_get_cached by exact Hq. eauto.
Qed.

End IndexExtras.

Lemma initQueues_always_rebuilds_witness :
  exists (t : Target) (s' : State),
    initQueues world_emails 1 after_first_lookup = Some (Normal t, s') /\
    isInitialized s' = true /\
    discoveries (emitted after_first_lookup s') = ["/app/jobs"] /\
    (constructions (emitted after_first_lookup s')).*2 = ["emails"; "default"] /\
    (constructions (emitted after_first_lookup s')).*1 = [2%nat; 3%nat] /\
    attachments (emitted after_first_lookup s') = [2%nat; 3%nat] /\
    (forall n, n ∈ ["emails"; "default"] ->
       exists h, queueMap s' !! n = Some h /\ (2 <= h)%nat) /\
    (forall n, n ∉ ["emails"; "default"] ->
       queueMap s' !! n = queueMap after_first_lookup !! n).
Proof.
  exact (proj2 (initQueues_always_rebuilds world_emails 0 after_first_lookup)
           (world_with_loads _ _ _)).
Defined.

Lemma access_initialises_at_most_once_witness :
  (Normal (Own 0%nat) =
     Normal (get_property (queueMap after_first_lookup) "emails") \/
   exists e, Normal (Own 0%nat) = Abrupt e /\
             (loadJobs world_emails initial).1 = Abrupt e /\
             queueMap initial = ∅) /\
  (queueMap initial <> ∅ -> after_first_lookup = initial) /\
  (queueMap initial = ∅ ->
   exists t, initQueues world_emails 1 initial =
             Some (t, after_first_lookup)) /\
  (length (discoveries (emitted initial after_first_lookup)) <= 1)%nat /\
  (length (constructions (emitted initial after_first_lookup)) <=
   length (configured_names world_emails))%nat.
Proof.
  apply (access_initialises_at_most_once world_emails 2 "emails" initial).
  vm_compute. reflexivity.
Defined.

Lemma access_returns_iff_witness :
  exists r s', proxy_get world_emails 2 "reports" initial = Some (r, s').
Proof.
  apply (proj1 (access_returns_iff world_emails 0 "reports" initial)).
  intros (_ & Hnq & _). discriminate Hnq.
Defined.

(** ** Further properties of job discovery *)

Lemma substring_all (s : string) : String.substring 0 (String.length s) s = s.
Proof. induction s as [|c s IH]; cbn; [reflexivity | rewrite IH; reflexivity]. Qed.

Lemma string_app_cons (c : Ascii.ascii) (a b : string) :
  String c a +:+ b = String c (a +:+ b).
Proof. reflexivity. Qed.

Lemma string_app_nil (b : string) : "" +:+ b = b.
Proof. reflexivity. Qed.

Lemma substring_skip (base suffix : string) :
  String.substring (String.length base) (String.length suffix)
    (base +:+ suffix) = suffix.
Proof.
  induction base as [|c base IH].
  - rewrite string_app_nil. apply substring_all.
  - rewrite string_app_cons. exact IH.
Qed.

Lemma substring_split (s : string) (n : nat) :
  (n <= String.length s)%nat ->
  s = String.substring 0 n s +:+ String.substring n (String.length s - n) s.
Proof.
  revert n. induction s as [|c s IH]; intros n Hn.
  - destruct n; reflexivity.
  - destruct n as [|n]; cbn.
    + rewrite substring_all. reflexivity.
    + cbn in Hn. rewrite string_app_cons. f_equal. apply IH. lia.
Qed.

Lemma app_length_string (a b : string) :
  String.length (a +:+ b) = (String.length a + String.length b)%nat.
Proof.
  induction a as [|c a IH].
  - reflexivity.
  - rewrite string_app_cons. cbn. rewrite IH. reflexivity.
Qed.

(** [endsWith] holds exactly of the strings that are some string followed
    by the suffix. *)
Lemma endsWith_iff (suffix file : string) :
  endsWith suffix file = true <-> exists base, file = base +:+ suffix.
Proof.
  unfold endsWith. rewrite andb_true_iff, Nat.leb_le, String.eqb_eq. split.
  - intros [Hlen Hsub].
    exists (String.substring 0 (String.length file - String.length suffix) file).
    rewrite (substring_split file (String.length file - String.length suffix))
      at 1 by lia.
    f_equal. rewrite <- Hsub at 3. f_equal. lia.
  - intros [base ->]. rewrite app_length_string. split; [lia|].
    replace (String.length base + String.length suffix - String.length suffix)%nat
      with (String.length base) by lia.
    apply substring_skip.
Qed.

(** X11: The filter of [loadJobs] keeps exactly the names that end in [.ts]
    or [.js]; this includes a file named just [.ts], declaration files
    ([x.d.ts]) and test files ([x.test.ts]), and excludes names in another
    letter case ([x.TS]). *)
Theorem is_script_iff (file : string) :
  is_script file = true <->
  exists base, file = base +:+ ".ts" \/ file = base +:+ ".js".
Proof.
  unfold is_script. rewrite orb_true_iff, !endsWith_iff. split.
  - intros [[base ->]|[base ->]]; exists base; auto.
  - intros [base [->| ->]]; [left | right]; exists base; reflexivity.
Qed.

Example is_script_edge_cases :
  List.map is_script
    [".ts"; "Job.d.ts"; "Job.test.ts"; "Job.TS"; "Job.tsx"; "Job.json";
     "js"; ""] =
  [true; true; true; false; false; false; false; false].
Proof. reflexivity. Qed.

Section DiscoveryExtras.

Context (W : World).

Lemma require_facts (path : string) (s : State) :
  trace (require W path s).2 = trace s ++ [EvRequire path] /\
  ((require W path s).1 = Normal tt -> path ∈ require_cache (require W path s).2).
Proof.
  destruct (require_frame W path s) as (Ht & _). split; [exact Ht|].
  unfold require. case_bool_decide as Hc; cbn [fst snd].
  - intros _. exact Hc.
  - destruct (throws (module_top_level W path)); cbn [fst snd];
      [discriminate|].
    intros _. cbn. apply elem_of_union. left. apply elem_of_singleton.
    reflexivity.
Qed.

(** [require_all] loads a prefix of the list, in order: all of it when it
    completes. *)
Lemma require_all_trace (jobsPath : string) (files : list string) (s : State) :
  exists k : nat,
    (k <= length files)%nat /\
    trace (require_all W jobsPath files s).2 =
      trace s ++ ((fun f => EvRequire (join W jobsPath f)) <$> take k files) /\
    ((require_all W jobsPath files s).1 = Normal tt -> k = length files).
Proof.
  revert s. induction files as [|file files IH]; intros s; cbn [require_all].
  - exists 0%nat. cbn. rewrite app_nil_r. repeat split. lia.
  - destruct (require_facts (join W jobsPath file) s) as (Ht & _).
    destruct (require W (join W jobsPath file) s) as [[[]|e] s1];
      cbn [fst snd] in *.
    + destruct (IH s1) as (k & Hk & Ht' & Hall).
      exists (S k). cbn. rewrite Ht', Ht, <- app_assoc.
      repeat split; [lia|]. intros Hn. rewrite (Hall Hn). reflexivity.
    + exists 1%nat. cbn. rewrite take_0.
      repeat split; [lia | exact Ht | discriminate].
Qed.

Lemma requires_fmap (jobsPath : string) (files : list string) :
  requires ((fun f => EvRequire (join W jobsPath f)) <$> files) =
  join W jobsPath <$> files.
Proof.
  induction files as [|f files IH]; cbn; [reflexivity|].
  unfold requires in IH. rewrite IH. reflexivity.
Qed.

Lemma requires_app (t1 t2 : list Event) :
  requires (t1 ++ t2) = requires t1 ++ requires t2.
Proof. unfold requires. apply omap_app. Qed.

Lemma logged_app (lvl : Level) (t1 t2 : list Event) :
  logged lvl (t1 ++ t2) = logged lvl t1 ++ logged lvl t2.
Proof. unfold logged. apply omap_app. Qed.


(** What [loadJobs] does once the directory has been listed. *)
Lemma loadJobs_listed (jobs : JobsConfig) (files : list string) (s : State) :
  data_jobs (config W) = Some jobs ->
  readdirSync W (jobsPath W jobs) = Files files ->
  let s1 :=
    emit (EvReadDir (jobsPath W jobs))
      (emit (EvLog Info MsgLoadingJobs false) s) in
  let loaded :=
    require_all W (jobsPath W jobs) (List.filter is_script files) s1 in
  loadJobs W s =
  match loaded.1 with
  | Normal _ =>
      (Normal tt,
       emit (EvLog Info (MsgJobs (dom (Config_jobs loaded.2))) false) loaded.2)
  | Abrupt error =>
      match message_of error with
      | Abrupt e => (Abrupt e, loaded.2)
      | Normal message =>
          (Normal tt,
           emit (EvLog Err (MsgErrorLoadingJobs message) true) loaded.2)
      end
  end.
Proof.
  intros Hjobs Hread s1 loaded. subst s1 loaded.
  unfold loadJobs, load_listed. rewrite Hjobs, Hread.
  destruct (require_all W (jobsPath W jobs) (List.filter is_script files) _)
    as [[[]|error] s2]; reflexivity.
Qed.

(** What [loadJobs] does when the directory cannot be listed. *)
Lemma loadJobs_unlisted (jobs : JobsConfig) (code : string) (s : State) :
  data_jobs (config W) = Some jobs ->
  readdirSync W (jobsPath W jobs) = Fails code ->
  loadJobs W s =
  (Normal tt,
   emit (EvLog Err (MsgErrorLoadingJobs (SystemError code)) true)
     (emit (EvReadDir (jobsPath W jobs))
        (emit (EvLog Info MsgLoadingJobs false) s))).
Proof.
  intros Hjobs Hread. unfold loadJobs, load_listed. rewrite Hjobs, Hread.
  reflexivity.
Qed.

Lemma loadJobs_listed_emitted (jobs : JobsConfig) (files : list string)
    (s : State) :
  data_jobs (config W) = Some jobs ->
  readdirSync W (jobsPath W jobs) = Files files ->
  exists (k : nat) (last : list Event),
    emitted s (loadJobs W s).2 =
      [EvLog Info MsgLoadingJobs false; EvReadDir (jobsPath W jobs)] ++
      ((fun f => EvRequire (join W (jobsPath W jobs) f)) <$>
         take k (List.filter is_script files)) ++ last /\
    requires last = [].
Proof.
  intros Hjobs Hread. rewrite (loadJobs_listed jobs files s Hjobs Hread).
  destruct (require_all_trace (jobsPath W jobs) (List.filter is_script files)
              (emit (EvReadDir (jobsPath W jobs))
                 (emit (EvLog Info MsgLoadingJobs false) s)))
    as (k & _ & Ht & _).
  exists k.
  destruct (require_all W (jobsPath W jobs) (List.filter is_script files) _)
    as [[[]|error] s2]; cbn [fst snd] in *.
  - exists [EvLog Info (MsgJobs (dom (Config_jobs s2))) false].
    split; [|reflexivity].
    apply emitted_app. cbn. rewrite Ht. cbn. rewrite <- !app_assoc.
    reflexivity.
  - destruct (message_of error) as [message|e]; cbn [snd].
    + exists [EvLog Err (MsgErrorLoadingJobs message) true].
      split; [|reflexivity].
      apply emitted_app. cbn. rewrite Ht. cbn. rewrite <- !app_assoc.
      reflexivity.
    + exists []. split; [|reflexivity].
      apply emitted_app. rewrite Ht. cbn. rewrite <- !app_assoc, app_nil_r.
      reflexivity.
Qed.

Lemma loadJobs_requires (s : State) (path : string) :
  path ∈ requires (emitted s (loadJobs W s).2) ->
  exists jobs files file,
    data_jobs (config W) = Some jobs /\
    readdirSync W (jobsPath W jobs) = Files files /\
    file ∈ files /\ is_script file = true /\
    path = join W (jobsPath W jobs) file.
Proof.
  destruct (data_jobs (config W)) as [jobs|] eqn:Hjobs.
  - destruct (readdirSync W (jobsPath W jobs)) as [files|code] eqn:Hread.
    + destruct (loadJobs_listed_emitted jobs files s Hjobs Hread)
        as (k & last & He & Hlast).
      rewrite He, !requires_app, requires_fmap, Hlast. cbn.
      rewrite app_nil_r.
      intros (file & -> & Hfile)%list_elem_of_fmap.
      apply subseteq_take in Hfile.
      apply list_elem_of_In, filter_In in Hfile as [Hfile Hs].
      apply list_elem_of_In in Hfile.
      exists jobs, files, file. auto.
    + rewrite (loadJobs_unlisted jobs code s Hjobs Hread). cbn [snd].
      erewrite emitted_app; [|cbn; rewrite <- !app_assoc; reflexivity].
      cbn. intros Hin. apply elem_of_nil in Hin. contradiction.
  - unfold loadJobs. rewrite Hjobs. cbn [snd].
    rewrite (emitted_app s s []) by (rewrite app_nil_r; reflexivity).
    cbn. intros Hin. apply elem_of_nil in Hin. contradiction.
Qed.

(** X12: [loadJobs] requires only [join(jobsPath, file)] for files that
    the listing of [jobsPath = resolve(process.cwd(), dir)] contains and
    whose name ends in [.ts] or [.js]; without a jobs section, or when
    the listing fails, it loads nothing. *)
Theorem loadJobs_requires_only_listed_scripts (s : State) (path : string) :
  path ∈ requires (emitted s (loadJobs W s).2) ->
  exists jobs files file,
    data_jobs (config W) = Some jobs /\
    readdirSync W (path_resolve W (process_cwd W) (dir jobs)) = Files files /\
    file ∈ files /\ is_script file = true /\
    path = join W (path_resolve W (process_cwd W) (dir jobs)) file.
Proof. exact (loadJobs_requires s path). Qed.







(** X15: An unreadable jobs directory is not fatal: [initQueues()] logs the
    error, loads no file and leaves the registry alone, and still builds
    a queue for every configured name. *)
Theorem initQueues_with_unreadable_directory (jobs : JobsConfig)
    (code : string) (depth : nat) (s : State) :
  data_jobs (config W) = Some jobs ->
  readdirSync W (path_resolve W (process_cwd W) (dir jobs)) = Fails code ->
  exists (t : Target) (s' : State),
    initQueues W (S depth) s = Some (Normal t, s') /\
    Config_jobs s' = Config_jobs s /\
    requires (emitted s s') = [] /\
    logged Err (emitted s s') = [MsgErrorLoadingJobs (SystemError code)] /\
    (constructions (emitted s s')).*2 = configured_names W.
Proof.
  intros Hjobs Hread.
  assert (Hloads : loads W s).
  { unfold loads. rewrite (loadJobs_unlisted jobs code s Hjobs Hread).
    reflexivity. }
  destruct (initQueues_rebuilds W depth s Hloads)
    as (t & s' & Hrun & _ & _ & HC & _).
  exists t, s'. split; [exact Hrun|].
  rewrite initQueues_eq in Hrun.
  assert (Hs : (initQueues_result W s).2 = s')
    by (injection Hrun as Hrun; rewrite Hrun; reflexivity).
  subst s'.
  split; [|split; [|split; [|exact HC]]].
  - destruct (initQueues_result_facts W s Hloads)
      as (l1 & l2 & _ & _ & _ & _ & _ & _ & _ & Hc & _).
    rewrite Hc, (loadJobs_unlisted jobs code s Hjobs Hread). reflexivity.
  - destruct (initQueues_result_emitted W s Hloads)
      as (k1 & k2 & He & H1 & H2).
    destruct (is_log_projections k1 H1) as (_ & R1 & _).
    destruct (is_log_projections k2 H2) as (_ & R2 & _).
    destruct (built_events_projections W (next_handle s))
      as (_ & _ & _ & _ & RB & _).
    rewrite He, !requires_app, R1, R2, RB.
    rewrite (loadJobs_unlisted jobs code s Hjobs Hread). cbn [snd].
    erewrite emitted_app; [|cbn; rewrite <- !app_assoc; reflexivity].
    reflexivity.
  - destruct (initQueues_result_emitted W s Hloads)
      as (k1 & k2 & He & H1 & H2).
    destruct (is_log_projections k1 H1) as (_ & _ & _ & _ & _ & _ & L1).
    destruct (is_log_projections k2 H2) as (_ & _ & _ & _ & _ & _ & L2).
    destruct (built_events_projections W (next_handle s))
      as (_ & _ & _ & _ & _ & _ & _ & LB).
    rewrite He, !logged_app, L1, L2, LB.
    rewrite (loadJobs_unlisted jobs code s Hjobs Hread). cbn [snd].
    erewrite emitted_app; [|cbn; rewrite <- !app_assoc; reflexivity].
    reflexivity.
Qed.

End DiscoveryExtras.

Lemma is_script_iff_witness : is_script "SendEmailJob.test.ts" = true.
Proof.
  apply (is_script_iff "SendEmailJob.test.ts").
  exists "SendEmailJob.test". left. reflexivity.
Defined.

Lemma loadJobs_requires_only_listed_scripts_witness :
  exists jobs files file,
    data_jobs (config world_broken_file) = Some jobs /\
    readdirSync world_broken_file
      (path_resolve world_broken_file (process_cwd world_broken_file)
         (dir jobs)) = Files files /\
    file ∈ files /\ is_script file = true /\
    "/app/jobs/Plain.js" =
      join world_broken_file
        (path_resolve world_broken_file (process_cwd world_broken_file)
           (dir jobs)) file.
Proof.
  apply (loadJobs_requires_only_listed_scripts world_broken_file initial
           "/app/jobs/Plain.js").
  vm_compute. apply list_elem_of_further, list_elem_of_here.
Defined.



Lemma initQueues_with_unreadable_directory_witness :
  exists (t : Target) (s' : State),
    initQueues world_unreadable 1 initial = Some (Normal t, s') /\
    Config_jobs s' = Config_jobs initial /\
    requires (emitted initial s') = [] /\
    logged Err (emitted initial s') =
      [MsgErrorLoadingJobs (SystemError "ENOENT")] /\
    (constructions (emitted initial s')).*2 =
      configured_names world_unreadable.
Proof.
  exact (initQueues_with_unreadable_directory world_unreadable
           {| dir := "./missing"; queues := Some ["default"];
              options := None |}
           "ENOENT" 0 initial eq_refl eq_refl).
Defined.

Example rerun_keeps_override :
  let s2 :=
    register SendEmailJob_override (loadJobs world_emails initial).2 in
  option_map class_name
    (Config_jobs (loadJobs world_emails initial).2 !! "SendEmailJob")
    = Some "SendEmailJob" /\
  option_map init_queueName
    (Config_jobs (loadJobs world_emails s2).2 !! "SendEmailJob")
    = Some (Some "default").
Proof. vm_compute. split; reflexivity. Qed.

(** A file that registers its class and then throws is run again by every
    later discovery: the class registered by hand under the same name in
    between is replaced. *)
Example rerun_after_failed_load_overwrites :
  let W := world_registers_then_throws in
  let s2 := register SendEmailJob_override (loadJobs W initial).2 in
  logged Err (trace (loadJobs W initial).2) =
    [MsgErrorLoadingJobs (PlainError "late")] /\
  require_cache (loadJobs W initial).2 = ∅ /\
  option_map init_queueName (Config_jobs s2 !! "SendEmailJob")
    = Some (Some "default") /\
  option_map init_queueName
    (Config_jobs (loadJobs W s2).2 !! "SendEmailJob")
    = Some (Some "emails").
Proof. vm_compute. repeat split. Qed.

(** ** The proxy's [set] trap and the worker loop *)

Section ProxyExtras.

Context (W : World).

(** X16: A queue stored through the proxy is read back, and from then on no
    access through the proxy initialises anything: the state stays as the
    assignment left it, so no job file is discovered and no consumer is
    attached on that path. *)
Theorem assigned_queue_suppresses_initialisation (depth : nat)
    (prop : string) (h : Handle) (props : list string) (s : State) :
  let s' := proxy_set prop h s in
  proxy_get W (S depth) prop s' = Some (Normal (Own h), s') /\
  lookups W (S depth) props s' =
    Some (Normal (get_property (queueMap s') <$> props), s').
Proof.
  intros s'.
  assert (Hfull : queueMap s' <> ∅) by (subst s'; cbn; apply insert_non_empty).
  split.
  - rewrite proxy_get_cached by exact Hfull. subst s'. cbn.
    unfold get_property. rewrite lookup_insert_eq. reflexivity.
  - apply lookups_cached, Hfull.
Qed.

Lemma consumer_catch_leaves_alone (job : string) (error : Error) (s : State) :
  let s' := (consumer_catch job error s).2 in
  (Config_jobs s' = Config_jobs s /\ queueMap s' = queueMap s /\
   isInitialized s' = isInitialized s /\ next_handle s' = next_handle s /\
   require_cache s' = require_cache s) /\
  trace s' = trace s ++ catch_events job error.
Proof.
  intros s'. subst s'. split; [|apply consumer_catch_trace].
  unfold consumer_catch. destruct (message_of error); repeat split.
Qed.

Lemma consumer_leaves_alone (jobObject : JobObject) (s : State) :
  let s' := (consumer jobObject s).2 in
  let evs := emitted s s' in
  (Config_jobs s' = Config_jobs s /\ queueMap s' = queueMap s /\
   isInitialized s' = isInitialized s /\ next_handle s' = next_handle s /\
   require_cache s' = require_cache s) /\
  (constructions evs = [] /\ attachments evs = [] /\
   adds evs = [] /\ closes evs = [] /\ discoveries evs = []) /\
  match get_property (Config_jobs s) (job (data jobObject)) with
  | Own C =>
      handle_calls evs = [(class_name C, payload (data jobObject))] /\
      dones evs = done_calls (handle C (payload (data jobObject)))
  | Inherited _ =>
      handle_calls evs = [] /\
      exists what, dones evs = [Some (TypeError what)]
  | Undefined => handle_calls evs = [] /\ dones evs = []
  end.
Proof.
  intros s' evs. subst evs s'. unfold consumer. cbn [Config_jobs emit].
  destruct (get_property (Config_jobs s) (job (data jobObject)))
    as [C|b|] eqn:Hfound.
  - destruct (handle C (payload (data jobObject))) as [status|error].
    + cbn [snd]. erewrite emitted_app;
        [|cbn; rewrite <- !app_assoc; reflexivity].
      repeat split.
    + match goal with
      | |- context [consumer_catch ?j ?e ?s0] =>
          destruct (consumer_catch_leaves_alone j e s0) as (F & Ht)
      end.
      cbn [Config_jobs queueMap isInitialized next_handle require_cache
           emit trace] in F, Ht.
      erewrite emitted_app; [|rewrite Ht, <- !app_assoc; reflexivity].
      split; [exact F|].
      unfold catch_events, done_calls. destruct (nullish error);
        repeat split.
  - assert (Hcase : forall what s0,
              trace s0 = trace s ++
                [EvLog Info (MsgProcessing (job_id jobObject)
                               (job (data jobObject))) false;
                 EvLog Debug (MsgPayload (payload (data jobObject))) true] ++
                match b with
                | ObjectConstructor => [EvInstantiate "Object"]
                | _ => []
                end ->
              Config_jobs s0 = Config_jobs s -> queueMap s0 = queueMap s ->
              isInitialized s0 = isInitialized s ->
              next_handle s0 = next_handle s ->
              require_cache s0 = require_cache s ->
              let s' := (consumer_catch (job (data jobObject))
                           (TypeError what) s0).2 in
              (Config_jobs s' = Config_jobs s /\ queueMap s' = queueMap s /\
               isInitialized s' = isInitialized s /\
               next_handle s' = next_handle s /\
               require_cache s' = require_cache s) /\
              (constructions (emitted s s') = [] /\
               attachments (emitted s s') = [] /\
               adds (emitted s s') = [] /\ closes (emitted s s') = [] /\
               discoveries (emitted s s') = []) /\
              handle_calls (emitted s s') = [] /\
              exists what', dones (emitted s s') = [Some (TypeError what')]).
    { intros what s0 Ht HC HQ HI HN HR s'. subst s'.
      destruct (consumer_catch_leaves_alone (job (data jobObject))
                  (TypeError what) s0) as ((FC & FQ & FI & FN & FR) & Ht').
      rewrite FC, FQ, FI, FN, FR, HC, HQ, HI, HN, HR.
      erewrite emitted_app; [|rewrite Ht', Ht, <- !app_assoc; reflexivity].
      destruct b; cbn; repeat split; eauto. }
    destruct b; apply Hcase; cbn; rewrite <- ?app_assoc; reflexivity.
  - cbn [snd]. erewrite emitted_app;
      [|cbn; rewrite <- !app_assoc; reflexivity].
    repeat split.
Qed.


End ProxyExtras.

(** ** What every operation preserves *)

Section Growth.

Context (W : World).

Lemma grows_refl (s : State) : grows s s.
Proof. unfold grows. repeat split; auto. Qed.

Lemma grows_trans (s1 s2 s3 : State) :
  grows s1 s2 -> grows s2 s3 -> grows s1 s3.
Proof.
  intros (T1 & N1 & I1 & Q1 & C1 & R1) (T2 & N2 & I2 & Q2 & C2 & R2).
  unfold grows. repeat split.
  - etrans; eassumption.
  - lia.
  - auto.
  - etrans; eassumption.
  - etrans; eassumption.
  - etrans; eassumption.
Qed.

Lemma grows_emit (e : Event) (s : State) : grows s (emit e s).
Proof.
  unfold grows. cbn. repeat split; auto. apply prefix_app_r. reflexivity.
Qed.

Lemma grows_emit_r (e : Event) (s s' : State) :
  grows s s' -> grows s (emit e s').
Proof. intros G. eapply grows_trans; [exact G | apply grows_emit]. Qed.

Lemma grows_bump (s : State) :
  grows s (set_next_handle (S (next_handle s)) s).
Proof. unfold grows. cbn. repeat split; auto. Qed.

Lemma grows_register (C : JobClass) (s : State) : grows s (register C s).
Proof.
  unfold grows, register. cbn. repeat split; auto.
  apply dom_insert_subseteq.
Qed.

Lemma grows_registers (classes : list JobClass) (s : State) :
  grows s (foldl (fun s C => register C s) s classes).
Proof.
  revert s. induction classes as [|C classes IH]; intros s; cbn.
  - apply grows_refl.
  - eapply grows_trans; [apply grows_register | apply IH].
Qed.

Lemma grows_require (path : string) (s : State) :
  grows s (require W path s).2.
Proof.
  unfold require. case_bool_decide; cbn [snd]; [apply grows_emit|].
  assert (G : grows s
                (foldl (fun s C => register C s) (emit (EvRequire path) s)
                   (registers (module_top_level W path)))).
  { eapply grows_trans; [apply grows_emit | apply grows_registers]. }
  destruct (throws (module_top_level W path)); cbn [snd]; [exact G|].
  eapply grows_trans; [exact G|].
  unfold grows. cbn. repeat split; auto.
  apply union_subseteq_r.
Qed.

Lemma grows_require_all (jobsPath : string) (files : list string) (s : State) :
  grows s (require_all W jobsPath files s).2.
Proof.
  revert s. induction files as [|f files IH]; intros s; cbn [require_all].
  - apply grows_refl.
  - pose proof (grows_require (join W jobsPath f) s) as G.
    destruct (require W (join W jobsPath f) s) as [[[]|e] s1]; cbn [snd] in *.
    + eapply grows_trans; [exact G | apply IH].
    + exact G.
Qed.

Lemma grows_load_listed (path : string) (s : State) :
  grows s (load_listed W path s).2.
Proof.
  unfold load_listed.
  eapply grows_trans; [apply grows_emit|].
  destruct (readdirSync W path) as [files|code]; [|apply grows_refl].
  match goal with
  | |- context [require_all W ?d ?l ?s0] =>
      pose proof (grows_require_all d l s0) as G;
      destruct (require_all W d l s0) as [[[]|error] s2]
  end; cbn [snd] in *; [apply grows_emit_r|]; exact G.
Qed.

Lemma grows_loadJobs (s : State) : grows s (loadJobs W s).2.
Proof.
  unfold loadJobs. destruct (data_jobs (config W)) as [jobs|];
    [|apply grows_refl].
  eapply grows_trans; [apply grows_emit|].
  match goal with
  | |- context [load_listed W ?d ?s0] =>
      pose proof (grows_load_listed d s0) as G;
      destruct (load_listed W d s0) as [[[]|error] s2]
  end; cbn [snd] in *; [exact G|].
  destruct (message_of error); cbn [snd]; [apply grows_emit_r|]; exact G.
Qed.

Lemma grows_new_Queue (qname : string) (o : QueueOptions) (s : State) :
  grows s (new_Queue qname o s).2.
Proof.
  unfold grows. cbn. repeat split; auto. apply prefix_app_r. reflexivity.
Qed.

Lemma grows_proxy_set (prop : string) (h : Handle) (s : State) :
  grows s (proxy_set prop h s).
Proof.
  unfold grows, proxy_set. cbn. repeat split; auto.
  apply dom_insert_subseteq.
Qed.

Lemma grows_loop_state (jobs : JobsConfig) (names : list string) (s : State) :
  grows s (loop_state W jobs names s).
Proof.
  revert s. induction names as [|n names IH]; intros s.
  - apply grows_refl.
  - cbn [loop_state].
    pose proof (grows_new_Queue n (queue_options W jobs) s) as G.
    destruct (new_Queue n (queue_options W jobs) s) as [h s1]. cbn [snd] in G.
    eapply grows_trans; [exact G|].
    eapply grows_trans; [apply grows_proxy_set|].
    eapply grows_trans; [apply grows_emit | apply IH].
Qed.

Lemma grows_set_isInitialized (s : State) :
  grows s (set_isInitialized true s).
Proof. unfold grows. cbn. repeat split; auto. Qed.

Lemma grows_init_queues_tail_result (s : State) :
  grows s (init_queues_tail_result W s).2.
Proof.
  unfold init_queues_tail_result. cbn [snd].
  eapply grows_trans; [apply grows_emit|].
  eapply grows_trans; [|apply grows_emit].
  destruct (data_jobs (config W)) as [jobs|]; [|apply grows_refl].
  destruct (queues jobs) as [names|]; [|apply grows_refl].
  apply grows_loop_state.
Qed.

Lemma grows_init_queues_loaded_result (s : State) :
  grows s (init_queues_loaded_result W s).2.
Proof.
  unfold init_queues_loaded_result.
  destruct (negb (isInitialized s));
    [|apply grows_init_queues_tail_result].
  eapply grows_trans; [apply grows_emit|].
  destruct (no_queues_configured W); cbn [snd].
  - eapply grows_trans; [apply grows_emit | apply grows_set_isInitialized].
  - eapply grows_trans; [apply grows_emit|].
    eapply grows_trans; [apply grows_set_isInitialized|].
    apply grows_init_queues_tail_result.
Qed.

Lemma grows_initQueues_result (s : State) :
  grows s (initQueues_result W s).2.
Proof.
  unfold initQueues_result.
  pose proof (grows_loadJobs s) as G.
  destruct (loadJobs W s) as [[[]|e] s1]; cbn [snd] in *; [|exact G].
  eapply grows_trans; [exact G | apply grows_init_queues_loaded_result].
Qed.

Lemma proxy_get_state (depth : nat) (prop : string) (s : State) r s' :
  proxy_get W depth prop s = Some (r, s') ->
  s' = if (length (Object_values (queueMap s)) =? 0)%nat
       then (initQueues_result W s).2 else s.
Proof.
  intros Hrun. apply proxy_get_returns in Hrun.
  destruct (length (Object_values (queueMap s)) =? 0)%nat; apply Hrun.
Qed.

Lemma initQueues_state (depth : nat) (s : State) r s' :
  initQueues W depth s = Some (r, s') -> s' = (initQueues_result W s).2.
Proof.
  intros Hrun. apply initQueues_with_returns in Hrun.
  rewrite <- Hrun. reflexivity.
Qed.

Lemma grows_consumer (jobObject : JobObject) (s : State) :
  grows s (consumer jobObject s).2.
Proof.
  assert (Hcatch : forall j e s0, grows s s0 ->
                     grows s (consumer_catch j e s0).2).
  { intros j e s0 G. unfold consumer_catch.
    destruct (message_of e); cbn [snd]; [repeat apply grows_emit_r|];
      exact G. }
  unfold consumer. cbn [Config_jobs emit].
  destruct (get_property (Config_jobs s) (job (data jobObject))) as [C|[]|];
    [destruct (handle C (payload (data jobObject)))| | | |]; cbn [snd];
    try apply Hcatch; repeat apply grows_emit_r; apply grows_refl.
Qed.

Lemma grows_operation (s s' : State) : operation W s s' -> grows s s'.
Proof.
  intros Hop. destruct Hop as
    [C s|depth prop s r s' Hrun|depth s r s' Hrun|s|qname s
    |this payload s|this payload s|jobObject s].
  - apply grows_register.
  - apply proxy_get_state in Hrun as ->.
    destruct (length (Object_values (queueMap s)) =? 0)%nat;
      [apply grows_initQueues_result | apply grows_refl].
  - apply initQueues_state in Hrun as ->.
    apply grows_initQueues_result.
  - apply grows_loadJobs.
  - unfold configureQueue. destruct (data_jobs (config W)) as [jobs|];
      [|apply grows_refl].
    apply grows_new_Queue.
  - unfold dispatch, configureQueue, info.
    destruct (data_jobs (config W)) as [jobs|]; [|apply grows_refl].
    cbn [new_Queue].
    destruct (debug_enabled W); destruct (queue_add W _ _ _);
      cbn [state_after];
      repeat apply grows_emit_r; apply grows_bump.
  - unfold dispatchNow, info. cbn [snd].
    destruct (debug_enabled W);
      repeat apply grows_emit_r; apply grows_refl.
  - apply grows_consumer.
Qed.

Lemma grows_step (s s' : State) : step W s s' -> grows s s'.
Proof.
  intros Hstep. destruct Hstep as [s s' Hop|prop queue s Hlt].
  - exact (grows_operation s s' Hop).
  - apply grows_proxy_set.
Qed.

(** X18: Nothing is ever taken back: along any sequence of operations the log
    is only extended, registered names, cached queue names and loaded
    modules are never removed, the initialisation flag is never reset and
    the handle counter never decreases. *)
Theorem operations_only_add (s s' : State) :
  rtc (step W) s s' -> grows s s'.
Proof.
  intros Hsteps. induction Hsteps as [s|s1 s2 s3 Hstep _ IH].
  - apply grows_refl.
  - eapply grows_trans; [apply grows_step, Hstep | exact IH].
Qed.

End Growth.

Lemma operations_only_add_witness :
  grows initial
    (state_after
       (dispatch world_emails (new_Job SendEmailJob) payload_to
          after_first_lookup)).
Proof.
  apply (operations_only_add world_emails).
  eapply rtc_l.
  - apply step_operation.
    apply (op_lookup world_emails 2 "emails" initial (Normal (Own 0%nat))
             after_first_lookup).
    vm_compute. reflexivity.
  - apply rtc_once, step_operation, op_dispatch.
Defined.

(** ** Handles: consumed from, or closed, never both *)

Section Handles.

Context (W : World).

Lemma emitted_grows (s s' : State) :
  grows s s' -> trace s' = trace s ++ emitted s s'.
Proof.
  intros ([k Hk] & _). unfold emitted. rewrite Hk, drop_app_length.
  reflexivity.
Qed.

Lemma housekeeping_closes (evs : list Event) :
  forallb housekeeping evs = true -> closes evs = [].
Proof.
  induction evs as [|e evs IH]; cbn; [auto|].
  intros [He Hevs]%andb_prop. specialize (IH Hevs).
  destruct e; try discriminate He; exact IH.
Qed.

Lemma loadJobs_quiet (s : State) :
  attachments (emitted s (loadJobs W s).2) = [] /\
  closes (emitted s (loadJobs W s).2) = [] /\
  queueMap (loadJobs W s).2 = queueMap s /\
  next_handle (loadJobs W s).2 = next_handle s.
Proof.
  destruct (loadJobs_frame W s) as (evs & (Ht & Hq & _ & Hn) & Hk).
  rewrite (emitted_app _ _ _ Ht).
  destruct (housekeeping_projections evs Hk) as (_ & _ & A).
  pose proof (housekeeping_closes evs Hk) as C.
  unfold attachments, closes in *. rewrite !omap_app, A, C.
  unfold load_prefix. destruct (data_jobs (config W)); auto.
Qed.

(** A change that attaches and closes nothing and leaves the cache and
    the counter alone. *)
Lemma step_delta_quiet (s s' : State) :
  grows s s' ->
  attachments (emitted s s') = [] ->
  closes (emitted s s') = [] ->
  queueMap s' = queueMap s ->
  step_delta s s' (emitted s s') /\ cache_delta s s' (emitted s s').
Proof.
  intros G A C Q. unfold step_delta, cache_delta. rewrite A, C, Q.
  split; [|auto].
  split; [apply emitted_grows, G|].
  split; [apply G|].
  repeat split; auto.
  intros h Hin. apply elem_of_nil in Hin. contradiction.
Qed.

Lemma step_delta_initQueues_result (s : State) :
  step_delta s (initQueues_result W s).2
    (emitted s (initQueues_result W s).2) /\
  cache_delta s (initQueues_result W s).2
    (emitted s (initQueues_result W s).2).
Proof.
  pose proof (grows_initQueues_result W s) as G.
  destruct (loads_or_throws W s) as [Hloads|(e & Hthrows)].
  2:{ rewrite (initQueues_result_throws W s e Hthrows) in *. cbn [snd] in *.
      destruct (loadJobs_quiet s) as (A & C & Q & _).
      apply step_delta_quiet; assumption. }
  destruct (initQueues_result_facts W s Hloads)
    as (l1 & l2 & _ & _ & _ & _ & Hq & _ & Hn & _).
  destruct (initQueues_result_emitted W s Hloads)
    as (k1 & k2 & He & H1 & H2).
  destruct (is_log_projections k1 H1) as (_ & _ & _ & A1 & _ & C1 & _).
  destruct (is_log_projections k2 H2) as (_ & _ & _ & A2 & _ & C2 & _).
  destruct (built_events_projections W (next_handle s))
    as (_ & _ & _ & AB & _ & _ & CB & _).
  destruct (loadJobs_quiet s) as (AL & CL & _).
  assert (HA : attachments (emitted s (initQueues_result W s).2) =
               seq (next_handle s) (length (configured_names W))).
  { rewrite He. unfold attachments in *.
    rewrite !omap_app, AL, A1, A2, AB. cbn. apply app_nil_r. }
  assert (HC : closes (emitted s (initQueues_result W s).2) = []).
  { rewrite He. unfold closes in *.
    rewrite !omap_app, CL, C1, C2, CB. reflexivity. }
  unfold step_delta, cache_delta. rewrite HA, HC, Hn, Hq.
  split.
  - split; [apply emitted_grows, G|].
    split; [lia|].
    split; [apply Forall_seq; intros; lia|].
    split; [constructor|].
    intros h Hin; apply elem_of_nil in Hin; contradiction.
  - intros n h Hl.
    destruct (decide (n ∈ configured_names W)) as [Hin|Hout].
    + right.
      destruct (loop_map_lookup_in (next_handle s) _ (queueMap s) n Hin)
        as (h' & Hl' & Hb).
      rewrite Hl in Hl'. injection Hl' as <-.
      apply elem_of_seq. lia.
    + left. rewrite loop_map_lookup_notin in Hl by exact Hout. exact Hl.
Qed.

Lemma step_delta_operation (s s' : State) :
  operation W s s' ->
  step_delta s s' (emitted s s') /\ cache_delta s s' (emitted s s').
Proof.
  intros Hop. pose proof (grows_operation W s s' Hop) as G.
  destruct Hop as
    [C s|depth prop s r s' Hrun|depth s r s' Hrun|s|qname s
    |this payload s|this payload s|jobObject s].
  - apply step_delta_quiet; auto;
      rewrite (emitted_app _ _ []) by (cbn; rewrite app_nil_r; reflexivity);
      reflexivity.
  - apply proxy_get_state in Hrun as ->.
    destruct (length (Object_values (queueMap s)) =? 0)%nat.
    + apply step_delta_initQueues_result.
    + apply step_delta_quiet; auto;
        rewrite (emitted_app _ _ []) by (rewrite app_nil_r; reflexivity);
        reflexivity.
  - apply initQueues_state in Hrun as ->.
    apply step_delta_initQueues_result.
  - destruct (loadJobs_quiet s) as (A & C & Q & _).
    apply step_delta_quiet; auto.
  - unfold configureQueue in *.
    destruct (data_jobs (config W)) as [jobs|].
    + apply step_delta_quiet; auto;
        rewrite (emitted_app _ _ [EvNewQueue (next_handle s) qname
                                    (queue_options W jobs)])
          by reflexivity; reflexivity.
    + apply step_delta_quiet; auto;
        rewrite (emitted_app _ _ []) by (cbn; rewrite app_nil_r; reflexivity);
        reflexivity.
  - destruct (dispatch_leaves_alone W this payload s)
      as ((_ & _ & Hq & _) & (_ & HA & _) & Hn & _).
    destruct (data_jobs (config W)) as [jobs|] eqn:Hjobs.
    + unfold step_delta, cache_delta. rewrite HA, Hq, Hn.
      split; [|auto].
      split; [apply emitted_grows, G|].
      split; [lia|].
      split; [constructor|].
      rewrite (dispatch_emitted W jobs) by exact Hjobs.
      rewrite dispatch_events_closes.
      split.
      * destruct (queue_add W _ _ _); repeat constructor; lia.
      * intros h _ Hin; apply elem_of_nil in Hin; contradiction.
    + apply step_delta_quiet; auto.
      unfold dispatch, configureQueue. rewrite Hjobs. cbn [state_after].
      rewrite (emitted_app _ _ []) by (rewrite app_nil_r; reflexivity).
      reflexivity.
  - apply step_delta_quiet; auto; unfold dispatchNow, info; cbn [snd];
      destruct (debug_enabled W);
      try (rewrite (emitted_app s _
             [EvLog Info (MsgDispatchingSync (class_name (constructor this)))
                false;
              EvHandle (class_name (constructor this)) payload])
             by (cbn; rewrite <- app_assoc; reflexivity));
      try rewrite emitted_emit; reflexivity.
  - destruct (consumer_leaves_alone jobObject s)
      as ((_ & Hq & _) & (_ & HA & _ & HC & _) & _).
    apply step_delta_quiet; auto.
Qed.

Lemma step_delta_step (s s' : State) :
  step W s s' -> step_delta s s' (emitted s s').
Proof.
  intros Hstep. destruct Hstep as [s s' Hop|prop queue s Hlt].
  - apply step_delta_operation, Hop.
  - cbn [assign snd].
    rewrite (emitted_app _ _ []) by (cbn; rewrite app_nil_r; reflexivity).
    unfold step_delta. cbn. rewrite app_nil_r.
    repeat split; auto.
    intros h Hin. apply elem_of_nil in Hin. contradiction.
Qed.

Lemma handle_discipline_initial : handle_discipline initial.
Proof.
  unfold handle_discipline. cbn. repeat split; try constructor.
  intros h Hin. apply elem_of_nil in Hin. contradiction.
Qed.

Lemma handle_discipline_delta (s s' : State) (evs : list Event) :
  step_delta s s' evs -> handle_discipline s -> handle_discipline s'.
Proof.
  intros (Ht & Hn & HA & HC & Hdisj) (IA & IC & Idisj).
  unfold handle_discipline. rewrite Ht.
  unfold attachments, closes in *. rewrite !omap_app.
  rewrite !Forall_app. rewrite Forall_forall in IA, IC, HA, HC.
  split; [|split].
  - split; apply Forall_forall; intros h Hin.
    + specialize (IA h Hin). lia.
    + specialize (HA h Hin). lia.
  - split; apply Forall_forall; intros h Hin.
    + specialize (IC h Hin). lia.
    + specialize (HC h Hin). lia.
  - intros h [Hold|Hnew]%elem_of_app [Hao|Han]%elem_of_app.
    + exact (Idisj h Hold Hao).
    + specialize (IC h Hold). specialize (HA h Han). lia.
    + specialize (HC h Hnew). specialize (IA h Hao). lia.
    + exact (Hdisj h Hnew Han).
Qed.

Lemma cache_consumed_delta (s s' : State) (evs : list Event) :
  trace s' = trace s ++ evs ->
  cache_delta s s' evs -> cache_consumed s -> cache_consumed s'.
Proof.
  intros Ht Hcache Icache n h Hl. rewrite Ht.
  unfold attachments in *. rewrite omap_app. apply elem_of_app.
  destruct (Hcache n h Hl) as [Hold|Hnew]; [left; eauto | right; exact Hnew].
Qed.

Lemma reachable_handle_discipline (s : State) :
  reachable W s -> handle_discipline s.
Proof.
  unfold reachable. intros Hr.
  apply (rtc_ind_r (R := step W) (fun s => handle_discipline s) initial);
    [apply handle_discipline_initial | | exact Hr].
  intros y z _ Hstep Hy.
  exact (handle_discipline_delta y z _ (step_delta_step y z Hstep) Hy).
Qed.

Lemma reachable_unassigned_cache_consumed (s : State) :
  reachable_unassigned W s -> cache_consumed s.
Proof.
  unfold reachable_unassigned. intros Hr.
  apply (rtc_ind_r (R := operation W) (fun s => cache_consumed s) initial);
    [| | exact Hr].
  - intros n h Hl. cbn in Hl. rewrite lookup_empty in Hl. discriminate.
  - intros y z _ Hop Hy.
    destruct (step_delta_operation y z Hop) as ((Ht & _) & Hc).
    exact (cache_consumed_delta y z _ Ht Hc Hy).
Qed.

Lemma reachable_unassigned_reachable (s : State) :
  reachable_unassigned W s -> reachable W s.
Proof.
  unfold reachable_unassigned, reachable.
  apply (rtc_subrel (operation W) (step W)).
  intros x y. apply step_operation.
Qed.

(** X19: In every reachable state, a handle that was closed (dispatch closes
    the queue it built) never carries a consumer: dispatching inside a
    worker process cannot close a queue that the worker loop consumes
    from.  In the states reached without assigning to [queues] from
    outside, a closed handle is never a cached queue either. *)
Theorem closed_handle_is_never_consumed (s : State) (h : Handle) :
  reachable W s ->
  EvClose h ∈ trace s ->
  (forall c, EvProcess h c ∉ trace s) /\
  (reachable_unassigned W s -> forall n, queueMap s !! n <> Some h).
Proof.
  intros Hreach Hclosed.
  destruct (reachable_handle_discipline s Hreach) as (_ & _ & Hdisj).
  assert (Hc : h ∈ closes (trace s)).
  { apply list_elem_of_omap. exists (EvClose h). split; [exact Hclosed | reflexivity]. }
  split.
  - intros c Hp. apply (Hdisj h Hc).
    apply list_elem_of_omap. exists (EvProcess h c). split; [exact Hp | reflexivity].
  - intros Hun n Hl.
    exact (Hdisj h Hc (reachable_unassigned_cache_consumed s Hun n h Hl)).
Qed.

(** X20: In every state reached without assigning to [queues] from
    outside, each cached queue has a consumer attached: initialisation
    never caches a queue that nothing consumes from. *)
Theorem cached_queue_has_consumer (s : State) (n : string) (h : Handle) :
  reachable_unassigned W s ->
  queueMap s !! n = Some h ->
  exists c, EvProcess h c ∈ trace s.
Proof.
  intros Hreach Hl.
  apply (reachable_unassigned_cache_consumed s Hreach),
    list_elem_of_omap in Hl as (e & Hin & He).
  destruct e; try discriminate He. injection He as ->. eauto.
Qed.

End Handles.

Lemma after_first_lookup_unassigned :
  reachable_unassigned world_emails after_first_lookup.
Proof.
  apply rtc_once.
  apply (op_lookup world_emails 2 "emails" initial (Normal (Own 0%nat))).
  vm_compute. reflexivity.
Qed.

Lemma closed_handle_is_never_consumed_witness :
  let s :=
    state_after
      (dispatch world_emails (new_Job SendEmailJob) payload_to
         after_first_lookup) in
  (forall c, EvProcess 2%nat c ∉ trace s) /\
  (reachable_unassigned world_emails s ->
   forall n, queueMap s !! n <> Some 2%nat).
Proof.
  apply (closed_handle_is_never_consumed world_emails).
  - eapply rtc_l.
    + apply step_operation.
      apply (op_lookup world_emails 2 "emails" initial
               (Normal (Own 0%nat)) after_first_lookup).
      vm_compute. reflexivity.
    + apply rtc_once, step_operation, op_dispatch.
  - vm_compute. do 14 apply list_elem_of_further. apply list_elem_of_here.
Defined.

Lemma cached_queue_has_consumer_witness :
  exists c, EvProcess 1%nat c ∈ trace after_first_lookup.
Proof.
  apply (cached_queue_has_consumer world_emails after_first_lookup
           "default" 1%nat).
  - apply rtc_once.
    apply (op_lookup world_emails 2 "emails" initial
             (Normal (Own 0%nat)) after_first_lookup).
    vm_compute. reflexivity.
  - vm_compute. reflexivity.
Defined.

(** What an assignment from outside can do: the queue a dispatch built and
    closed, stored under [emails] in a fresh process, is a cached queue
    without a consumer, and from then on [queues.emails] yields it
    without any initialisation. *)
Example assigned_closed_handle_is_cached :
  let dispatched :=
    dispatch world_emails (new_Job SendEmailJob) payload_to initial in
  let s := (assign "emails" (queue (this_after dispatched))
              (state_after dispatched)).2 in
  reachable world_emails s /\
  queue (this_after dispatched) = Some 0%nat /\
  closes (trace s) = [0%nat] /\
  attachments (trace s) = [] /\
  proxy_get world_emails 1 "emails" s = Some (Normal (Own 0%nat), s).
Proof.
  split.
  - eapply rtc_l.
    + apply step_operation.
      apply (op_dispatch world_emails (new_Job SendEmailJob) payload_to).
    + apply rtc_once.
      apply (step_assign world_emails "emails" 0%nat). vm_compute. lia.
  - vm_compute. repeat split.
Qed.

(** ** commands/AddJobCommand.ts: [slugify] *)

Example slugify_examples :
  List.map slugify
    ["Send Email"; "  Process   Data!! "; "sync--users"; "-Weekly_Report-";
     "Caf" +:+ String (Ascii.ascii_of_nat 233) ""; "   "; ""] =
  ["send-email"; "process-data"; "sync-users"; "weekly_report"; "caf"; ""; ""].
Proof. vm_compute. reflexivity. Qed.

Lemma lower_not_upper (c : Ascii.ascii) : is_upper (lower c) = false.
Proof. each_char c. Qed.

Lemma hyphen_only (c : Ascii.ascii) : is_hyphen c = true -> c = hyphen.
Proof. each_char c. Qed.

Lemma word_or_hyphen_slug (c : Ascii.ascii) :
  is_word c || is_hyphen c = true -> is_upper c = false -> slug_char c = true.
Proof. each_char c. Qed.

Lemma slug_char_fixed (c : Ascii.ascii) :
  slug_char c = true ->
  lower c = c /\ is_space c = false /\ is_word c || is_hyphen c = true.
Proof. each_char c. Qed.

Lemma hyphen_facts :
  is_hyphen hyphen = true /\ is_upper hyphen = false /\
  slug_char hyphen = true /\ is_space hyphen = false.
Proof. repeat split. Qed.

Lemma all_chars_toLowerCase (str : string) :
  all_chars (fun c => negb (is_upper c)) (toLowerCase str) = true.
Proof.
  induction str as [|c str IH]; cbn; [reflexivity|].
  rewrite lower_not_upper, IH. reflexivity.
Qed.

Lemma all_chars_replace_runs (P p : Ascii.ascii -> bool) (b : bool)
    (str : string) :
  P hyphen = true ->
  all_chars P str = true -> all_chars P (replace_runs p b str) = true.
Proof.
  intros Hh. revert b. induction str as [|c str IH]; intros b; cbn; [auto|].
  intros [Hc Hs]%andb_prop.
  destruct (p c); [destruct b|]; cbn; rewrite ?Hh, ?Hc; cbn; auto.
Qed.

Lemma all_chars_keep (str : string) :
  all_chars (fun c => negb (is_upper c)) str = true ->
  all_chars slug_char (keep (fun c => is_word c || is_hyphen c) str) = true.
Proof.
  induction str as [|c str IH]; cbn; [auto|].
  intros [Hc Hs]%andb_prop. apply negb_true_iff in Hc.
  destruct (is_word c || is_hyphen c) eqn:Hk; cbn; [|auto].
  rewrite (word_or_hyphen_slug c Hk Hc). cbn. auto.
Qed.

Lemma all_chars_strip_leading (P : Ascii.ascii -> bool) (str : string) :
  all_chars P str = true -> all_chars P (strip_leading str) = true.
Proof.
  induction str as [|c str IH]; cbn; [auto|].
  intros H. destruct (is_hyphen c); [|exact H].
  apply andb_prop in H as [_ Hs]. auto.
Qed.

Lemma all_chars_strip_trailing (P : Ascii.ascii -> bool) (str : string) :
  all_chars P str = true -> all_chars P (strip_trailing str) = true.
Proof.
  induction str as [|c str IH]; cbn; [auto|].
  intros [Hc Hs]%andb_prop. specialize (IH Hs).
  destruct (strip_trailing str) as [|c' kept].
  - destruct (is_hyphen c); cbn; rewrite ?Hc; reflexivity.
  - cbn in *. rewrite Hc. exact IH.
Qed.

(** After the hyphen runs are replaced no two hyphens are adjacent; and
    the result does not start with one when the scan started in a run. *)
Lemma replace_hyphen_runs (b : bool) (str : string) :
  no_double_hyphen (replace_runs is_hyphen b str) = true /\
  (b = true -> starts_with_hyphen (replace_runs is_hyphen b str) = false).
Proof.
  revert b. induction str as [|c str IH]; intros b; cbn; [auto|].
  destruct (is_hyphen c) eqn:Hc.
  - destruct (IH true) as [Hn Hs]. destruct b; cbn.
    + auto.
    + rewrite Hn, (Hs eq_refl). split; [reflexivity | discriminate].
  - destruct (IH false) as [Hn _]. cbn. rewrite Hc, Hn. cbn. auto.
Qed.

Lemma no_double_strip_leading (str : string) :
  no_double_hyphen str = true ->
  no_double_hyphen (strip_leading str) = true /\
  starts_with_hyphen (strip_leading str) = false.
Proof.
  induction str as [|c str IH]; cbn; [auto|].
  intros [Hc Hs]%andb_prop.
  destruct (is_hyphen c) eqn:Hh; [auto|].
  cbn. rewrite Hh, Hs. cbn. auto.
Qed.

Lemma strip_trailing_shape (str : string) :
  ends_with_hyphen (strip_trailing str) = false /\
  (starts_with_hyphen str = false ->
   starts_with_hyphen (strip_trailing str) = false) /\
  (no_double_hyphen str = true ->
   no_double_hyphen (strip_trailing str) = true) /\
  (starts_with_hyphen (strip_trailing str) = true ->
   starts_with_hyphen str = true).
Proof.
  induction str as [|c str IH]; cbn; [auto|].
  destruct IH as (He & Hs & Hn & Hb).
  destruct (strip_trailing str) as [|c' kept] eqn:Hk.
  - destruct (is_hyphen c) eqn:Hc; cbn; rewrite ?Hc; cbn.
    + repeat split; auto.
    + repeat split; auto.
  - cbn in *. repeat split.
    + exact He.
    + auto.
    + intros [H1 H2]%andb_prop. rewrite (Hn H2), andb_true_r.
      destruct (is_hyphen c); [|reflexivity]. cbn in *.
      destruct (is_hyphen c') eqn:Hc'; [|reflexivity].
      rewrite (Hb eq_refl) in H1. discriminate H1.
    + auto.
Qed.

Lemma slugify_gives_slug (str : string) : is_slug (slugify str) = true.
Proof.
  unfold slugify, is_slug.
  set (a := replace_runs is_space false (toLowerCase str)).
  set (k := keep (fun c => is_word c || is_hyphen c) a).
  set (r := replace_runs is_hyphen false k).
  assert (Ha : all_chars (fun c => negb (is_upper c)) a = true).
  { apply all_chars_replace_runs; [reflexivity | apply all_chars_toLowerCase]. }
  assert (Hk : all_chars slug_char k = true) by (apply all_chars_keep, Ha).
  assert (Hr : all_chars slug_char r = true).
  { apply all_chars_replace_runs; [reflexivity | exact Hk]. }
  destruct (replace_hyphen_runs false k) as [Hn _]. fold r in Hn.
  destruct (no_double_strip_leading r Hn) as [Hn' Hs'].
  destruct (strip_trailing_shape (strip_leading r)) as (He & Hs & Hnn & _).
  rewrite all_chars_strip_trailing
    by (apply all_chars_strip_leading, Hr).
  rewrite (Hnn Hn'), (Hs Hs'), He. reflexivity.
Qed.

(** X21: Whatever the input, the result of [slugify] is a slug: only
    lower-case letters, digits, underscores and hyphens, no two hyphens
    in a row, and no hyphen at either end (it may be empty). *)
Theorem slugify_is_slug (str : string) : is_slug (slugify str) = true.
Proof. exact (slugify_gives_slug str). Qed.

Lemma toLowerCase_fixed (str : string) :
  all_chars slug_char str = true -> toLowerCase str = str.
Proof.
  induction str as [|c str IH]; cbn; [auto|].
  intros [Hc Hs]%andb_prop.
  destruct (slug_char_fixed c Hc) as (Hl & _). rewrite Hl, (IH Hs).
  reflexivity.
Qed.

Lemma replace_space_runs_fixed (b : bool) (str : string) :
  all_chars slug_char str = true -> replace_runs is_space b str = str.
Proof.
  revert b. induction str as [|c str IH]; intros b; cbn; [auto|].
  intros [Hc Hs]%andb_prop.
  destruct (slug_char_fixed c Hc) as (_ & Hsp & _). rewrite Hsp, (IH _ Hs).
  reflexivity.
Qed.

Lemma keep_fixed (str : string) :
  all_chars slug_char str = true ->
  keep (fun c => is_word c || is_hyphen c) str = str.
Proof.
  induction str as [|c str IH]; cbn; [auto|].
  intros [Hc Hs]%andb_prop.
  destruct (slug_char_fixed c Hc) as (_ & _ & Hk). rewrite Hk, (IH Hs).
  reflexivity.
Qed.

Lemma replace_hyphen_runs_fixed (b : bool) (str : string) :
  no_double_hyphen str = true ->
  (b = true -> starts_with_hyphen str = false) ->
  replace_runs is_hyphen b str = str.
Proof.
  revert b. induction str as [|c str IH]; intros b; cbn; [auto|].
  intros [Hc Hs]%andb_prop Hb.
  destruct (is_hyphen c) eqn:Hh.
  - destruct b; [specialize (Hb eq_refl); discriminate Hb|].
    cbn in Hc. apply negb_true_iff in Hc.
    rewrite (IH true Hs (fun _ => Hc)), (hyphen_only c Hh). reflexivity.
  - rewrite (IH false Hs); [reflexivity | discriminate].
Qed.

Lemma strip_leading_fixed (str : string) :
  starts_with_hyphen str = false -> strip_leading str = str.
Proof. destruct str as [|c str]; cbn; [auto|]. intros ->. reflexivity. Qed.

Lemma strip_trailing_fixed (str : string) :
  ends_with_hyphen str = false -> strip_trailing str = str.
Proof.
  induction str as [|c str IH]; cbn; [auto|].
  destruct str as [|c' str'].
  - cbn. intros ->. reflexivity.
  - intros He. rewrite (IH He). reflexivity.
Qed.

(** X22: The slugs are exactly the strings that [slugify] leaves as they are;
    in particular [slugify] is idempotent. *)
Theorem slugify_fixes_exactly_slugs (str : string) :
  (slugify str = str <-> is_slug str = true) /\
  slugify (slugify str) = slugify str.
Proof.
  assert (Hfix : forall t, is_slug t = true -> slugify t = t).
  { intros t Ht. unfold is_slug in Ht.
    apply andb_prop in Ht as [Ht He]. apply andb_prop in Ht as [Ht Hs].
    apply andb_prop in Ht as [Hc Hn].
    apply negb_true_iff in He, Hs.
    unfold slugify.
    rewrite (toLowerCase_fixed t Hc), (replace_space_runs_fixed false t Hc),
      (keep_fixed t Hc).
    rewrite (replace_hyphen_runs_fixed false t Hn) by discriminate.
    rewrite (strip_leading_fixed t Hs). apply strip_trailing_fixed, He. }
  split.
  - split; [|apply Hfix].
    intros <-. apply slugify_gives_slug.
  - apply Hfix, slugify_gives_slug.
Qed.

(** ** commands/AddJobCommand.ts: [handle] *)

Example add_job_from_argument :
  AddJobCommand_handle cli_example ["sendEmail"] =
  (Normal true,
   [CliPrompt "commandKey" (Some "sendemail");
    CliExists "/app/./jobs/SendEmailJob.ts";
    CliWrite "/app/./jobs/SendEmailJob.ts"
      (commandContent cli_example "sendEmail");
    CliSuccess "Job SendEmailJob.ts created successfully" true]).
Proof. vm_compute. reflexivity. Qed.

Example add_job_existing :
  AddJobCommand_handle cli_example ["report"] =
  (Normal false,
   [CliPrompt "commandKey" (Some "report");
    CliExists "/app/./jobs/ReportJob.ts";
    CliError "Job file ReportJob.ts already exists" true]).
Proof. vm_compute. reflexivity. Qed.

Section AddJobFacts.

Context (C : CliWorld).

(** X23: The command never overwrites: it writes at most one file, and only
    after [existsSync] answered that nothing is at that path; the path is
    the capitalised job name followed by [Job.ts] in the configured jobs
    directory. *)
Theorem AddJobCommand_never_overwrites (args : list string)
    (path content : string) :
  CliWrite path content ∈ (AddJobCommand_handle C args).2 ->
  existsSync C path = false /\
  writes (AddJobCommand_handle C args).2 = [(path, content)] /\
  exists jobs jobName,
    data_jobs (cli_config C) = Some jobs /\ jobName <> "" /\
    path = resolve C (resolve C (cwd C) (dir jobs))
             (capitalized C jobName +:+ "Job.ts") /\
    content = commandContent C jobName.
Proof.
  unfold AddJobCommand_handle.
  set (first := given (head args)).
  destruct (match first with
            | None => (given (answer_jobName C), [CliPrompt "jobName" None])
            | Some _ => (first, [])
            end) as [name t] eqn:Hfirst.
  assert (Ht : writes t = [] /\ forall p c, CliWrite p c ∉ t).
  { destruct first; injection Hfirst as <- <-; split; try reflexivity;
      intros p c Hin.
    - apply elem_of_nil in Hin. exact Hin.
    - apply list_elem_of_singleton in Hin. discriminate Hin. }
  destruct Ht as [Hw Hno].
  assert (Hname : forall n, name = Some n -> n <> "").
  { intros n ->. unfold first in Hfirst.
    destruct (given (head args)) eqn:Hg.
    - injection Hfirst as <- _. unfold given in Hg.
      destruct (head args) as [[|]|]; congruence.
    - injection Hfirst as Hn _. unfold given in Hn.
      destruct (answer_jobName C) as [[|]|]; congruence. }
  destruct name as [jobName|]; cbn [snd].
  - specialize (Hname jobName eq_refl).
    destruct (data_jobs (cli_config C)) as [jobs|]; cbn [snd].
    + set (filePath := resolve C (resolve C (cwd C) (dir jobs))
                         (capitalized C jobName +:+ "Job.ts")).
      destruct (existsSync C filePath) eqn:Hex; cbn [snd].
      * rewrite !elem_of_app, !list_elem_of_singleton.
        intros [[[Hin|Hin]|Hin]|Hin]; try discriminate Hin.
        exfalso. exact (Hno _ _ Hin).
      * assert (Hcase : forall last,
                  (forall p c, last <> CliWrite p c) ->
                  CliWrite path content ∈
                    (((t ++ [CliPrompt "commandKey" (Some (slugify jobName))])
                      ++ [CliExists filePath])
                     ++ [CliWrite filePath (commandContent C jobName)])
                    ++ [last] ->
                  existsSync C path = false /\
                  writes ((((t ++ [CliPrompt "commandKey"
                                     (Some (slugify jobName))])
                            ++ [CliExists filePath])
                           ++ [CliWrite filePath (commandContent C jobName)])
                          ++ [last]) = [(path, content)] /\
                  exists jobs0 jobName0,
                    Some jobs = Some jobs0 /\ jobName0 <> "" /\
                    path = resolve C (resolve C (cwd C) (dir jobs0))
                             (capitalized C jobName0 +:+ "Job.ts") /\
                    content = commandContent C jobName0).
        { intros last Hlast.
          rewrite !elem_of_app, !list_elem_of_singleton.
          intros [[[[Hin|Hin]|Hin]|Hin]|Hin]; try discriminate Hin.
          - exfalso. exact (Hno _ _ Hin).
          - injection Hin as -> ->. split; [exact Hex|]. split.
            + unfold writes in *. rewrite !omap_app, Hw. cbn.
              destruct last; try reflexivity.
              exfalso. exact (Hlast _ _ eq_refl).
            + exists jobs, jobName. auto.
          - exfalso. exact (Hlast _ _ (eq_sym Hin)). }
        destruct (writeFileSync C filePath (commandContent C jobName));
          cbn [snd]; apply Hcase; intros p c; discriminate.
    + rewrite !elem_of_app, !list_elem_of_singleton.
      intros [Hin|Hin]; [|discriminate Hin].
      exfalso. exact (Hno _ _ Hin).
  - rewrite !elem_of_app, !list_elem_of_singleton.
    intros [Hin|Hin]; [|discriminate Hin].
    exfalso. exact (Hno _ _ Hin).
Qed.

(** X24: The command resolves to [true] exactly when it wrote the file, with
    one success line and no error line; every [false] comes with exactly
    one error line and no file written, or with a write that threw; and
    it rejects only when the configuration has no jobs section, having
    written nothing. *)
Theorem AddJobCommand_result (args : list string) :
  let run := AddJobCommand_handle C args in
  match run.1 with
  | Normal true =>
      (exists p c, writes run.2 = [(p, c)] /\ writeFileSync C p c = None) /\
      length (cli_successes run.2) = 1%nat /\ cli_errors run.2 = []
  | Normal false =>
      (writes run.2 = [] \/
       exists p c m, writes run.2 = [(p, c)] /\
                     writeFileSync C p c = Some m) /\
      length (cli_errors run.2) = 1%nat /\ cli_successes run.2 = []
  | Abrupt _ =>
      data_jobs (cli_config C) = None /\ writes run.2 = [] /\
      cli_errors run.2 = [] /\ cli_successes run.2 = []
  end.
Proof.
  unfold AddJobCommand_handle.
  set (first := given (head args)).
  destruct (match first with
            | None => (given (answer_jobName C), [CliPrompt "jobName" None])
            | Some _ => (first, [])
            end) as [name t] eqn:Hfirst.
  assert (Ht : writes t = [] /\ cli_errors t = [] /\ cli_successes t = []).
  { destruct first; injection Hfirst as <- <-; repeat split. }
  destruct Ht as (Hw & He & Hs).
  destruct name as [jobName|]; cbn [fst snd].
  - destruct (data_jobs (cli_config C)) as [jobs|]; cbn [fst snd].
    + set (filePath := resolve C (resolve C (cwd C) (dir jobs))
                         (capitalized C jobName +:+ "Job.ts")).
      destruct (existsSync C filePath); cbn [fst snd].
      * unfold writes, cli_errors, cli_successes in *.
        rewrite !omap_app, Hw, He, Hs. cbn. auto.
      * destruct (writeFileSync C filePath (commandContent C jobName))
          as [message|] eqn:Hwrite; cbn [fst snd];
          unfold writes, cli_errors, cli_successes in *;
          rewrite !omap_app, Hw, He, Hs; cbn.
        -- split; [right; eauto | auto].
        -- split; [eauto | auto].
    + unfold writes, cli_errors, cli_successes in *.
      rewrite !omap_app, Hw, He, Hs. cbn. auto.
  - unfold writes, cli_errors, cli_successes in *.
    rewrite !omap_app, Hw, He, Hs. cbn. auto.
Qed.

(** X25: The key asked for at the second prompt is never used: whatever the
    user answers there, the result, the file written and every call are
    the same. *)
Theorem AddJobCommand_ignores_commandKey
    (answer : string -> option string) (args : list string) :
  AddJobCommand_handle (with_answer_commandKey answer C) args =
  AddJobCommand_handle C args.
Proof. reflexivity. Qed.

End AddJobFacts.

Lemma AddJobCommand_never_overwrites_witness :
  existsSync cli_example "/app/./jobs/CleanupJob.ts" = false /\
  writes (AddJobCommand_handle cli_example []).2 =
    [("/app/./jobs/CleanupJob.ts", commandContent cli_example "cleanup")] /\
  exists jobs jobName,
    data_jobs (cli_config cli_example) = Some jobs /\ jobName <> "" /\
    "/app/./jobs/CleanupJob.ts" =
      resolve cli_example (resolve cli_example (cwd cli_example) (dir jobs))
        (capitalized cli_example jobName +:+ "Job.ts") /\
    commandContent cli_example "cleanup" = commandContent cli_example jobName.
Proof.
  apply (AddJobCommand_never_overwrites cli_example []
           "/app/./jobs/CleanupJob.ts" (commandContent cli_example "cleanup")).
  vm_compute. do 3 apply list_elem_of_further. apply list_elem_of_here.
Defined.
